(** * IdentityLab: the cleaning pipeline and the analysis routines

    A shallow embedding of [src/preprocessing.py] (class
    [AadhaarDataPreprocessor]) and [src/analysis.py] (class [AadhaarAnalyzer],
    [calculate_concentration_index]), with the pandas / numpy / scipy
    primitives these call.

    Conventions of the embedding.
    - A float64 is an exact rational extended with [+inf], [-inf] and [NaN]:
      the arithmetic follows IEEE 754 on the special values and is exact on
      the finite ones (binary rounding and signed zeros are outside the
      model).  An int64 column holds the same values without the specials;
      overflow of int64 is outside the model.
    - A DataFrame is an ordered list of rows over a list of column names; a
      DataFrame object lives in a store, so that in-place assignment
      ([df[c] = ...]) and [df.copy()] are told apart.
    - A call either returns or raises; the exception is part of the result. *)

From Stdlib Require Import ZArith QArith Qcanon Qround Lqa Lia Ascii String.
From stdpp Require Import base decidable option numbers list strings pretty gmap.

Local Open Scope Z_scope.

(** ** Numbers *)

Module Num.

(** float64, idealised. *)
Inductive num :=
| Fin (q : Qc)
| PInf
| NInf
| NaN.

#[global] Instance num_eq_dec : EqDecision num.
Proof. solve_decision. Defined.

Definition of_Z (n : Z) : num := Fin (Qc_of_Z n).

Definition zero : num := of_Z 0.
Definition one : num := of_Z 1.
Definition hundred : num := of_Z 100.

Definition isnan (x : num) : bool :=
  match x with NaN => true | _ => false end.

Definition isfinite (x : num) : bool :=
  match x with Fin _ => true | _ => false end.

(** Sign of a finite value, as a [comparison] with zero. *)
Definition sgn (q : Qc) : comparison := (q ?= 0)%Qc.

Definition neg (x : num) : num :=
  match x with
  | Fin q => Fin (- q)%Qc
  | PInf => NInf
  | NInf => PInf
  | NaN => NaN
  end.

Definition add (x y : num) : num :=
  match x, y with
  | NaN, _ | _, NaN => NaN
  | Fin p, Fin q => Fin (p + q)%Qc
  | PInf, NInf | NInf, PInf => NaN
  | PInf, _ | _, PInf => PInf
  | NInf, _ | _, NInf => NInf
  end.

Definition sub (x y : num) : num := add x (neg y).

(** The infinity of the given sign; [Eq] (a zero factor) gives [NaN]. *)
Definition inf_of (c : comparison) : num :=
  match c with Gt => PInf | Lt => NInf | Eq => NaN end.

Definition flip (c : comparison) : comparison := CompOpp c.

Definition mul (x y : num) : num :=
  match x, y with
  | NaN, _ | _, NaN => NaN
  | Fin p, Fin q => Fin (p * q)%Qc
  | Fin p, PInf | PInf, Fin p => inf_of (sgn p)
  | Fin p, NInf | NInf, Fin p => inf_of (flip (sgn p))
  | PInf, PInf | NInf, NInf => PInf
  | PInf, NInf | NInf, PInf => NInf
  end.

(** Division: [x / 0] is [+inf], [-inf] or [NaN] by the sign of [x]; no
    exception (numpy warns, pandas is silent). *)
Definition div (x y : num) : num :=
  match x, y with
  | NaN, _ | _, NaN => NaN
  | Fin p, Fin q =>
      match sgn q with
      | Eq => inf_of (sgn p)
      | _ => Fin (p / q)%Qc
      end
  | Fin _, (PInf | NInf) => zero
  | PInf, Fin q => match sgn q with Lt => NInf | _ => PInf end
  | NInf, Fin q => match sgn q with Lt => PInf | _ => NInf end
  | (PInf | NInf), (PInf | NInf) => NaN
  end.

(** Comparisons; every comparison with [NaN] is false. *)
Definition ltb (x y : num) : bool :=
  match x, y with
  | NaN, _ | _, NaN => false
  | Fin p, Fin q => bool_decide (p < q)%Qc
  | NInf, (Fin _ | PInf) => true
  | Fin _, PInf => true
  | _, _ => false
  end.

Definition eqb (x y : num) : bool :=
  match x, y with
  | Fin p, Fin q => bool_decide (p = q)
  | PInf, PInf | NInf, NInf => true
  | _, _ => false
  end.

Definition leb (x y : num) : bool := ltb x y || eqb x y.
Definition gtb (x y : num) : bool := ltb y x.

(** [Series.fillna(0)] on one value. *)
Definition fillna0 (x : num) : num := if isnan x then zero else x.

(** [Series.clip(lower=0)] on one value ([NaN] is left alone). *)
Definition clip_lower0 (x : num) : num :=
  if ltb x zero then zero else x.

(** Round half to even, as [numpy.rint]. *)
Definition rint (q : Qc) : Z :=
  let f := Qfloor q in
  let r := (q - Qc_of_Z f)%Qc in
  let half := (1 / Qc_of_Z 2)%Qc in
  if bool_decide (r < half)%Qc then f
  else if bool_decide (half < r)%Qc then f + 1
  else if Z.even f then f else f + 1.

(** [Series.round(2)]: [rint (x * 100) / 100]. *)
Definition round2 (x : num) : num :=
  match x with
  | Fin q => Fin (Qc_of_Z (rint (q * Qc_of_Z 100)) / Qc_of_Z 100)%Qc
  | _ => x
  end.

(** Sum of an array, left to right from 0 ([numpy.sum], [NaN] propagates). *)
Definition sum (l : list num) : num := foldl add zero l.

(** Sum skipping [NaN] (the pandas default, [skipna=True]). *)
Definition nansum (l : list num) : num :=
  sum (filter (λ x, isnan x = false) l).

End Num.
Export Num.

(** ** Strings

    A Python [str] is a [string]; one [ascii] is one character, so the model
    covers text whose characters are below 256, and casing is ASCII casing. *)

Module Str.

Local Open Scope char_scope.

Definition code (c : ascii) : N := N_of_ascii c.

Definition is_digit (c : ascii) : bool :=
  (48 <=? code c)%N && (code c <=? 57)%N.

Definition is_upper (c : ascii) : bool :=
  (65 <=? code c)%N && (code c <=? 90)%N.

Definition is_lower (c : ascii) : bool :=
  (97 <=? code c)%N && (code c <=? 122)%N.

Definition is_cased (c : ascii) : bool := is_upper c || is_lower c.

(** [str.isspace] on one ASCII character: tab .. carriage return, the four
    separators 28 .. 31, and the space. *)
Definition is_space (c : ascii) : bool :=
  ((9 <=? code c)%N && (code c <=? 13)%N)
  || ((28 <=? code c)%N && (code c <=? 32)%N).

Definition to_upper (c : ascii) : ascii :=
  if is_lower c then ascii_of_N (code c - 32) else c.

Definition to_lower (c : ascii) : ascii :=
  if is_upper c then ascii_of_N (code c + 32) else c.

Definition digit_val (c : ascii) : Z := Z.of_N (code c) - 48.

Definition chars : string → list ascii := list_ascii_of_string.
Definition of_chars : list ascii → string := string_of_list_ascii.

(** [len(s)] *)
Definition len (s : string) : Z := Z.of_nat (String.length s).

Fixpoint lstrip_chars (l : list ascii) : list ascii :=
  match l with
  | c :: l' => if is_space c then lstrip_chars l' else l
  | [] => []
  end.

(** [s.strip()] *)
Definition strip (s : string) : string :=
  of_chars (rev (lstrip_chars (rev (lstrip_chars (chars s))))).

(** [s.title()]: a cased character is upper-cased when the character before
    it is not cased, and lower-cased otherwise. *)
Fixpoint title_chars (prev_cased : bool) (l : list ascii) : list ascii :=
  match l with
  | [] => []
  | c :: l' =>
      (if is_cased c
       then (if prev_cased then to_lower c else to_upper c)
       else c) :: title_chars (is_cased c) l'
  end.

Definition title (s : string) : string := of_chars (title_chars false (chars s)).

(** [s.zfill(width)]: zeros are inserted after a leading sign. *)
Definition zfill (width : nat) (s : string) : string :=
  let n := String.length s in
  if (width <=? n)%nat then s
  else
    let zeros := of_chars (replicate (width - n) "0") in
    match s with
    | String c s' =>
        if bool_decide (c = "+") || bool_decide (c = "-")
        then String c (zeros +:+ s')
        else zeros +:+ s
    | EmptyString => zeros
    end.

(** Decimal value of a run of digits. *)
Definition digits_val (l : list ascii) : Z :=
  foldl (λ acc c, 10 * acc + digit_val c) 0 l.

(** [s.split(sep)] on characters. *)
Fixpoint split_on (sep : ascii) (l : list ascii) : list (list ascii) :=
  match l with
  | [] => [[]]
  | c :: l' =>
      if bool_decide (c = sep) then [] :: split_on sep l'
      else match split_on sep l' with
           | w :: ws => (c :: w) :: ws
           | [] => [[c]]
           end
  end.

End Str.

(** ** Calendar dates

    A [Timestamp] at midnight.  [strptime] is the matcher that
    [pd.to_datetime(..., format='%d-%m-%Y', errors='coerce')] runs on each
    string: the whole string has to match, and the three numbers have to be a
    date of the calendar (the resolution bounds of [Timestamp] are outside the
    model). *)

Module Date.

Record date := mk_date { year : Z; month : Z; day : Z }.

#[global] Instance date_eq_dec : EqDecision date.
Proof. solve_decision. Defined.

Definition is_leap (y : Z) : bool :=
  ((y mod 4 =? 0) && negb (y mod 100 =? 0)) || (y mod 400 =? 0).

Definition days_in_month (y m : Z) : Z :=
  if m =? 2 then (if is_leap y then 29 else 28)
  else if (m =? 4) || (m =? 6) || (m =? 9) || (m =? 11) then 30
  else 31.

(** What [datetime.date(y, m, d)] accepts. *)
Definition valid (y m d : Z) : bool :=
  (1 <=? y) && (y <=? 9999) && (1 <=? m) && (m <=? 12)
  && (1 <=? d) && (d <=? days_in_month y m).

(** [%d]: [3[0-1]|[1-2]\d|0[1-9]|[1-9]| [1-9]] *)
Definition match_d (l : list ascii) : option Z :=
  match l with
  | [a; b] =>
      if Str.is_digit b && (Str.is_digit a || bool_decide (a = " "%char))
      then
        let v := if Str.is_digit a then Str.digits_val [a; b] else Str.digit_val b in
        if (1 <=? v) && (v <=? 31) then Some v else None
      else None
  | [a] =>
      if Str.is_digit a && (1 <=? Str.digit_val a) then Some (Str.digit_val a) else None
  | _ => None
  end.

(** [%m]: [1[0-2]|0[1-9]|[1-9]] *)
Definition match_m (l : list ascii) : option Z :=
  match l with
  | [a; b] =>
      if Str.is_digit a && Str.is_digit b
      then
        let v := Str.digits_val [a; b] in
        if (1 <=? v) && (v <=? 12) then Some v else None
      else None
  | [a] =>
      if Str.is_digit a && (1 <=? Str.digit_val a) then Some (Str.digit_val a) else None
  | _ => None
  end.

(** [%Y]: four digits. *)
Definition match_Y (l : list ascii) : option Z :=
  match l with
  | [a; b; c; d] =>
      if forallb Str.is_digit l then Some (Str.digits_val l) else None
  | _ => None
  end.

Definition strptime (s : string) : option date :=
  match Str.split_on "-"%char (Str.chars s) with
  | [ds; ms; ys] =>
      d ← match_d ds; m ← match_m ms; y ← match_Y ys;
      if valid y m d then Some (mk_date y m d) else None
  | _ => None
  end.

(** Days since 1970-01-01 in the proleptic Gregorian calendar. *)
Definition days_from_civil (dt : date) : Z :=
  let y := if month dt <=? 2 then year dt - 1 else year dt in
  let era := y / 400 in
  let yoe := y - era * 400 in
  let mp := (month dt + 9) mod 12 in
  let doy := (153 * mp + 2) / 5 + day dt - 1 in
  let doe := yoe * 365 + yoe / 4 - yoe / 100 + doy in
  era * 146097 + doe - 719468.

(** [.dt.dayofweek]: Monday is 0. *)
Definition dayofweek (dt : date) : Z := (days_from_civil dt + 3) mod 7.

Definition dayofyear (dt : date) : Z :=
  days_from_civil dt - days_from_civil (mk_date (year dt) 1 1) + 1.

Definition weeks_in_year (y : Z) : Z :=
  let p := λ y, (y + y / 4 - y / 100 + y / 400) mod 7 in
  if (p y =? 4) || (p (y - 1) =? 3) then 53 else 52.

(** [.dt.isocalendar().week] *)
Definition isoweek (dt : date) : Z :=
  let w := (dayofyear dt - (dayofweek dt + 1) + 10) / 7 in
  if w <? 1 then weeks_in_year (year dt - 1)
  else if weeks_in_year (year dt) <? w then 1
  else w.

End Date.

(** ** Cells, rows and DataFrames *)

(** A value held in a DataFrame.  [VNum NaN] is the missing value of a
    numeric or object column, [VNaT] the one of a datetime column. *)
Inductive cell :=
| VStr (s : string)
| VInt (n : Z)
| VNum (x : num)
| VDate (d : Date.date)
| VNaT.

#[global] Instance cell_eq_dec : EqDecision cell.
Proof. solve_decision. Defined.

(** What a call raises. *)
Inductive exn :=
| KeyError (key : string)
| IndexError
| ValueError
| TypeError
| AttributeError
| ReferenceError.

Inductive result (A : Type) :=
| Ok (a : A)
| Raise (e : exn).
Arguments Ok {A} a.
Arguments Raise {A} e.

#[global] Instance exn_eq_dec : EqDecision exn.
Proof. solve_decision. Defined.

#[global] Instance result_eq_dec {A} `{EqDecision A} : EqDecision (result A).
Proof. solve_decision. Defined.

Module DF.

(** A row maps a column name to the cell it holds. *)
Abbreviation row := (gmap string cell).

Record DataFrame := mk_df { columns : list string; rows : list row }.

#[global] Instance DataFrame_eq_dec : EqDecision DataFrame.
Proof. solve_decision. Defined.

(** A DataFrame from its rows, each given as the list of its cells. *)
Definition frame_of (cols : list string) (rs : list (list cell)) : DataFrame :=
  mk_df cols (map (λ vs, list_to_map (zip cols vs)) rs).

(** [len(df)] *)
Definition len (t : DataFrame) : Z := Z.of_nat (length (rows t)).

(** [c in df.columns] *)
Definition has_column (t : DataFrame) (c : string) : bool :=
  bool_decide (c ∈ columns t).

(** The cell of row [r] under column [c]; a row that has no entry for a
    column of its frame holds the missing value there. *)
Definition at_ (r : row) (c : string) : cell := default (VNum NaN) (r !! c).

(** [df[c]]: the column as a Series, or [KeyError]. *)
Definition getitem (t : DataFrame) (c : string) : result (list cell) :=
  if has_column t c then Ok (map (λ r, at_ r c) (rows t))
  else Raise (KeyError c).

(** [df[c] = s], on the value of the frame.  The Series [s] is aligned with
    the rows by position: every Series below comes from the frame it is
    assigned to. *)
Definition setitem (t : DataFrame) (c : string) (s : list cell) : result DataFrame :=
  if bool_decide (length s = length (rows t)) then
    Ok (mk_df (if has_column t c then columns t else columns t ++ [c])
           (zip_with (λ r v, <[c := v]> r) (rows t) s))
  else Raise ValueError.

(** [df[mask]] for a boolean Series [mask]. *)
Fixpoint select (rs : list row) (mask : list bool) : list row :=
  match rs, mask with
  | r :: rs', b :: mask' => if b then r :: select rs' mask' else select rs' mask'
  | _, _ => []
  end.

Definition boolean_index (t : DataFrame) (mask : list bool) : DataFrame :=
  mk_df (columns t) (select (rows t) mask).

(** [Series.isnull()] on one cell. *)
Definition isnull (v : cell) : bool :=
  match v with
  | VNum NaN | VNaT => true
  | _ => false
  end.

(** [df.dropna(subset=[c])] *)
Definition dropna (t : DataFrame) (c : string) : result DataFrame :=
  match getitem t c with
  | Ok s => Ok (boolean_index t (map (λ v, negb (isnull v)) s))
  | Raise e => Raise e
  end.

(** [mask.sum()] for a boolean Series. *)
Definition count_true (mask : list bool) : Z :=
  Z.of_nat (length (filter (λ b, b = true) mask)).

(** The number a numeric cell stands for; what is not a number is missing. *)
Definition to_num (v : cell) : num :=
  match v with
  | VInt n => of_Z n
  | VNum x => x
  | _ => NaN
  end.

End DF.
Export DF.

(** ** The store and the monad of calls

    A variable of the Python code holds a reference ([loc]) to a DataFrame
    object of the heap.  Besides the heap, the state holds the attribute
    [cleaning_report] of the preprocessor: a dict from a category to a dict
    of counters. *)

Definition loc : Type := nat.

Record world := mk_world {
  heap : gmap nat DataFrame;
  cleaning_report : gmap string (gmap string Z)
}.

Definition M (A : Type) : Type := world → result A * world.

#[global] Instance result_ret : MRet result := @Ok.
#[global] Instance result_bind : MBind result :=
  λ A B k r, match r with Ok a => k a | Raise e => Raise e end.

#[global] Instance M_ret : MRet M := λ A a w, (Ok a, w).
#[global] Instance M_bind : MBind M :=
  λ A B k m w,
    match m w with
    | (Ok a, w') => k a w'
    | (Raise e, w') => (Raise e, w')
    end.

Definition lift {A} (r : result A) : M A := λ w, (r, w).

Definition set_heap (f : gmap nat DataFrame → gmap nat DataFrame) (w : world) : world :=
  mk_world (f (heap w)) (cleaning_report w).

(** The object a reference points to. *)
Definition deref (l : loc) : M DataFrame :=
  λ w, match heap w !! l with
       | Some t => (Ok t, w)
       | None => (Raise ReferenceError, w)
       end.

(** A new object. *)
Definition alloc (t : DataFrame) : M loc :=
  λ w, let l := fresh (dom (heap w)) in (Ok l, set_heap (insert l t) w).

(** Overwrite an object in place. *)
Definition store (l : loc) (t : DataFrame) : M unit :=
  λ w, (Ok (), set_heap (insert l t) w).

(** [df.copy()] *)
Definition copy (df : loc) : M loc := t ← deref df; alloc t.

(** [df[c] = rhs], where [rhs] is computed from [df] itself: the object
    [df] is changed in place. *)
Definition assign (df : loc) (c : string) (rhs : DataFrame → result (list cell)) : M unit :=
  t ← deref df; s ← lift (rhs t); t' ← lift (setitem t c s); store df t'.

(** [f(df)] for an operation that returns a new DataFrame. *)
Definition derive (df : loc) (f : DataFrame → result DataFrame) : M loc :=
  t ← deref df; t' ← lift (f t); alloc t'.

(** An expression over [df] that returns no DataFrame. *)
Definition eval {A} (df : loc) (f : DataFrame → result A) : M A :=
  t ← deref df; lift (f t).

(** [for x in xs: body(x)] *)
Fixpoint for_ {A} (xs : list A) (body : A → M unit) : M unit :=
  match xs with
  | [] => mret ()
  | x :: xs' => body x;; for_ xs' body
  end.

(** [self.cleaning_report[k] = v] *)
Definition set_report (k : string) (v : gmap string Z) : M unit :=
  λ w, (Ok (), mk_world (heap w) (<[k := v]> (cleaning_report w))).

(** ** Series operations used by the preprocessor *)

Module Series.

(** One element of [pd.to_datetime(s, format='%d-%m-%Y', errors='coerce')]:
    what does not match the format becomes [NaT]. *)
Definition to_datetime (v : cell) : cell :=
  match v with
  | VStr s => match Date.strptime s with Some d => VDate d | None => VNaT end
  | VDate d => VDate d
  | _ => VNaT
  end.

(** An element of [s.str.f()]: an element that is no string gives the
    missing value. *)
Definition str_map (f : string → cell) (v : cell) : cell :=
  match v with
  | VStr s => f s
  | _ => VNum NaN
  end.

Definition str_strip : cell → cell := str_map (λ s, VStr (Str.strip s)).
Definition str_title : cell → cell := str_map (λ s, VStr (Str.title s)).
Definition str_zfill (width : nat) : cell → cell :=
  str_map (λ s, VStr (Str.zfill width s)).
Definition str_len : cell → cell := str_map (λ s, VInt (Str.len s)).

(** [YYYY-MM-DD] *)
Definition isoformat (d : Date.date) : string :=
  Str.zfill 4 (pretty (Date.year d)) +:+ "-" +:+
  Str.zfill 2 (pretty (Date.month d)) +:+ "-" +:+
  Str.zfill 2 (pretty (Date.day d)).

(** [v == k] for an integer [k], elementwise: never raises. *)
Definition eq_int (k : Z) (v : cell) : bool :=
  match v with
  | VInt n => bool_decide (n = k)
  | VNum x => Num.eqb x (of_Z k)
  | _ => false
  end.

(** [v > 0], elementwise: a string or a date against a number raises. *)
Definition gt_zero (v : cell) : result bool :=
  match v with
  | VInt n => Ok (bool_decide (0 < n))
  | VNum x => Ok (Num.gtb x zero)
  | VNaT => Ok false
  | VStr _ | VDate _ => Raise TypeError
  end.

(** [Series > 0] *)
Fixpoint gt_zero_all (s : list cell) : result (list bool) :=
  match s with
  | [] => Ok []
  | v :: s' => b ← gt_zero v; bs ← gt_zero_all s'; Ok (b :: bs)
  end.

(** [s.dt.f]: the accessor exists on a datetime Series only; a missing date
    gives a missing value. *)
Definition is_datetime (v : cell) : bool :=
  match v with VDate _ | VNaT => true | _ => false end.

Definition dt (f : Date.date → Z) (s : list cell) : result (list cell) :=
  if forallb is_datetime s then
    Ok (map (λ v, match v with VDate d => VInt (f d) | _ => VNum NaN end) s)
  else Raise AttributeError.

Section Library.

(** Two functions of the libraries are taken as they are: the text Python
    gives a finite float, and the number [pd.to_numeric] reads in a string
    ([NaN] when it reads none under [errors='coerce']). *)
Variable float_repr : Qc → string.
Variable numeric_of_string : string → num.

(** An element of [s.astype(str)]. *)
Definition astype_str (v : cell) : cell :=
  VStr match v with
       | VStr s => s
       | VInt n => pretty n
       | VNum (Fin q) => float_repr q
       | VNum PInf => "inf"
       | VNum NInf => "-inf"
       | VNum NaN => "nan"
       | VDate d => isoformat d
       | VNaT => "NaT"
       end.

(** An element of [pd.to_numeric(s, errors='coerce')]. *)
Definition to_numeric (v : cell) : cell :=
  VNum match v with
       | VStr s => numeric_of_string s
       | VInt n => of_Z n
       | VNum x => x
       | VDate _ | VNaT => NaN
       end.

End Library.

(** An element of [s.fillna(0)]. *)
Definition fillna0 (v : cell) : cell :=
  if isnull v then VNum zero else v.

(** An element of [s.clip(lower=0)] of a numeric Series. *)
Definition clip_lower0 (v : cell) : cell := VNum (Num.clip_lower0 (to_num v)).

End Series.

(** ** The preprocessor ([src/preprocessing.py]) *)

Module Preprocessor.

(** What tells the three cleaning methods apart: the count columns, the name
    of the total column, the key of the report entry, and the name of the
    zero counter in it. *)
Record category := mk_category {
  count_cols : list string;
  total_col : string;
  report_key : string;
  zero_key : string
}.

Definition enrolment : category :=
  mk_category ["age_0_5"; "age_5_17"; "age_18_greater"]
              "total_enrolments" "enrolment" "zero_enrolments".

Definition demographic : category :=
  mk_category ["demo_age_5_17"; "demo_age_17_"]
              "total_demo_updates" "demographic" "zero_updates".

Definition biometric : category :=
  mk_category ["bio_age_5_17"; "bio_age_17_"]
              "total_bio_updates" "biometric" "zero_updates".

(** [df[cols].sum(axis=1)] on one row. *)
Definition row_sum (cols : list string) (r : row) : cell :=
  VNum (nansum (map (λ c, to_num (at_ r c)) cols)).

Section Library.

Variable float_repr : Qc → string.
Variable numeric_of_string : string → num.

(** The body the three methods share, line by line; [df_clean] is rebound
    where the source rebinds it. *)
Definition clean (cat : category) (df : loc) : M loc :=
  df_clean ← copy df;
  initial_rows ← eval df_clean (λ t, Ok (len t));
  (* Convert date column to datetime *)
  assign df_clean "date"
    (λ t, s ← getitem t "date"; Ok (map Series.to_datetime s));;
  (* Remove rows with invalid dates *)
  invalid_dates ← eval df_clean
    (λ t, s ← getitem t "date"; Ok (count_true (map isnull s)));
  df_clean ← derive df_clean (λ t, dropna t "date");
  (* Clean string columns *)
  for_ ["state"; "district"] (λ col,
    present ← eval df_clean (λ t, Ok (has_column t col));
    if present : bool then
      assign df_clean col
        (λ t, s ← getitem t col;
              Ok (map Series.str_title (map Series.str_strip s)))
    else mret ());;
  (* Convert pincode to string and ensure 6 digits *)
  present ← eval df_clean (λ t, Ok (has_column t "pincode"));
  df_clean ←
    (if present : bool then
       assign df_clean "pincode"
         (λ t, s ← getitem t "pincode";
               Ok (map (Series.str_zfill 6) (map (Series.astype_str float_repr) s)));;
       derive df_clean
         (λ t, s ← getitem t "pincode";
               Ok (boolean_index t (map (Series.eq_int 6) (map Series.str_len s))))
     else mret df_clean);
  (* Ensure the count columns are numeric and non-negative *)
  for_ (count_cols cat) (λ col,
    present ← eval df_clean (λ t, Ok (has_column t col));
    if present : bool then
      assign df_clean col
        (λ t, s ← getitem t col;
              Ok (map (Series.to_numeric numeric_of_string) s));;
      assign df_clean col
        (λ t, s ← getitem t col;
              Ok (map Series.clip_lower0 (map Series.fillna0 s)))
    else mret ());;
  (* Add the total column *)
  all_present ← eval df_clean
    (λ t, Ok (forallb (has_column t) (count_cols cat)));
  (if all_present : bool then
     assign df_clean (total_col cat)
       (λ t, Ok (map (row_sum (count_cols cat)) (rows t)))
   else mret ());;
  (* Remove rows with zero total *)
  zero_total ← eval df_clean
    (λ t, s ← getitem t (total_col cat);
          Ok (count_true (map (Series.eq_int 0) s)));
  df_clean ← derive df_clean
    (λ t, s ← getitem t (total_col cat);
          mask ← Series.gt_zero_all s;
          Ok (boolean_index t mask));
  (* Add temporal features *)
  assign df_clean "year"
    (λ t, s ← getitem t "date"; Series.dt Date.year s);;
  assign df_clean "month"
    (λ t, s ← getitem t "date"; Series.dt Date.month s);;
  assign df_clean "day_of_week"
    (λ t, s ← getitem t "date"; Series.dt Date.dayofweek s);;
  assign df_clean "week_of_year"
    (λ t, s ← getitem t "date"; Series.dt Date.isoweek s);;
  (* Store cleaning report *)
  final_rows ← eval df_clean (λ t, Ok (len t));
  set_report (report_key cat)
    (<["initial_rows" := initial_rows]>
     (<["final_rows" := final_rows]>
      (<["rows_removed" := initial_rows - final_rows]>
       (<["invalid_dates" := invalid_dates]>
        (<[zero_key cat := zero_total]> ∅)))));;
  mret df_clean.

Definition clean_enrolment_data : loc → M loc := clean enrolment.
Definition clean_demographic_data : loc → M loc := clean demographic.
Definition clean_biometric_data : loc → M loc := clean biometric.

End Library.

(** [get_cleaning_report] *)
Definition get_cleaning_report : M (gmap string (gmap string Z)) :=
  λ w, (Ok (cleaning_report w), w).

End Preprocessor.

(** ** Sorting and grouping *)

Module Order.

Section Stable.
Context {A : Type} (leb : A → A → bool).

Fixpoint insert_sorted (x : A) (l : list A) : list A :=
  match l with
  | [] => [x]
  | y :: l' => if leb x y then x :: l else y :: insert_sorted x l'
  end.

(** The stable sort by [leb]: elements that [leb] ranks alike keep the
    order they have in [l].  A stable sort has one result, whatever the
    algorithm. *)
Definition stable_sort (l : list A) : list A := foldr insert_sorted [] l.

End Stable.

(** Ascending order of values, the missing ones last. *)
Definition asc_leb (x y : num) : bool :=
  isnan y || (negb (isnan x) && Num.leb x y).

(** Descending order of values, the missing ones last. *)
Definition desc_leb (x y : num) : bool :=
  isnan y || (negb (isnan x) && Num.leb y x).

(** The order of group keys: numbers before strings before dates; pandas
    sorts the keys of one dtype by their values. *)
Definition key_rank (v : cell) : Z :=
  match v with
  | VInt _ | VNum _ => 0
  | VStr _ => 1
  | VDate _ => 2
  | VNaT => 3
  end.

Definition key_leb (a b : cell) : bool :=
  match a, b with
  | VStr s, VStr s' => String.leb s s'
  | VDate d, VDate d' => Date.days_from_civil d <=? Date.days_from_civil d'
  | (VInt _ | VNum _), (VInt _ | VNum _) => Num.leb (to_num a) (to_num b)
  | _, _ => key_rank a <=? key_rank b
  end.

End Order.

Module GroupBy.

(** The keys of [df.groupby(c)]: the values of the column that are not
    missing, each once, sorted. *)
Definition group_keys (ks : list cell) : list cell :=
  Order.stable_sort Order.key_leb
    (remove_dups (filter (λ v, isnull v = false) ks)).

(** The values of the rows of one group, in row order. *)
Fixpoint group_values (ks vs : list cell) (k : cell) : list cell :=
  match ks, vs with
  | k' :: ks', v :: vs' =>
      if bool_decide (k' = k) then v :: group_values ks' vs' k
      else group_values ks' vs' k
  | _, _ => []
  end.

(** The non-missing numbers of a group. *)
Definition numbers (vs : list cell) : list num :=
  filter (λ x, isnan x = false) (map to_num vs).

(** [df.groupby(by)[val].agg(f)]: one entry per key, in key order. *)
Definition agg {B} (f : list cell → B) (t : DataFrame) (by_ val : string)
  : result (list (cell * B)) :=
  ks ← getitem t by_;
  vs ← getitem t val;
  Ok (map (λ k, (k, f (group_values ks vs k))) (group_keys ks)).

(** [sum], [mean] and [count] of a group skip the missing values. *)
Definition sum (vs : list cell) : num := Num.sum (numbers vs).
Definition count (vs : list cell) : Z := Z.of_nat (length (numbers vs)).
Definition mean (vs : list cell) : num := Num.div (sum vs) (of_Z (count vs)).

End GroupBy.

(** ** The analyzer ([src/analysis.py]) *)

Module Analyzer.

(** *** [bivariate_analysis] *)

Record bivariate := mk_bivariate {
  pearson_correlation : num;
  pearson_pvalue : num;
  spearman_correlation : num;
  spearman_pvalue : num;
  significant : bool
}.

(** [s.dropna()], as the array of numbers scipy makes of it. *)
Definition dropna_values (s : list cell) : list num :=
  map to_num (filter (λ v, isnull v = false) s).

Definition p_threshold : num := Fin (Qc_of_Z 5 / Qc_of_Z 100)%Qc.

Section Scipy.

(** The coefficient and the two-sided p-value of a sample of pairs, for
    [x] and [y] of one length: the two statistics are the library's. *)
Variable pearson_stat : list num → list num → num * num.
Variable spearman_stat : list num → list num → num * num.

(** [scipy.stats.pearsonr(x, y)] *)
Definition pearsonr (x y : list num) : result (num * num) :=
  if bool_decide (length x = length y) then
    if bool_decide (2 ≤ length x)%nat then Ok (pearson_stat x y)
    else Raise ValueError
  else Raise ValueError.

(** [scipy.stats.spearmanr(x, y)] *)
Definition spearmanr (x y : list num) : result (num * num) :=
  if bool_decide (length x = length y) then Ok (spearman_stat x y)
  else Raise ValueError.

Definition bivariate_analysis (df : loc) (col1 col2 : string) : M bivariate :=
  (* Pearson correlation *)
  x ← eval df (λ t, s ← getitem t col1; Ok (dropna_values s));
  y ← eval df (λ t, s ← getitem t col2; Ok (dropna_values s));
  pearson ← lift (pearsonr x y);
  (* Spearman correlation *)
  x ← eval df (λ t, s ← getitem t col1; Ok (dropna_values s));
  y ← eval df (λ t, s ← getitem t col2; Ok (dropna_values s));
  spearman ← lift (spearmanr x y);
  mret (mk_bivariate pearson.1 pearson.2 spearman.1 spearman.2
                     (Num.ltb pearson.2 p_threshold)).

(** The pairs of the rows in which both fields are present. *)
Definition paired_values (s1 s2 : list cell) : list (num * num) :=
  map (λ p, (to_num p.1, to_num p.2))
      (filter (λ p, isnull p.1 = false ∧ isnull p.2 = false) (zip s1 s2)).

(** The analysis over the rows in which both fields are present, as the
    specification words it; it is compared with [bivariate_analysis]. *)
Definition bivariate_over_pairs (df : loc) (col1 col2 : string) : M bivariate :=
  pairs ← eval df (λ t, s1 ← getitem t col1; s2 ← getitem t col2;
                        Ok (paired_values s1 s2));
  pearson ← lift (pearsonr (map fst pairs) (map snd pairs));
  spearman ← lift (spearmanr (map fst pairs) (map snd pairs));
  mret (mk_bivariate pearson.1 pearson.2 spearman.1 spearman.2
                     (Num.ltb pearson.2 p_threshold)).

End Scipy.

(** *** [geographical_aggregation] *)

Definition sum_name (value_col : string) : string := value_col +:+ "_sum".
Definition mean_name (value_col : string) : string := value_col +:+ "_mean".

(** [Series.sort_values(ascending=False)] on the entries of a Series: the
    missing values last.  The place of equal values is the one of a stable
    sort. *)
Definition sort_desc {K} (l : list (K * num)) : list (K * num) :=
  Order.stable_sort (λ a b, Order.desc_leb a.2 b.2) l.

Definition geographical_aggregation (df : loc) (level value_col : string) : M loc :=
  derive df (λ t,
    groups ← GroupBy.agg
      (λ vs, (GroupBy.sum vs, GroupBy.mean vs, GroupBy.count vs)) t level value_col;
    let sorted :=
      Order.stable_sort (λ a b, Order.desc_leb a.2.1.1 b.2.1.1) groups in
    Ok (frame_of [level; sum_name value_col; mean_name value_col; "count"]
          (map (λ g, [g.1; VNum g.2.1.1; VNum g.2.1.2; VInt g.2.2]) sorted))).

(** *** [calculate_growth_rate] *)

(** [s.shift(periods)] *)
Definition shift (periods : Z) (s : list num) : list num :=
  map (λ i : nat,
         let j := Z.of_nat i - periods in
         if 0 <=? j then default NaN (s !! Z.to_nat j) else NaN)
      (seq 0 (length s)).

(** [s.ffill()] *)
Fixpoint ffill_from (last : num) (s : list num) : list num :=
  match s with
  | [] => []
  | x :: s' =>
      if isnan x then last :: ffill_from last s' else x :: ffill_from x s'
  end.

Definition ffill (s : list num) : list num := ffill_from NaN s.

Section PctChange.

(** Whether [pct_change] fills the missing values forward before it
    divides: it does by default up to pandas 2, and does not from pandas 3. *)
Variable pad : bool.

(** [s.pct_change(periods)]: [data / data.shift(periods) - 1] *)
Definition pct_change (periods : Z) (s : list num) : list num :=
  let data := if pad then ffill s else s in
  zip_with (λ x y, Num.sub (Num.div x y) one) data (shift periods data).

Definition growth_name (value_col : string) : string := value_col +:+ "_growth".

Definition calculate_growth_rate (df : loc) (value_col : string) (periods : Z) : M loc :=
  df_copy ← copy df;
  assign df_copy (growth_name value_col)
    (λ t, s ← getitem t value_col;
          Ok (map (λ g, VNum (Num.mul g hundred))
                  (pct_change periods (map to_num s))));;
  mret df_copy.

End PctChange.

(** *** [detect_seasonality] *)

Record seasonality := mk_seasonality {
  monthly_averages : list (cell * num);
  peak_month : cell;
  low_month : cell;
  coefficient_of_variation : num;
  has_strong_seasonality : bool
}.

(** [Series.mean()], skipping the missing values. *)
Definition mean (l : list num) : num :=
  let xs := filter (λ x, isnan x = false) l in
  Num.div (Num.sum xs) (of_Z (Z.of_nat (length xs))).

(** The entry [Series.idxmax()] picks: the first of the largest values;
    [better] is [Num.ltb] for the maximum, [Num.gtb] for the minimum. *)
Fixpoint idx_best {K} (better : num → num → bool) (best : K * num) (l : list (K * num)) : K :=
  match l with
  | [] => best.1
  | e :: l' => idx_best better (if better best.2 e.2 then e else best) l'
  end.

Definition idx_of {K} (better : num → num → bool) (l : list (K * num)) : result K :=
  match filter (λ e, isnan e.2 = false) l with
  | [] => Raise ValueError
  | e :: l' => Ok (idx_best better e l')
  end.

Section Numpy.

Variable sqrt : num → num.

(** [Series.std()]: the sample standard deviation of the values present. *)
Definition std (l : list num) : num :=
  let xs := filter (λ x, isnan x = false) l in
  let m := mean xs in
  let ss := Num.sum (map (λ x, Num.mul (Num.sub x m) (Num.sub x m)) xs) in
  sqrt (Num.div ss (of_Z (Z.of_nat (length xs) - 1))).

Definition detect_seasonality (df : loc) (value_col : string) : M seasonality :=
  (* Aggregate by month *)
  assign df "month" (λ t, s ← getitem t "date"; Series.dt Date.month s);;
  monthly_avg ← eval df (λ t, GroupBy.agg GroupBy.mean t "month" value_col);
  (* Calculate coefficient of variation *)
  let cv := Num.mul (Num.div (std (map snd monthly_avg)) (mean (map snd monthly_avg)))
                    hundred in
  peak ← lift (idx_of Num.ltb monthly_avg);
  low ← lift (idx_of Num.gtb monthly_avg);
  mret (mk_seasonality monthly_avg peak low cv (Num.gtb cv (of_Z 20))).

End Numpy.

(** *** [top_n_analysis] *)

(** [s.nlargest(n)]: the [n] first entries in descending order; among equal
    values the earlier entry comes first ([keep='first']). *)
Definition nlargest {K} (n : Z) (l : list (K * num)) : list (K * num) :=
  take (Z.to_nat n) (sort_desc l).

Definition total_name (value_col : string) : string := "total_" +:+ value_col.

Definition top_n_analysis (df : loc) (group_col value_col : string) (n : Z) : M loc :=
  derive df (λ t,
    sums ← GroupBy.agg GroupBy.sum t group_col value_col;
    Ok (frame_of [group_col; total_name value_col]
          (map (λ g, [g.1; VNum g.2]) (nlargest n sums)))).

(** *** [calculate_update_ratio] *)

(** The value a Series indexed by keys holds at [k]; missing when [k] is no
    key of it. *)
Definition at_key (s : list (cell * num)) (k : cell) : num :=
  match filter (λ e, e.1 = k) s with
  | e :: _ => e.2
  | [] => NaN
  end.

(** [pd.DataFrame({'enrolments': a, 'updates': b})]: the two Series aligned
    on the union of their keys. *)
Definition align (a b : list (cell * num)) : list (cell * (num * num)) :=
  map (λ k, (k, (at_key a k, at_key b k)))
      (Order.stable_sort Order.key_leb (remove_dups (map fst a ++ map fst b))).

(** The block under [# Combine and calculate ratio]: the two Series side by
    side with the missing entries filled with 0, the ratio rounded to two
    decimals, the rows sorted by the ratio in descending order. *)
Definition ratio_df (enrol_agg update_agg : list (cell * num))
  : list (cell * ((num * num) * num)) :=
  let ratio_df :=
    map (λ e, (e.1, (Num.fillna0 e.2.1, Num.fillna0 e.2.2)))
        (align enrol_agg update_agg) in
  let with_ratio :=
    map (λ e, (e.1, (e.2, Num.round2 (Num.mul (Num.div e.2.2 e.2.1) hundred))))
        ratio_df in
  Order.stable_sort (λ a b, Order.desc_leb a.2.2 b.2.2) with_ratio.

Definition calculate_update_ratio (enrolment_df update_df : loc) (geo_level : string) : M loc :=
  (* Aggregate enrolments *)
  enrol_agg ← eval enrolment_df
    (λ t, GroupBy.agg GroupBy.sum t geo_level "total_enrolments");
  (* Determine update column *)
  has_demo ← eval update_df (λ t, Ok (has_column t "total_demo_updates"));
  let update_col :=
    if has_demo : bool then "total_demo_updates" else "total_bio_updates" in
  (* Aggregate updates *)
  update_agg ← eval update_df
    (λ t, GroupBy.agg GroupBy.sum t geo_level update_col);
  (* Combine and calculate ratio *)
  alloc (frame_of [geo_level; "enrolments"; "updates"; "update_ratio"]
           (map (λ e, [e.1; VNum e.2.1.1; VNum e.2.1.2; VNum e.2.2])
                (ratio_df enrol_agg update_agg))).

(** *** [calculate_concentration_index] *)

(** [Series.sort_values()]: ascending, the missing values last. *)
Definition sort_values (s : list num) : list num :=
  Order.stable_sort Order.asc_leb s.

(** [np.arange(1, n+1)] *)
Definition ranks (n : nat) : list num :=
  map (λ i : nat, of_Z (Z.of_nat i)) (seq 1 n).

(** [a[-1]] *)
Definition last_item (a : list num) : result num :=
  match last a with
  | Some x => Ok x
  | None => Raise IndexError
  end.

(** [np.cumsum(a)] *)
Fixpoint cumsum_from (acc : num) (a : list num) : list num :=
  match a with
  | [] => []
  | x :: a' => Num.add acc x :: cumsum_from (Num.add acc x) a'
  end.

Definition cumsum (a : list num) : list num := cumsum_from zero a.

(** The expression of the source on the sorted array [values]:
    [(2 * sum(arange(1, n+1) * values)) / (n * cumsum[-1]) - (n + 1) / n] *)
Definition gini_of (values : list num) : result num :=
  let n := Z.of_nat (length values) in
  top ← Ok (Num.mul (of_Z 2)
              (Num.sum (zip_with Num.mul (ranks (length values)) values)));
  total ← last_item (cumsum values);
  Ok (Num.sub (Num.div top (Num.mul (of_Z n) total))
              (Num.div (of_Z (n + 1)) (of_Z n))).

Definition calculate_concentration_index (df : loc) (value_col : string) : M num :=
  eval df (λ t, s ← getitem t value_col;
                gini_of (sort_values (map to_num s))).

End Analyzer.

(** * Reasoning about calls *)

(** [wp m w Q]: the call [m], started in the state [w], ends with a result
    and in a state that satisfy [Q]. *)
Definition wp {A} (m : M A) (w : world) (Q : result A → world → Prop) : Prop :=
  Q (m w).1 (m w).2.

(** Between [w0] and [w] no object of [w0] and no entry of the report has
    changed. *)
Definition stable (w0 w : world) : Prop :=
  (∀ l, l ∈ dom (heap w0) → heap w !! l = heap w0 !! l)
  ∧ cleaning_report w = cleaning_report w0.

(** The object at [l] was made since [w0], and holds [t]. *)
Definition owns (w0 w : world) (l : loc) (t : DataFrame) : Prop :=
  stable w0 w ∧ (l ∉ dom (heap w0)) ∧ heap w !! l = Some t.


(** * Facts about frames *)

(** [df[c] = g(row)] and [df[p(row)]] as maps and filters of the rows. *)
Definition rowwise (c : string) (g : row → cell) (t : DataFrame) : DataFrame :=
  mk_df (if has_column t c then columns t else columns t ++ [c])
        (map (λ r, <[c := g r]> r) (rows t)).

Definition where_ (p : row → bool) (t : DataFrame) : DataFrame :=
  mk_df (columns t) (filter (λ r, p r = true) (rows t)).


(** * What cleaning establishes, row by row *)

Import Preprocessor.

(** The date of the row is a date. *)
Definition has_date (r : row) : Prop := ∃ d, r !! "date" = Some (VDate d).

(** The pincode of the row is a string of six characters. *)
Definition has_pincode6 (r : row) : Prop :=
  ∃ s, r !! "pincode" = Some (VStr s) ∧ String.length s = 6%nat.

(** A number that is present and not negative. *)
Definition nonneg (x : num) : Prop := isnan x = false ∧ Num.ltb x zero = false.

Definition has_count (c : string) (r : row) : Prop :=
  ∃ x, r !! c = Some (VNum x) ∧ nonneg x.

(** The total of the row is the sum of its count fields. *)
Definition has_total (cat : category) (r : row) : Prop :=
  r !! total_col cat
  = Some (VNum (Num.sum (map (λ c, to_num (at_ r c)) (count_cols cat)))).

(** How far the cleaning has come. *)
Record stage := mk_stage {
  pin_done : bool;
  counts_done : list string;
  total_done : bool
}.

Definition row_inv (cat : category) (st : stage) (cols : list string) (r : row) : Prop :=
  has_date r
  ∧ (pin_done st = true → "pincode" ∈ cols → has_pincode6 r)
  ∧ (∀ c, c ∈ counts_done st → c ∈ cols → has_count c r)
  ∧ (total_done st = true → (∀ c, c ∈ count_cols cat → c ∈ cols) → has_total cat r).

Definition frame_inv (cat : category) (st : stage) (t : DataFrame) : Prop :=
  Forall (row_inv cat st (columns t)) (rows t).

(** The names the cleaning writes besides the count and total columns. *)
Definition written : list string :=
  ["date"; "pincode"; "year"; "month"; "day_of_week"; "week_of_year"].

(** The count and total columns of a category are columns of their own. *)
Definition cat_wf (cat : category) : Prop :=
  NoDup (total_col cat :: count_cols cat)
  ∧ Forall (λ c, c ∉ total_col cat :: count_cols cat) written.

Definition st_dates : stage := mk_stage false [] false.
Definition st_counts (d : list string) : stage := mk_stage true d false.
Definition st_final (cat : category) : stage := mk_stage true (count_cols cat) true.

(** What a cleaned row satisfies. *)
Definition row_ok (cat : category) (cols : list string) (r : row) : Prop :=
  row_inv cat (st_final cat) cols r.

(** The dict a cleaning call stores under its category. *)
Definition report_entry (cat : category) (initial final invalid zero : Z)
  : gmap string Z :=
  <["initial_rows" := initial]>
  (<["final_rows" := final]>
   (<["rows_removed" := initial - final]>
    (<["invalid_dates" := invalid]>
     (<[zero_key cat := zero]> ∅)))).

(** The rows whose date does not read as a date of the format. *)
Definition invalid_date_rows (t : DataFrame) : Z :=
  Z.of_nat (length (filter (λ r, isnull (Series.to_datetime (at_ r "date")) = true)
                           (rows t))).

(** What a cleaning call of category [cat] on the object [df] leaves. *)
Definition clean_post (cat : category) (df : loc) (w0 : world)
  : result loc → world → Prop :=
  λ r w',
    (∀ l, l ∈ dom (heap w0) → heap w' !! l = heap w0 !! l)
    ∧ match r with
      | Ok l =>
          ∃ t t' zero,
            heap w0 !! df = Some t
            ∧ (l ∉ dom (heap w0))
            ∧ heap w' !! l = Some t'
            ∧ Forall (row_ok cat (columns t')) (rows t')
            ∧ cleaning_report w'
              = <[report_key cat :=
                    report_entry cat (len t) (len t') (invalid_date_rows t) zero]>
                  (cleaning_report w0)
      | Raise _ => cleaning_report w' = cleaning_report w0
      end.

Arguments for_ : simpl never.

(** The state after a step that ends well holds the frame at [l], made
    since [w0] and satisfying [I]; a step that raises has changed no object
    of [w0]. *)
Definition post_same (w0 : world) (l : loc) (I : DataFrame → Prop)
  : result () → world → Prop :=
  λ r w', match r with
          | Ok _ => ∃ t', owns w0 w' l t' ∧ I t'
          | Raise _ => stable w0 w'
          end.

Definition post_new (w0 : world) (I : DataFrame → Prop)
  : result loc → world → Prop :=
  λ r w', match r with
          | Ok l' => ∃ t', owns w0 w' l' t' ∧ I t'
          | Raise _ => stable w0 w'
          end.


(** The three cleaning methods, each with its category. *)
Definition cleaning_operations
    (float_repr : Qc → string) (numeric_of_string : string → num)
  : list (category * (loc → M loc)) :=
  [ (enrolment, clean_enrolment_data float_repr numeric_of_string);
    (demographic, clean_demographic_data float_repr numeric_of_string);
    (biometric, clean_biometric_data float_repr numeric_of_string) ].

(** The pincode of the row is a string of six digits. *)
Definition has_pincode_digits (r : row) : Prop :=
  ∃ s, r !! "pincode" = Some (VStr s)
       ∧ String.length s = 6%nat
       ∧ forallb Str.is_digit (Str.chars s) = true.

(** ** Two runs side by side *)

(** [wp2 m1 m2 w1 w2 Q]: the results and final states of the call [m1]
    started in [w1] and of the call [m2] started in [w2] satisfy [Q]. *)
Definition wp2 {A} (m1 m2 : M A) (w1 w2 : world)
    (Q : result A → world → result A → world → Prop) : Prop :=
  Q (m1 w1).1 (m1 w1).2 (m2 w2).1 (m2 w2).2.

(** The two runs are at the same point: the frame at [l1] in the first
    state is the frame at [l2] in the second, and neither run has written its
    report, [R1] and [R2]. *)
Definition paired (R1 R2 : gmap string (gmap string Z)) (l1 l2 : loc)
    (w1 w2 : world) : Prop :=
  (∃ t, heap w1 !! l1 = Some t ∧ heap w2 !! l2 = Some t)
  ∧ cleaning_report w1 = R1 ∧ cleaning_report w2 = R2.

(** Both runs went on, and are paired; or both raised the same exception. *)
Definition both {A} (P : A → world → A → world → Prop)
  : result A → world → result A → world → Prop :=
  λ r1 w1 r2 w2,
    match r1, r2 with
    | Ok a1, Ok a2 => P a1 w1 a2 w2
    | Raise e1, Raise e2 => e1 = e2
    | _, _ => False
    end.

(** The two runs return the same frame and have stored the same entry
    under [k]. *)
Definition same_outcome (k : string) (R1 R2 : gmap string (gmap string Z))
  : loc → world → loc → world → Prop :=
  λ l1 w1 l2 w2,
    ∃ t e, heap w1 !! l1 = Some t ∧ heap w2 !! l2 = Some t
           ∧ cleaning_report w1 = <[k := e]> R1
           ∧ cleaning_report w2 = <[k := e]> R2.

(** ** Examples *)

Module Example.

(** The text of a float whose value is an integer, and the number read in a
    run of decimal digits: enough of the two library functions to run the
    methods on the tables below.  No statement depends on them. *)
Definition integral_repr (q : Qc) : string := pretty (Qfloor q) +:+ ".0".

Definition number_of_digits (s : string) : num :=
  match Str.chars s with
  | [] => NaN
  | l => if forallb Str.is_digit l then of_Z (Str.digits_val l) else NaN
  end.

(** A session that holds one table, at reference 0, and an empty report. *)
Definition session (t : DataFrame) : world := mk_world {[ 0%nat := t ]} ∅.

Definition enrolment_columns : list string :=
  ["date"; "state"; "district"; "pincode"; "age_0_5"; "age_5_17"; "age_18_greater"].

(** One row with the pincode [1234], one row with the date [31-02-2024]. *)
Definition raw_table : DataFrame :=
  frame_of enrolment_columns
    [ [VStr "15-03-2024"; VStr "Delhi"; VStr "New Delhi"; VStr "1234";
       VInt 1; VInt 2; VInt 3];
      [VStr "31-02-2024"; VStr "Goa"; VStr "North Goa"; VStr "403001";
       VInt 4; VInt 0; VInt 2] ].

Definition cleaned_table : DataFrame :=
  frame_of (enrolment_columns
              ++ ["total_enrolments"; "year"; "month"; "day_of_week"; "week_of_year"])
    [ [VDate (Date.mk_date 2024 3 15); VStr "Delhi"; VStr "New Delhi"; VStr "001234";
       VNum (of_Z 1); VNum (of_Z 2); VNum (of_Z 3); VNum (of_Z 6);
       VInt 2024; VInt 3; VInt 4; VInt 11] ].

(** A pincode with letters in it, and a pincode that is missing. *)
Definition raw_pincodes : DataFrame :=
  frame_of enrolment_columns
    [ [VStr "15-03-2024"; VStr "Delhi"; VStr "New Delhi"; VStr "12A45B";
       VInt 1; VInt 2; VInt 3];
      [VStr "16-03-2024"; VStr "Goa"; VStr "North Goa"; VNum NaN;
       VInt 4; VInt 0; VInt 2] ].

Definition cleaned_pincodes : DataFrame :=
  frame_of (enrolment_columns
              ++ ["total_enrolments"; "year"; "month"; "day_of_week"; "week_of_year"])
    [ [VDate (Date.mk_date 2024 3 15); VStr "Delhi"; VStr "New Delhi"; VStr "12A45B";
       VNum (of_Z 1); VNum (of_Z 2); VNum (of_Z 3); VNum (of_Z 6);
       VInt 2024; VInt 3; VInt 4; VInt 11];
      [VDate (Date.mk_date 2024 3 16); VStr "Goa"; VStr "North Goa"; VStr "000nan";
       VNum (of_Z 4); VNum (of_Z 0); VNum (of_Z 2); VNum (of_Z 6);
       VInt 2024; VInt 3; VInt 5; VInt 11] ].

(** A table that has no pincode column. *)
Definition raw_no_pincode : DataFrame :=
  frame_of ["date"; "age_0_5"; "age_5_17"; "age_18_greater"]
    [ [VStr "15-03-2024"; VInt 1; VInt 2; VInt 3] ].

End Example.

(** ** The analyzer: what the specification says *)

Import Analyzer.

(** The percent change from [prev] to [cur], as the specification writes
    it: [(cur - prev) / prev * 100]. *)
Definition percent_change (prev cur : num) : num :=
  Num.mul (Num.div (Num.sub cur prev) prev) hundred.

(** The growth of row [i] of a column for a lag: missing on the first [lag]
    rows. *)
Definition growth_spec (vals : list num) (lag i : nat) : num :=
  if (i <? lag)%nat then NaN
  else match vals !! i, vals !! (i - lag)%nat with
       | Some cur, Some prev => percent_change prev cur
       | _, _ => NaN
       end.

Definition no_infinity (x : num) : Prop := x ≠ PInf ∧ x ≠ NInf.

(** The numbers of a column. *)
Definition column_values (t : DataFrame) (c : string) : list num :=
  map (λ r, to_num (at_ r c)) (rows t).

(** The table of the first of the specification's examples for the
    growth rate: the values 100, 150, 120. *)
Definition growth_table : DataFrame :=
  frame_of ["value"] [[VInt 100]; [VInt 150]; [VInt 120]].

(** A column of numbers: no string and no date in it. *)
Definition is_number (v : cell) : bool :=
  match v with
  | VInt _ | VNum _ => true
  | _ => false
  end.

Definition numeric_column (t : DataFrame) (c : string) : Prop :=
  Forall (λ r, is_number (at_ r c) = true) (rows t).

(** The values of a column are all present. *)
Definition all_present (vals : list num) : Prop :=
  Forall (λ x, isnan x = false) vals.

(** A list in the order of [leb]: every element is ranked before the ones
    that come after it. *)
Fixpoint sorted_by {A} (leb : A → A → bool) (l : list A) : Prop :=
  match l with
  | [] => True
  | x :: l' => Forall (λ y, leb x y = true) l' ∧ sorted_by leb l'
  end.

(** ** The Gini coefficient, as the specification writes it *)

(** [Σ i·v_i] over the ranks [i], [i + 1], ... *)
Fixpoint weighted_from (i : Z) (vs : list Qc) : Qc :=
  match vs with
  | [] => 0%Qc
  | v :: vs' => (Qc_of_Z i * v + weighted_from (i + 1) vs')%Qc
  end.

Definition total (vs : list Qc) : Qc := foldr Qcplus 0%Qc vs.

(** [(2 Σ i·v_i) / (n Σv) - (n + 1) / n], the ranks from 1. *)
Definition gini_formula (vs : list Qc) : Qc :=
  let n := Z.of_nat (length vs) in
  ((Qc_of_Z 2 * weighted_from 1 vs) / (Qc_of_Z n * total vs)
   - Qc_of_Z (n + 1) / Qc_of_Z n)%Qc.

Fixpoint ascending (vs : list Qc) : Prop :=
  match vs with
  | [] => True
  | v :: vs' => Forall (Qcle v) vs' ∧ ascending vs'
  end.

(** The tables of the specification's examples for the coefficient: ten
    groups of 100 each; one group of 1000 and nine of 0; and the two cases
    it calls undefined, all zero and empty. *)
Definition one_column (vals : list Z) : DataFrame :=
  frame_of ["value"] (map (λ v, [VInt v]) vals).

Definition uniform_table : DataFrame := one_column (replicate 10 100%Z).
Definition concentrated_table : DataFrame :=
  one_column (1000%Z :: replicate 9 0%Z).
Definition zero_table : DataFrame := one_column (replicate 3 0%Z).
Definition empty_table : DataFrame := one_column [].

(** The sums in a table that [geographical_aggregation] returned. *)
Definition sums_of (t : DataFrame) (value_col : string) : list num :=
  column_values t (sum_name value_col).

(** Four states, three of them with the sum 7. *)
Definition states_table : DataFrame :=
  frame_of ["state"; "count"]
    [ [VStr "Bihar"; VInt 7]; [VStr "Assam"; VInt 5]; [VStr "Delhi"; VInt 1];
      [VStr "Assam"; VInt 2]; [VStr "Goa"; VInt 7] ].

(** ** The update ratio, as the specification writes it *)

(** The update column [calculate_update_ratio] reads. *)
Definition update_column (t : DataFrame) : string :=
  if has_column t "total_demo_updates" then "total_demo_updates"
  else "total_bio_updates".

(** The value of the key [k] after the outer join with the missing side
    taken as 0: the sum of [k] in [s], and 0 when [k] is no key of [s]. *)
Definition joined (s : list (cell * num)) (k : cell) (v : num) : Prop :=
  (∀ x, (k, x) ∈ s → v = fillna0 x) ∧ (k ∉ map fst s → v = zero).

(** A ratio that is not a number of its own: [+inf], [-inf] or [NaN]. *)
Definition undefined (x : num) : Prop := isfinite x = false.

(** The tables of the specification's example: enrolments 100 and 0,
    updates 50 and 10. *)
Definition enrolment_sums_table : DataFrame :=
  frame_of ["state"; "total_enrolments"]
    [ [VStr "StateA"; VInt 100]; [VStr "StateB"; VInt 0] ].

Definition update_sums_table : DataFrame :=
  frame_of ["state"; "total_demo_updates"]
    [ [VStr "StateA"; VInt 50]; [VStr "StateB"; VInt 10] ].

Definition ratio_table : DataFrame :=
  frame_of ["state"; "enrolments"; "updates"; "update_ratio"]
    [ [VStr "StateB"; VNum (of_Z 0); VNum (of_Z 10); VNum PInf];
      [VStr "StateA"; VNum (of_Z 100); VNum (of_Z 50); VNum (of_Z 50)] ].

(** A session that holds two tables, at the references 0 and 1. *)
Definition session2 (t1 t2 : DataFrame) : world :=
  mk_world {[ 0%nat := t1; 1%nat := t2 ]} ∅.

(** ** The bivariate analysis on tables with missing values *)

(** The dictionary [bivariate_analysis] returns for the samples [x], [y]. *)
Definition analysis_of (pearson_stat spearman_stat : list num → list num → num * num)
    (x y : list num) : bivariate :=
  mk_bivariate (pearson_stat x y).1 (pearson_stat x y).2
               (spearman_stat x y).1 (spearman_stat x y).2
               (Num.ltb (pearson_stat x y).2 p_threshold).

(** One value of [a] is missing. *)
Definition unequal_table : DataFrame :=
  frame_of ["a"; "b"]
    [ [VNum NaN; VInt 1]; [VInt 1; VInt 2]; [VInt 2; VInt 3]; [VInt 3; VInt 4] ].

(** One value of [a] and one of [b] are missing, in different rows. *)
Definition shifted_table : DataFrame :=
  frame_of ["a"; "b"]
    [ [VNum NaN; VInt 1]; [VInt 1; VInt 2]; [VInt 2; VInt 3]; [VInt 3; VNum NaN] ].

(** In every row the two fields are both present or both missing. *)
Definition missing_together (s1 s2 : list cell) : Prop :=
  Forall (λ p, isnull p.1 = isnull p.2) (zip s1 s2).

(** ** Calls and the tables of the caller *)

(** A call that changes no object that exists when it starts, and not the
    cleaning report. *)
Definition leaves_tables {A} (m : M A) : Prop :=
  ∀ w0 w, stable w0 w → stable w0 (m w).2.

(** A table of daily values, as [temporal_aggregation] returns one: it has
    no column [month]. *)
Definition daily_table : DataFrame :=
  frame_of ["date"; "value"]
    [ [VDate (Date.mk_date 2024 1 15); VInt 10];
      [VDate (Date.mk_date 2024 2 15); VInt 30] ].

Definition daily_table_after : DataFrame :=
  frame_of ["date"; "value"; "month"]
    [ [VDate (Date.mk_date 2024 1 15); VInt 10; VInt 1];
      [VDate (Date.mk_date 2024 2 15); VInt 30; VInt 2] ].

(** ** More example tables *)

(** A raw table of demographic updates; the second row has no update. *)
Definition raw_demographic : DataFrame :=
  frame_of ["date"; "state"; "pincode"; "demo_age_5_17"; "demo_age_17_"]
    [ [VStr "01-04-2024"; VStr " kerala"; VInt 682001; VInt 3; VInt 4];
      [VStr "02-04-2024"; VStr "Kerala"; VInt 682002; VInt 0; VInt 0] ].

(** A table without the column [date]. *)
Definition undated_table : DataFrame :=
  frame_of ["state"; "age_0_5"; "age_5_17"; "age_18_greater"]
    [ [VStr "Goa"; VInt 1; VInt 2; VInt 3] ].

(** ** Aggregates, as a user reads them *)

(** The numbers of the column [val] in the rows whose key [by_] is present. *)
Definition keyed_values (t : DataFrame) (by_ val : string) : list num :=
  GroupBy.numbers
    (map (λ r, at_ r val) (filter (λ r, isnull (at_ r by_) = false) (rows t))).

(** The integers of a column. *)
Definition column_ints (t : DataFrame) (c : string) : list Z :=
  map (λ r, match at_ r c with VInt n => n | _ => 0 end) (rows t).

(** A value that is finite or missing. *)
Definition finite_or_missing (x : num) : Prop := isnan x = true ∨ isfinite x = true.

(** The aggregate of a list of cells, and of the groups of a list of keys,
    in a commutative monoid. *)
Definition msum {X} (add : X → X → X) (zero : X) (g : cell → X) (l : list cell) : X :=
  foldr (λ v acc, add (g v) acc) zero l.

Definition over_keys {X} (add : X → X → X) (zero : X) (G : cell → X) (K : list cell) : X :=
  foldr (λ k acc, add (G k) acc) zero K.

Definition sum_ints (l : list Z) : Z := foldr Z.add 0 l.

(** The value of a cell as a rational: 0 for what is no finite number. *)
Definition rational_of (v : cell) : Qc :=
  match to_num v with Fin q => q | _ => 0%Qc end.

(** 1 for a cell that holds a number, 0 for a missing one. *)
Definition present_one (v : cell) : nat :=
  if isnan (to_num v) then 0%nat else 1%nat.

(** The groups of [df.groupby(level)[value_col]] with their sum, mean and
    count, in key order. *)
Definition groups_of (t : DataFrame) (level value_col : string)
  : list (cell * (num * num * Z)) :=
  map (λ k, (k, (let vs := GroupBy.group_values (map (λ r, at_ r level) (rows t))
                             (map (λ r, at_ r value_col) (rows t)) k in
                 (GroupBy.sum vs, GroupBy.mean vs, GroupBy.count vs))))
      (GroupBy.group_keys (map (λ r, at_ r level) (rows t))).

(** The row of the aggregate for a group. *)
Definition aggregate_row (level value_col : string) (g : cell * (num * num * Z)) : row :=
  list_to_map (zip [level; sum_name value_col; mean_name value_col; "count"]
                   [g.1; VNum g.2.1.1; VNum g.2.1.2; VInt g.2.2]).

(** The values of [concentrated_table] doubled, the large one last. *)
Definition rescaled_table : DataFrame := one_column (replicate 9 0%Z ++ [2000%Z]).

(** A series that starts at 0 and then stays at 5. *)
Definition zero_start_table : DataFrame :=
  frame_of ["value"] [[VInt 0]; [VInt 5]; [VInt 5]].

(** ** The cleaning as a function of the table

    The steps of a cleaning method, each as a function from table to
    table, and their composition. *)

Definition parse_dates (t : DataFrame) : DataFrame :=
  rowwise "date" (λ r, Series.to_datetime (at_ r "date")) t.

Definition drop_undated (t : DataFrame) : DataFrame :=
  where_ (λ r, negb (isnull (at_ r "date"))) t.

Definition norm_string (col : string) (t : DataFrame) : DataFrame :=
  if has_column t col
  then rowwise col (λ r, Series.str_title (Series.str_strip (at_ r col))) t
  else t.

Definition check_pincode (float_repr : Qc → string) (t : DataFrame) : DataFrame :=
  if has_column t "pincode"
  then where_ (λ r, Series.eq_int 6 (Series.str_len (at_ r "pincode")))
         (rowwise "pincode"
            (λ r, Series.str_zfill 6 (Series.astype_str float_repr (at_ r "pincode"))) t)
  else t.

Definition norm_count (numeric_of_string : string → num) (col : string)
    (t : DataFrame) : DataFrame :=
  if has_column t col
  then rowwise col
         (λ r, Series.clip_lower0
                 (Series.fillna0 (Series.to_numeric numeric_of_string (at_ r col)))) t
  else t.

Definition add_total (cat : category) (t : DataFrame) : DataFrame :=
  if forallb (has_column t) (count_cols cat)
  then rowwise (total_col cat) (row_sum (count_cols cat)) t
  else t.

(** [row[c] > 0] *)
Definition positive (c : string) (r : row) : bool :=
  match Series.gt_zero (at_ r c) with Ok b => b | Raise _ => false end.

Definition drop_empty (cat : category) (t : DataFrame) : DataFrame :=
  where_ (positive (total_col cat)) t.

Definition dt_cell (f : Date.date → Z) (v : cell) : cell :=
  match v with VDate d => VInt (f d) | _ => VNum NaN end.

Definition add_feature (c : string) (f : Date.date → Z) (t : DataFrame) : DataFrame :=
  rowwise c (λ r, dt_cell f (at_ r "date")) t.

(** The table before the rows without a positive total are removed. *)
Definition with_total (float_repr : Qc → string) (numeric_of_string : string → num)
    (cat : category) (t : DataFrame) : DataFrame :=
  add_total cat
    (foldl (λ acc col, norm_count numeric_of_string col acc)
       (check_pincode float_repr
          (foldl (λ acc col, norm_string col acc)
             (drop_undated (parse_dates t)) ["state"; "district"]))
       (count_cols cat)).

Definition cleaned_table (float_repr : Qc → string) (numeric_of_string : string → num)
    (cat : category) (t : DataFrame) : DataFrame :=
  add_feature "week_of_year" Date.isoweek
    (add_feature "day_of_week" Date.dayofweek
       (add_feature "month" Date.month
          (add_feature "year" Date.year
             (drop_empty cat (with_total float_repr numeric_of_string cat t))))).

(** The rows whose total is equal to 0, before they are removed. *)
Definition zero_total_rows (float_repr : Qc → string)
    (numeric_of_string : string → num) (cat : category) (t : DataFrame) : Z :=
  Z.of_nat (length (filter (λ r, Series.eq_int 0 (at_ r (total_col cat)) = true)
                           (rows (with_total float_repr numeric_of_string cat t)))).


(** How a cleaning call on the table [t] ends: with the cleaned table and
    the entry of the report, or with one of three exceptions. *)
Definition outcome (float_repr : Qc → string) (numeric_of_string : string → num)
    (cat : category) (df : loc) (w0 : world) (t : DataFrame)
  : result loc → world → Prop :=
  λ r w',
    let T := with_total float_repr numeric_of_string cat t in
    match r with
    | Ok l =>
        "date" ∈ columns t
        ∧ total_col cat ∈ columns T
        ∧ (l ∉ dom (heap w0))
        ∧ heap w' !! l = Some (cleaned_table float_repr numeric_of_string cat t)
        ∧ cleaning_report w'
          = <[report_key cat :=
                report_entry cat (len t)
                  (len (cleaned_table float_repr numeric_of_string cat t))
                  (invalid_date_rows t)
                  (zero_total_rows float_repr numeric_of_string cat t)]>
              (cleaning_report w0)
    | Raise e =>
        cleaning_report w' = cleaning_report w0
        ∧ ((e = KeyError "date" ∧ "date" ∉ columns t)
           ∨ (e = KeyError (total_col cat) ∧ "date" ∈ columns t
              ∧ total_col cat ∉ columns T)
           ∨ (e = TypeError ∧ "date" ∈ columns t ∧ total_col cat ∈ columns T
              ∧ Series.gt_zero_all (map (λ r, at_ r (total_col cat)) (rows T))
                = Raise TypeError))
    end.

(** The table has a date column, and it holds dates (or [NaT]). *)
Definition dated (t : DataFrame) : Prop :=
  "date" ∈ columns t
  ∧ Forall (λ r, Series.is_datetime (at_ r "date") = true) (rows t).

(** The columns [state] and [district] of the table, where it has them,
    hold text in every row: the [.str] accessor applies to them. *)
Definition is_text (v : cell) : bool :=
  match v with VStr _ => true | _ => false end.

Definition text_columns (t : DataFrame) : Prop :=
  ∀ c, c ∈ ["state"; "district"] → has_column t c = true →
       forallb (λ r, is_text (at_ r c)) (rows t) = true.

(** The temporal features of a row, read from its date. *)
Definition with_features (r : row) : row :=
  <["week_of_year" := dt_cell Date.isoweek (at_ r "date")]>
    (<["day_of_week" := dt_cell Date.dayofweek (at_ r "date")]>
       (<["month" := dt_cell Date.month (at_ r "date")]>
          (<["year" := dt_cell Date.year (at_ r "date")]> r))).

(** The date of a cleaned row and the four features derived from it. *)
Definition has_features (r : row) : Prop :=
  ∃ d, r !! "date" = Some (VDate d)
       ∧ r !! "year" = Some (VInt (Date.year d))
       ∧ r !! "month" = Some (VInt (Date.month d))
       ∧ r !! "day_of_week" = Some (VInt (Date.dayofweek d))
       ∧ r !! "week_of_year" = Some (VInt (Date.isoweek d))
       ∧ 0 ≤ Date.dayofweek d ≤ 6
       ∧ 1 ≤ Date.isoweek d ≤ 53.

(** The columns a cleaning method of the category writes. *)
Definition touched (cat : category) : list string :=
  ["state"; "district"] ++ written ++ total_col cat :: count_cols cat.

(** A row [r'] of the cleaning and the raw row [r0] it comes from, when the
    string columns in [done] have been normalised: the columns that the
    cleaning does not write are as in the raw row, the string columns in
    [done] that the table has are stripped and title-cased, the others are
    still as in the raw row. *)
Definition cleaned_so_far (cat : category) (cols done : list string) (r0 r' : row) : Prop :=
  (∀ c, c ∉ touched cat → r' !! c = r0 !! c)
  ∧ (∀ c, c ∈ done → c ∈ cols →
        at_ r' c = Series.str_title (Series.str_strip (at_ r0 c)))
  ∧ (∀ c, c ∈ ["state"; "district"] → c ∉ done → r' !! c = r0 !! c).

(** The rows of [t'] come from rows of [t0], each from a row of its own and
    in the order of [t0]. *)
Definition traces (R : row → row → Prop) (t0 t' : DataFrame) : Prop :=
  ∃ kept, sublist kept (rows t0) ∧ Forall2 R kept (rows t').

(** The rows with a date whose pincode, as text padded to six characters,
    has not six characters; 0 for a table without the column. *)
Definition bad_pincode_rows (float_repr : Qc → string) (t : DataFrame) : Z :=
  if has_column t "pincode" then
    Z.of_nat
      (length
         (filter (λ r, isnull (Series.to_datetime (at_ r "date")) = false
                       ∧ Series.eq_int 6
                           (Series.str_len
                              (Series.str_zfill 6
                                 (Series.astype_str float_repr (at_ r "pincode"))))
                         = false)
                 (rows t)))
  else 0.

(** The count of the row under [c] is a number, present and not negative. *)
Definition counted (c : string) (r : row) : Prop := ∃ x, at_ r c = VNum x ∧ nonneg x.

(** ** [detect_outliers] ([src/preprocessing.py])

    The column is read as numbers, as [calculate_concentration_index]
    reads it; the statements below are about numeric columns. *)

(** [np.abs] *)
Definition fabs (x : num) : num :=
  match x with
  | Fin q => Fin (if bool_decide (q < 0)%Qc then (- q)%Qc else q)
  | NInf => PInf
  | _ => x
  end.

(** [Series.quantile(q)], for [0 ≤ q ≤ 1], with the default linear
    interpolation: on the values present, in ascending order, the index
    [(n - 1) q] lies between the places [i] and [j = i + 1], and the result
    is [values[i] + (values[j] - values[i]) * fraction]; a Series without a
    value gives the missing value. *)
Definition quantile (q : Qc) (s : list num) : num :=
  let values := sort_values (filter (λ x, isnan x = false) s) in
  match values with
  | [] => NaN
  | x0 :: _ =>
      let index := (Qc_of_Z (Z.of_nat (length values) - 1) * q)%Qc in
      let i := Z.to_nat (Qfloor index) in
      let j := (S i `min` (length values - 1))%nat in
      let fraction := (index - Qc_of_Z (Qfloor index))%Qc in
      Num.add (nth i values x0)
              (Num.mul (Num.sub (nth j values x0) (nth i values x0)) (Fin fraction))
  end.

Section Outliers.

Variable sqrt : num → num.

Definition detect_outliers (df : loc) (column method : string) (threshold : num)
  : M (list bool) :=
  if bool_decide (method = "iqr") then
    eval df (λ t,
      s ← getitem t column;
      let x := map to_num s in
      let Q1 := quantile (Q2Qc (1 # 4)) x in
      let Q3 := quantile (Q2Qc (3 # 4)) x in
      let IQR := Num.sub Q3 Q1 in
      let lower_bound := Num.sub Q1 (Num.mul threshold IQR) in
      let upper_bound := Num.add Q3 (Num.mul threshold IQR) in
      Ok (map (λ v, Num.ltb v lower_bound || Num.gtb v upper_bound) x))
  else if bool_decide (method = "zscore") then
    eval df (λ t,
      s ← getitem t column;
      let x := map to_num s in
      let z_scores :=
        map (λ v, fabs (Num.div (Num.sub v (mean x)) (std sqrt x))) x in
      Ok (map (λ z, Num.gtb z threshold) z_scores))
  else lift (Raise ValueError).

End Outliers.

(** The two methods. *)
Definition outlier_methods : list string := ["iqr"; "zscore"].

(** The flags of the two methods on the values [x] of a column. *)
Definition iqr_flags (threshold : num) (x : list num) : list bool :=
  let Q1 := quantile (Q2Qc (1 # 4)) x in
  let Q3 := quantile (Q2Qc (3 # 4)) x in
  map (λ v, Num.ltb v (Num.sub Q1 (Num.mul threshold (Num.sub Q3 Q1)))
            || Num.gtb v (Num.add Q3 (Num.mul threshold (Num.sub Q3 Q1)))) x.

Definition zscore_flags (sqrt : num → num) (threshold : num) (x : list num) : list bool :=
  map (λ v, Num.gtb (fabs (Num.div (Num.sub v (mean x)) (std sqrt x))) threshold) x.

(** A table with one numeric column: the values 1, 3, a missing one, 5. *)
Definition measures_table : DataFrame :=
  frame_of ["value"] [[VInt 1]; [VInt 3]; [VNum NaN]; [VInt 5]].

(** The same value in every row but one, where it is missing. *)
Definition level_table : DataFrame :=
  frame_of ["value"] [[VInt 7]; [VNum NaN]; [VInt 7]; [VInt 7]].

(** A square root that is exact where it is defined: on 0, 1, 4 and 9. *)
Definition small_sqrt (x : num) : num :=
  match x with
  | Fin q =>
      if bool_decide (q = Qc_of_Z 0) then Fin (Qc_of_Z 0)
      else if bool_decide (q = Qc_of_Z 1) then Fin (Qc_of_Z 1)
      else if bool_decide (q = Qc_of_Z 4) then Fin (Qc_of_Z 2)
      else if bool_decide (q = Qc_of_Z 9) then Fin (Qc_of_Z 3)
      else NaN
  | _ => NaN
  end.

(** The linear interpolation of [Series.quantile] on values that are
    finite and in ascending order. *)
Definition interpolate (values : list Qc) (q : Qc) : Qc :=
  let index := (Qc_of_Z (Z.of_nat (length values) - 1) * q)%Qc in
  let i := Z.to_nat (Qfloor index) in
  let j := (S i `min` (length values - 1))%nat in
  (nth i values 0 + (nth j values 0 - nth i values 0) * (index - Qc_of_Z (Qfloor index)))%Qc.

(** [Series.count()]: the number of values present. *)
Definition count_present (x : list num) : Z :=
  Z.of_nat (length (filter (λ v, isnan v = false) x)).

(** ** [univariate_analysis] ([src/analysis.py]) *)

Record univariate := mk_univariate {
  u_count : Z;
  u_mean : num;
  u_median : num;
  u_std : num;
  u_min : num;
  u_max : num;
  u_q25 : num;
  u_q75 : num;
  u_skewness : num;
  u_kurtosis : num
}.

#[global] Instance univariate_eq_dec : EqDecision univariate.
Proof. solve_decision. Defined.

(** [Series.median()]: of the values present, in ascending order, the
    middle one, or the mean of the two in the middle. *)
Definition median (s : list num) : num :=
  let values := sort_values (filter (λ x, isnan x = false) s) in
  let n := length values in
  match values with
  | [] => NaN
  | x0 :: _ =>
      if Nat.even n
      then Num.div (Num.add (nth (n / 2 - 1) values x0) (nth (n / 2) values x0)) (of_Z 2)
      else nth (n / 2) values x0
  end.

(** [Series.min()] and [Series.max()], skipping the missing values. *)
Definition extremum (better : num → num → bool) (s : list num) : num :=
  match filter (λ x, isnan x = false) s with
  | [] => NaN
  | a :: r => foldl (λ m v, if better v m then v else m) a r
  end.

Definition minimum : list num → num := extremum Num.ltb.
Definition maximum : list num → num := extremum Num.gtb.

Section Univariate.

Variable sqrt : num → num.

(** [Series.skew()] and [Series.kurtosis()]: the two statistics are the
    library's. *)
Variable skew_stat kurt_stat : list num → num.

Definition univariate_analysis (df : loc) (column : string) : M univariate :=
  eval df (λ t,
    s ← getitem t column;
    let x := map to_num s in
    Ok (mk_univariate (count_present x) (mean x) (median x) (std sqrt x)
          (minimum x) (maximum x)
          (quantile (Q2Qc (1 # 4)) x) (quantile (Q2Qc (3 # 4)) x)
          (skew_stat x) (kurt_stat x))).

End Univariate.

(** A column without a value: every row is missing. *)
Definition blank_table : DataFrame :=
  frame_of ["value"] [[VNum NaN]; [VNum NaN]].
Lemma stable_refl w : stable w w.
Proof. by split. Qed.

Lemma stable_dom w0 w l : stable w0 w → l ∈ dom (heap w0) → l ∈ dom (heap w).
Proof.
  intros [Hs _] Hl. apply elem_of_dom. rewrite (Hs l Hl). by apply elem_of_dom.
Qed.

Lemma stable_insert_new w0 w l t :
  stable w0 w → l ∉ dom (heap w0) → stable w0 (set_heap (insert l t) w).
Proof.
  intros [Hs Hr] Hl. split; [|done].
  intros l' Hl'. simpl. rewrite lookup_insert_ne; [by apply Hs|].
  intros ->. done.
Qed.

Lemma fresh_not_old w0 w : stable w0 w → fresh (dom (heap w)) ∉ dom (heap w0).
Proof.
  intros Hs Hin. apply (is_fresh (dom (heap w))). by eapply stable_dom.
Qed.

Lemma owns_lookup w0 w l t : owns w0 w l t → heap w !! l = Some t.
Proof. by intros (_ & _ & ?). Qed.

Lemma owns_stable w0 w l t : owns w0 w l t → stable w0 w.
Proof. by intros (? & _ & _). Qed.

Lemma wp_ret {A} (a : A) w Q : Q (Ok a) w → wp (mret a) w Q.
Proof. done. Qed.

Lemma wp_lift {A} (r : result A) w Q : Q r w → wp (lift r) w Q.
Proof. done. Qed.

Lemma wp_bind {A B} (m : M A) (k : A → M B) w Q :
  wp m w (λ r w', match r with
                  | Ok a => wp (k a) w' Q
                  | Raise e => Q (Raise e) w'
                  end) →
  wp (m ≫= k) w Q.
Proof.
  unfold wp, mbind, M_bind. destruct (m w) as [[a|e] w']; simpl; [|done].
  by destruct (k a w').
Qed.

Lemma wp_mono {A} (m : M A) w (Q Q' : result A → world → Prop) :
  (∀ r w', Q r w' → Q' r w') → wp m w Q → wp m w Q'.
Proof. unfold wp. auto. Qed.

Lemma wp_deref w l t Q :
  heap w !! l = Some t → Q (Ok t) w → wp (deref l) w Q.
Proof. unfold wp, deref. by intros ->. Qed.

Lemma wp_eval {A} (f : DataFrame → result A) w l t Q :
  heap w !! l = Some t → Q (f t) w → wp (eval l f) w Q.
Proof.
  intros Hl HQ. apply wp_bind, (wp_deref _ _ t); [done|]. by apply wp_lift.
Qed.

Lemma wp_alloc w0 w t Q :
  stable w0 w →
  (∀ l w', owns w0 w' l t → Q (Ok l) w') →
  wp (alloc t) w Q.
Proof.
  intros Hs HQ. unfold wp, alloc. simpl. apply HQ.
  split_and!; [|by apply fresh_not_old|simpl; by rewrite lookup_insert_eq].
  apply stable_insert_new; [done|by apply fresh_not_old].
Qed.

Lemma wp_copy w0 w df t Q :
  stable w0 w → heap w !! df = Some t →
  (∀ l w', owns w0 w' l t → Q (Ok l) w') →
  wp (copy df) w Q.
Proof.
  intros Hs Hl HQ. apply wp_bind, (wp_deref _ _ t); [done|].
  by apply (wp_alloc w0).
Qed.

Lemma wp_derive w0 w l t f Q :
  owns w0 w l t →
  match f t with
  | Ok t' => ∀ l' w', owns w0 w' l' t' → Q (Ok l') w'
  | Raise e => Q (Raise e) w
  end →
  wp (derive l f) w Q.
Proof.
  intros Ho HQ. apply wp_bind, (wp_deref _ _ t); [by eapply owns_lookup|].
  apply wp_bind, wp_lift. destruct (f t) as [t'|e]; [|done].
  apply (wp_alloc w0); [by eapply owns_stable|done].
Qed.

Lemma wp_assign w0 w l t c rhs Q :
  owns w0 w l t →
  match (rhs t ≫= setitem t c) with
  | Ok t' => ∀ w', owns w0 w' l t' → Q (Ok ()) w'
  | Raise e => Q (Raise e) w
  end →
  wp (assign l c rhs) w Q.
Proof.
  intros (Hs & Hn & Hl) HQ. apply wp_bind, (wp_deref _ _ t); [done|].
  apply wp_bind, wp_lift. destruct (rhs t) as [s|e]; [|done]. simpl in HQ.
  apply wp_bind, wp_lift. destruct (setitem t c s) as [t'|e]; [|done].
  unfold wp, store. simpl. apply HQ.
  split_and!; [by apply stable_insert_new|done|simpl; by rewrite lookup_insert_eq].
Qed.
Lemma zip_with_map_r {A B C} (f : A → B → C) (g : A → B) (l : list A) :
  zip_with f l (map g l) = map (λ a, f a (g a)) l.
Proof. induction l; simpl; congruence. Qed.

Lemma select_map (p : row → bool) (rs : list row) :
  select rs (map p rs) = filter (λ r, p r = true) rs.
Proof.
  induction rs as [|r rs IH]; [done|]. simpl. rewrite filter_cons, IH.
  destruct (p r); by case_decide.
Qed.

Lemma setitem_rowwise t c g :
  setitem t c (map g (rows t)) = Ok (rowwise c g t).
Proof.
  unfold setitem, rowwise. rewrite length_map, bool_decide_eq_true_2 by done.
  by rewrite zip_with_map_r.
Qed.

Lemma boolean_index_where t p :
  boolean_index t (map p (rows t)) = where_ p t.
Proof. unfold boolean_index, where_. by rewrite select_map. Qed.

Lemma getitem_Ok t c s :
  getitem t c = Ok s → c ∈ columns t ∧ s = map (λ r, at_ r c) (rows t).
Proof.
  unfold getitem, has_column. case_bool_decide; [|done]. by intros [= <-].
Qed.

(** An assignment whose right-hand side is computed cell by cell from one
    column. *)
Lemma assign_elementwise t c c0 (F : list cell → list cell) (f : cell → cell) t' :
  (∀ s, F s = map f s) →
  ((s ← getitem t c0; Ok (F s)) ≫= setitem t c) = Ok t' →
  c0 ∈ columns t ∧ t' = rowwise c (λ r, f (at_ r c0)) t.
Proof.
  intros HF. destruct (getitem t c0) as [s|e] eqn:Hg; [|done].
  apply getitem_Ok in Hg as [Hc ->]. simpl.
  rewrite HF, map_map, setitem_rowwise. by intros [= <-].
Qed.

Lemma dt_Ok f s s' :
  Series.dt f s = Ok s' →
  s' = map (λ v, match v with VDate d => VInt (f d) | _ => VNum NaN end) s.
Proof. unfold Series.dt. destruct (forallb _ s); [|done]. by intros [= <-]. Qed.

Lemma assign_dt t c c0 f t' :
  ((s ← getitem t c0; Series.dt f s) ≫= setitem t c) = Ok t' →
  t' = rowwise c (λ r, match at_ r c0 with VDate d => VInt (f d) | _ => VNum NaN end) t.
Proof.
  destruct (getitem t c0) as [s|e] eqn:Hg; [|done].
  apply getitem_Ok in Hg as [Hc ->]. simpl.
  destruct (Series.dt _ _) as [s'|] eqn:Hd; [|done].
  apply dt_Ok in Hd as ->. simpl.
  rewrite map_map, setitem_rowwise. by intros [= <-].
Qed.

Lemma derive_elementwise t c0 (F : list cell → list bool) (p : cell → bool) t' :
  (∀ s, F s = map p s) →
  (s ← getitem t c0; Ok (boolean_index t (F s))) = Ok t' →
  c0 ∈ columns t ∧ t' = where_ (λ r, p (at_ r c0)) t.
Proof.
  intros HF. destruct (getitem t c0) as [s|e] eqn:Hg; [|done].
  apply getitem_Ok in Hg as [Hc ->]. simpl.
  rewrite HF, map_map, boolean_index_where. by intros [= <-].
Qed.

Lemma elem_of_columns_rowwise k c g t :
  k ∈ columns (rowwise c g t) ↔ k ∈ columns t ∨ k = c.
Proof.
  unfold rowwise, has_column. simpl. case_bool_decide.
  - split; [auto|]. by intros [?| ->].
  - rewrite elem_of_app, list_elem_of_singleton. done.
Qed.

Lemma lookup_rowwise_ne k c g t (P : option cell → Prop) :
  k ≠ c →
  Forall (λ r, P (r !! k)) (rows t) →
  Forall (λ r, P (r !! k)) (rows (rowwise c g t)).
Proof.
  intros Hne HP. simpl. apply Forall_map. eapply Forall_impl; [done|].
  intros r Hr. simpl. by rewrite lookup_insert_ne.
Qed.

Lemma lookup_rowwise_eq c g t :
  Forall (λ r', ∃ r, r' !! c = Some (g r)) (rows (rowwise c g t)).
Proof.
  simpl. apply Forall_map, Forall_true. intros r. exists r. simpl.
  by rewrite lookup_insert_eq.
Qed.

Lemma Forall_where (P : row → Prop) p t :
  Forall P (rows t) → Forall P (rows (where_ p t)).
Proof.
  rewrite !Forall_forall. intros HP r Hr. apply HP.
  by apply list_elem_of_filter in Hr as [_ ?].
Qed.

Lemma Forall_where_true p t : Forall (λ r, p r = true) (rows (where_ p t)).
Proof. simpl. apply Forall_forall. intros r Hr. by apply list_elem_of_filter in Hr as [? _]. Qed.

Lemma dropna_where t c t' :
  dropna t c = Ok t' → t' = where_ (λ r, negb (isnull (at_ r c))) t.
Proof.
  unfold dropna. destruct (getitem t c) as [s|e] eqn:Hg; [|done].
  apply getitem_Ok in Hg as [_ ->]. rewrite map_map, boolean_index_where.
  by intros [= <-].
Qed.

Lemma wp_bind_post {A B} (m : M A) (k : A → M B) w (R : result A → world → Prop) Q :
  wp m w R →
  (∀ a w', R (Ok a) w' → wp (k a) w' Q) →
  (∀ e w', R (Raise e) w' → Q (Raise e) w') →
  wp (m ≫= k) w Q.
Proof.
  intros Hm Hk He. apply wp_bind. revert Hm. apply wp_mono.
  intros [a|e] w'; auto.
Qed.

Lemma wp_set_report k v w Q :
  Q (Ok ()) (mk_world (heap w) (<[k := v]> (cleaning_report w))) →
  wp (set_report k v) w Q.
Proof. done. Qed.

Lemma at_insert_ne (r : row) c c' v : c ≠ c' → at_ (<[c := v]> r) c' = at_ r c'.
Proof. intros. unfold at_. by rewrite lookup_insert_ne. Qed.

Lemma at_insert_eq (r : row) c v : at_ (<[c := v]> r) c = v.
Proof. unfold at_. by rewrite lookup_insert_eq. Qed.

(** Writing a column that the invariant does not speak of keeps it. *)
Lemma row_inv_insert cat st cols cols' (r : row) c v :
  c ≠ "date" →
  (pin_done st = true → c ≠ "pincode") →
  c ∉ counts_done st →
  (total_done st = true → c ∉ total_col cat :: count_cols cat) →
  (∀ k, k ≠ c → k ∈ cols' → k ∈ cols) →
  row_inv cat st cols r → row_inv cat st cols' (<[c := v]> r).
Proof.
  intros Hd Hp Hc Ht Hcols (Hdate & Hpin & Hcnt & Htot). split_and!.
  - destruct Hdate as [d Hdt]. exists d. by rewrite lookup_insert_ne.
  - intros Hs Hin. specialize (Hp Hs).
    destruct Hpin as (s & Hl & Hlen); [done|by apply Hcols|].
    exists s. by rewrite lookup_insert_ne.
  - intros k Hk Hin. assert (k ≠ c) by (intros ->; done).
    destruct (Hcnt k) as (x & Hl & Hx); [done|by apply Hcols|].
    exists x. by rewrite lookup_insert_ne.
  - intros Hs Hall. specialize (Ht Hs).
    assert (c ≠ total_col cat) as Hne by (intros ->; apply Ht; left).
    unfold has_total. rewrite lookup_insert_ne by done.
    rewrite Htot; [|done|].
    + do 3 f_equal. apply map_ext_in. intros k Hk%list_elem_of_In.
      rewrite at_insert_ne; [done|]. intros ->. apply Ht. by right.
    + intros k Hk. apply Hcols; [|by apply Hall].
      intros ->. apply Ht. by right.
Qed.

Lemma frame_inv_rowwise cat st t c g :
  c ≠ "date" →
  (pin_done st = true → c ≠ "pincode") →
  c ∉ counts_done st →
  (total_done st = true → c ∉ total_col cat :: count_cols cat) →
  frame_inv cat st t → frame_inv cat st (rowwise c g t).
Proof.
  intros Hd Hp Hc Ht Hinv. unfold frame_inv. simpl. apply Forall_map.
  eapply Forall_impl; [exact Hinv|]. intros r Hr. simpl.
  apply (row_inv_insert cat st (columns t)); [done..| |done].
  intros k Hk Hin.
  apply (elem_of_columns_rowwise k c g t) in Hin as [?|?]; done.
Qed.

Lemma Forall_select (P : row → Prop) rs mask :
  Forall P rs → Forall P (select rs mask).
Proof.
  intros HP. revert mask. induction HP as [|r rs Hr _ IH]; intros [|[] mask]; simpl; auto.
Qed.

Lemma frame_inv_boolean_index cat st t mask :
  frame_inv cat st t → frame_inv cat st (boolean_index t mask).
Proof. apply Forall_select. Qed.

Lemma frame_inv_where cat st t p :
  frame_inv cat st t → frame_inv cat st (where_ p t).
Proof. apply Forall_where. Qed.
Lemma wp_assign_inv w0 w l t c rhs (I : DataFrame → Prop) :
  owns w0 w l t →
  (∀ t', (rhs t ≫= setitem t c) = Ok t' → I t') →
  wp (assign l c rhs) w (post_same w0 l I).
Proof.
  intros Ho HI. apply (wp_assign w0 _ _ t); [done|].
  destruct (rhs t ≫= setitem t c) as [t'|e]; simpl.
  - intros w' Ho'. exists t'. auto.
  - by eapply owns_stable.
Qed.

Lemma wp_derive_inv w0 w l t f (I : DataFrame → Prop) :
  owns w0 w l t →
  (∀ t', f t = Ok t' → I t') →
  wp (derive l f) w (post_new w0 I).
Proof.
  intros Ho HI. apply (wp_derive w0 _ _ t); [done|].
  destruct (f t) as [t'|e]; simpl.
  - intros l' w' Ho'. exists t'. auto.
  - by eapply owns_stable.
Qed.

Lemma wp_for_prefix {A} w0 l (body : A → M ()) (I : list A → DataFrame → Prop) all xs :
  ∀ done w t,
    all = done ++ xs →
    (∀ d x rest w t, all = d ++ x :: rest → owns w0 w l t → I d t →
       wp (body x) w (post_same w0 l (I (d ++ [x])))) →
    owns w0 w l t → I done t →
    wp (for_ xs body) w (post_same w0 l (I all)).
Proof.
  induction xs as [|x xs IH]; intros done w t -> Hbody Ho HI.
  - apply wp_ret. rewrite app_nil_r. exists t. auto.
  - change (for_ (x :: xs) body) with (body x ≫= λ _, for_ xs body).
    eapply wp_bind_post.
    + by eapply (Hbody done x xs).
    + intros _ w' (t' & Ho' & HI'). simpl.
      eapply (IH (done ++ [x])); eauto. by rewrite <- app_assoc.
    + intros e w' Hs. exact Hs.
Qed.

Section Clean.

Variable float_repr : Qc → string.
Variable numeric_of_string : string → num.
Variable cat : category.
Hypothesis Hwf : cat_wf cat.

Lemma string_col_block w0 w l t col :
  col ≠ "date" →
  owns w0 w l t → frame_inv cat st_dates t →
  wp (present ← eval l (λ t, Ok (has_column t col));
      if present : bool then
        assign l col
          (λ t, s ← getitem t col;
                Ok (map Series.str_title (map Series.str_strip s)))
      else mret ()) w (post_same w0 l (frame_inv cat st_dates)).
Proof.
  intros Hne Ho HI. apply wp_bind, (wp_eval _ _ _ t); [by eapply owns_lookup|].
  simpl. destruct (has_column t col).
  - apply (wp_assign_inv w0 _ _ t); [done|]. intros t' Ht'.
    eapply assign_elementwise in Ht' as [_ ->]; [|intros; apply map_map].
    apply frame_inv_rowwise; simpl; [done|done|apply not_elem_of_nil|done|done].
  - apply wp_ret. exists t. auto.
Qed.

Lemma pincode_checked (r : row) s :
  r !! "pincode" = Some (VStr s) →
  Series.eq_int 6 (Series.str_len (at_ r "pincode")) = true →
  has_pincode6 r.
Proof.
  intros Hl. unfold at_. rewrite Hl. simpl. intros Hlen%bool_decide_eq_true.
  exists s. split; [done|]. unfold Str.len in Hlen. lia.
Qed.

Lemma row_inv_pincode cols (r : row) :
  row_inv cat st_dates cols r →
  ("pincode" ∈ cols → has_pincode6 r) →
  row_inv cat (st_counts []) cols r.
Proof.
  intros (Hd & _ & _ & _) Hp. split_and!; simpl; [done|auto| |done].
  intros c Hc. by apply elem_of_nil in Hc.
Qed.

Lemma pincode_block w0 w l t :
  owns w0 w l t → frame_inv cat st_dates t →
  wp (if has_column t "pincode" then
        assign l "pincode"
          (λ t, s ← getitem t "pincode";
                Ok (map (Series.str_zfill 6) (map (Series.astype_str float_repr) s)));;
        derive l
          (λ t, s ← getitem t "pincode";
                Ok (boolean_index t (map (Series.eq_int 6) (map Series.str_len s))))
      else mret l) w (post_new w0 (frame_inv cat (st_counts []))).
Proof.
  intros Ho HI. destruct (has_column t "pincode") eqn:Hp.
  - eapply wp_bind_post.
    + apply (wp_assign_inv w0 _ _ t _ _
               (λ t', frame_inv cat st_dates t'
                      ∧ Forall (λ r, ∃ s, r !! "pincode" = Some (VStr s)) (rows t')));
        [done|].
      intros t' Ht'.
      eapply assign_elementwise in Ht' as [_ ->]; [|intros; apply map_map].
      split; [apply frame_inv_rowwise; simpl; [done|done|apply not_elem_of_nil|done|done]|].
      simpl. apply Forall_map, Forall_true. intros r. simpl.
      rewrite lookup_insert_eq. unfold Series.astype_str, Series.str_zfill. simpl. eauto.
    + intros _ w' (t' & Ho' & HI' & Hs). simpl.
      apply (wp_derive_inv w0 _ _ t'); [done|]. intros t'' Ht''.
      eapply derive_elementwise in Ht'' as [_ ->]; [|intros; apply map_map].
      unfold frame_inv. simpl. apply Forall_forall. intros r Hr.
      apply list_elem_of_filter in Hr as [Hlen Hr].
      apply row_inv_pincode.
      * by apply (proj1 (Forall_forall _ _) HI').
      * intros _. destruct (proj1 (Forall_forall _ _) Hs r Hr) as [s Hl].
        by eapply pincode_checked.
    + intros e w' Hs. exact Hs.
  - apply wp_ret. exists t. split; [done|].
    eapply Forall_impl; [exact HI|]. intros r Hr. apply row_inv_pincode; [done|].
    intros Hin. unfold has_column in Hp. by apply bool_decide_eq_false in Hp.
Qed.

Lemma nonneg_clip x : nonneg (Num.clip_lower0 (to_num (Series.fillna0 (VNum x)))).
Proof.
  unfold Series.fillna0, Num.clip_lower0, nonneg.
  destruct x as [q| | |]; simpl; try done.
  destruct (bool_decide (q < Qc_of_Z 0)%Qc) eqn:E; simpl; [done|by rewrite E].
Qed.

Lemma to_numeric_num v : ∃ x, Series.to_numeric numeric_of_string v = VNum x.
Proof. unfold Series.to_numeric. eauto. Qed.

Lemma row_inv_count d cols (r : row) c y :
  c ∉ d → c ≠ "date" → c ≠ "pincode" → nonneg y →
  row_inv cat (st_counts d) cols r →
  row_inv cat (st_counts (d ++ [c])) cols (<[c := VNum y]> r).
Proof.
  intros Hnd Hdate Hpin Hy (Hd & Hp & Hc & _). split_and!; simpl; [| | |done].
  - destruct Hd as [dt Hdt]. exists dt. by rewrite lookup_insert_ne.
  - intros _ Hin. destruct Hp as (s & Hl & Hlen); [done..|].
    exists s. by rewrite lookup_insert_ne.
  - intros k [Hk|Hk%list_elem_of_singleton]%elem_of_app Hin.
    + destruct (Hc k) as (x & Hl & Hx); [done..|].
      exists x. rewrite lookup_insert_ne; [done|]. by intros ->.
    + subst k. exists y. by rewrite lookup_insert_eq.
Qed.

Lemma row_inv_count_absent d cols (r : row) c :
  c ∉ cols →
  row_inv cat (st_counts d) cols r → row_inv cat (st_counts (d ++ [c])) cols r.
Proof.
  intros Hn (Hd & Hp & Hc & _). split_and!; simpl; [done|done| |done].
  intros k [Hk|Hk%list_elem_of_singleton]%elem_of_app Hin; [by apply Hc|].
  by subst k.
Qed.

Lemma count_col_block w0 w l t d col :
  col ∉ d → col ≠ "date" → col ≠ "pincode" →
  owns w0 w l t → frame_inv cat (st_counts d) t →
  wp (present ← eval l (λ t, Ok (has_column t col));
      if present : bool then
        assign l col
          (λ t, s ← getitem t col;
                Ok (map (Series.to_numeric numeric_of_string) s));;
        assign l col
          (λ t, s ← getitem t col;
                Ok (map Series.clip_lower0 (map Series.fillna0 s)))
      else mret ()) w (post_same w0 l (frame_inv cat (st_counts (d ++ [col])))).
Proof.
  intros Hnd Hdate Hpin Ho HI.
  apply wp_bind, (wp_eval _ _ _ t); [by eapply owns_lookup|].
  simpl. destruct (has_column t col) eqn:Hp.
  - eapply wp_bind_post.
    + apply (wp_assign_inv w0 _ _ t _ _
               (λ t', t' = rowwise col
                  (λ r, Series.to_numeric numeric_of_string (at_ r col)) t));
        [done|].
      intros t' Ht'.
      by eapply assign_elementwise in Ht' as [_ ->].
    + intros _ w' (t' & Ho' & ->). simpl.
      apply (wp_assign_inv w0 _ _ _ _ _ _ Ho'). intros t'' Ht''.
      eapply assign_elementwise in Ht'' as [_ ->]; [|intros; apply map_map].
      unfold frame_inv. simpl. rewrite Hp. simpl.
      match goal with |- context [has_column ?a ?b] =>
        assert (has_column a b = true) as ->
          by (apply bool_decide_eq_true, elem_of_columns_rowwise; by right)
      end.
      rewrite map_map. apply Forall_map.
      eapply Forall_impl; [exact HI|]. intros r Hr. simpl.
      rewrite at_insert_eq, insert_insert_eq.
      destruct (to_numeric_num (at_ r col)) as [x ->].
      apply row_inv_count; auto using nonneg_clip.
    + intros e w' Hs. exact Hs.
  - apply wp_ret. exists t. split; [done|].
    eapply Forall_impl; [exact HI|]. intros r Hr.
    apply row_inv_count_absent; [|done].
    intros Hin. unfold has_column in Hp. by apply bool_decide_eq_false in Hp.
Qed.

Lemma nansum_present (l : list num) :
  Forall (λ x, isnan x = false) l → nansum l = Num.sum l.
Proof.
  intros Hl. unfold nansum. f_equal. induction Hl as [|x l Hx _ IH]; [done|].
  rewrite filter_cons_True by done. by rewrite IH.
Qed.

Lemma wf_written c : c ∈ written → c ∉ total_col cat :: count_cols cat.
Proof. destruct Hwf as [_ Hw]. apply (proj1 (Forall_forall _ _) Hw). Qed.

Lemma wf_total : total_col cat ∉ count_cols cat.
Proof. destruct Hwf as [Hn _]. by apply NoDup_cons in Hn as [? _]. Qed.

Lemma wf_counts : NoDup (count_cols cat).
Proof. destruct Hwf as [Hn _]. by apply NoDup_cons in Hn as [_ ?]. Qed.

Lemma row_inv_total cols cols' (r : row) :
  (∀ c, c ∈ count_cols cat → c ∈ cols) →
  (∀ k, k ≠ total_col cat → k ∈ cols' → k ∈ cols) →
  row_inv cat (st_counts (count_cols cat)) cols r →
  row_inv cat (st_final cat) cols' (<[total_col cat := row_sum (count_cols cat) r]> r).
Proof.
  intros Hall Hcols (Hd & Hp & Hc & _).
  assert (total_col cat ≠ "date") as Hnd.
  { intros E. apply (wf_written "date"); [set_solver|]. rewrite <- E. by left. }
  assert (total_col cat ≠ "pincode") as Hnp.
  { intros E. apply (wf_written "pincode"); [set_solver|]. rewrite <- E. by left. }
  split_and!; simpl.
  - destruct Hd as [dt Hdt]. exists dt. by rewrite lookup_insert_ne.
  - intros _ Hin. destruct Hp as (s & Hl & Hlen); [done|by apply Hcols|].
    exists s. by rewrite lookup_insert_ne.
  - intros k Hk Hin.
    assert (k ≠ total_col cat) by (intros ->; by apply wf_total).
    destruct (Hc k) as (x & Hl & Hx); [done|by apply Hcols|].
    exists x. by rewrite lookup_insert_ne.
  - intros _ _. unfold has_total, row_sum. rewrite lookup_insert_eq.
    do 2 f_equal. rewrite nansum_present.
    + f_equal. apply map_ext_in. intros k Hk%list_elem_of_In.
      rewrite at_insert_ne; [done|]. intros <-. by apply wf_total.
    + apply Forall_map, Forall_forall. intros k Hk. simpl.
      destruct (Hc k) as (x & Hl & Hx & _); [done|by apply Hall|].
      unfold at_. by rewrite Hl.
Qed.

Lemma row_inv_no_total cols (r : row) :
  ¬ (∀ c, c ∈ count_cols cat → c ∈ cols) →
  row_inv cat (st_counts (count_cols cat)) cols r → row_inv cat (st_final cat) cols r.
Proof. intros Hn (Hd & Hp & Hc & _). split_and!; simpl; try done. Qed.

Lemma total_block w0 w l t :
  owns w0 w l t → frame_inv cat (st_counts (count_cols cat)) t →
  wp (if forallb (has_column t) (count_cols cat) then
        assign l (total_col cat)
          (λ t, Ok (map (row_sum (count_cols cat)) (rows t)))
      else mret ()) w (post_same w0 l (frame_inv cat (st_final cat))).
Proof.
  intros Ho HI. destruct (forallb _ _) eqn:Hall.
  - apply (wp_assign_inv w0 _ _ t); [done|]. intros t' Ht'. simpl in Ht'.
    rewrite setitem_rowwise in Ht'. injection Ht' as <-.
    unfold frame_inv. simpl. apply Forall_map.
    eapply Forall_impl; [exact HI|]. intros r Hr. simpl.
    apply (row_inv_total (columns t)); [| |done].
    + intros c Hc. rewrite forallb_forall in Hall.
      apply list_elem_of_In, Hall in Hc. by apply bool_decide_eq_true in Hc.
    + intros k Hk Hin.
      by apply (elem_of_columns_rowwise k _ (row_sum (count_cols cat)) t) in Hin as [?|?].
  - apply wp_ret. exists t. split; [done|].
    eapply Forall_impl; [exact HI|]. intros r Hr.
    apply row_inv_no_total; [|done]. intros Hin.
    assert (forallb (has_column t) (count_cols cat) = true) as E; [|congruence].
    apply forallb_forall. intros c Hc%list_elem_of_In.
    by apply bool_decide_eq_true, Hin.
Qed.

Lemma feature_assign w0 w l t c f :
  c ∈ written → c ≠ "date" → c ≠ "pincode" →
  owns w0 w l t → frame_inv cat (st_final cat) t →
  wp (assign l c (λ t, s ← getitem t "date"; Series.dt f s)) w
     (post_same w0 l (frame_inv cat (st_final cat))).
Proof.
  intros Hw Hd Hp Ho HI. apply (wp_assign_inv w0 _ _ t); [done|].
  intros t' ->%assign_dt. apply frame_inv_rowwise; simpl; try done.
  - intros Hin. apply (wf_written c Hw). by right.
  - intros _. by apply wf_written.
Qed.

Lemma getitem_rowwise_eq c g t :
  getitem (rowwise c g t) c = Ok (map g (rows t)).
Proof.
  unfold getitem.
  assert (has_column (rowwise c g t) c = true) as ->
    by (apply bool_decide_eq_true, elem_of_columns_rowwise; by right).
  simpl. rewrite map_map. f_equal. apply map_ext. intros r. apply at_insert_eq.
Qed.

Lemma count_true_map {A} (p : A → bool) (l : list A) :
  count_true (map p l) = Z.of_nat (length (filter (λ a, p a = true) l)).
Proof.
  unfold count_true. f_equal. induction l as [|a l IH]; [done|]. simpl.
  rewrite !filter_cons. destruct (p a); repeat case_decide; simpl; congruence.
Qed.

Lemma post_raise df w0 w e : stable w0 w → clean_post cat df w0 (Raise e) w.
Proof. by intros [? ?]. Qed.

Lemma dates_kept (t : DataFrame) :
  frame_inv cat st_dates
    (where_ (λ r, negb (isnull (at_ r "date")))
       (rowwise "date" (λ r, Series.to_datetime (at_ r "date")) t)).
Proof.
  unfold frame_inv. simpl. apply Forall_forall. intros r Hr.
  apply list_elem_of_filter in Hr as [Hn Hr].
  apply list_elem_of_fmap in Hr as (r0 & -> & _).
  rewrite at_insert_eq in Hn.
  split_and!; simpl; try done.
  - unfold has_date. rewrite lookup_insert_eq.
    destruct (at_ r0 "date") as [s| | | |]; simpl in *; eauto; try done.
    destruct (Date.strptime s); simpl in *; eauto. done.
  - intros c Hc. by apply elem_of_nil in Hc.
Qed.

Lemma clean_spec df w0 :
  wp (clean float_repr numeric_of_string cat df) w0 (clean_post cat df w0).
Proof.
  unfold clean.
  destruct (heap w0 !! df) as [t|] eqn:Hdf; cycle 1.
  { unfold wp, copy, mbind, M_bind, deref. rewrite Hdf. by split. }
  apply wp_bind, (wp_copy w0 _ _ t); [apply stable_refl|done|]. intros l1 w1 Ho1.
  apply wp_bind, (wp_eval _ _ _ t); [by eapply owns_lookup|]. simpl.
  (* the date column *)
  eapply wp_bind_post;
    [apply (wp_assign_inv w0 _ _ t _ _
              (λ t', t' = rowwise "date" (λ r, Series.to_datetime (at_ r "date")) t));
       [done|];
     intros t' Ht'; by eapply assign_elementwise in Ht' as [_ ->]
    | |intros e w'; apply post_raise].
  intros _ w2 (t1 & Ho2 & ->). simpl.
  apply wp_bind, (wp_eval _ _ _ _ _ (owns_lookup _ _ _ _ Ho2)).
  rewrite getitem_rowwise_eq. simpl. rewrite map_map, count_true_map.
  eapply wp_bind_post;
    [apply (wp_derive_inv w0 _ _ _ _ (frame_inv cat st_dates) Ho2)
    | |intros e w'; apply post_raise].
  { intros t' ->%dropna_where. apply dates_kept. }
  intros l2 w3 (t2 & Ho3 & HI3). simpl.
  (* the string columns *)
  eapply wp_bind_post;
    [eapply (wp_for_prefix w0 l2 _ (λ _, frame_inv cat st_dates)
               ["state"; "district"] _ [] w3 t2 eq_refl); [|done..]
    | |intros e w'; apply post_raise].
  { intros d x rest w t' Hx Ho HI. apply (string_col_block w0 w l2 t'); [|done..].
    intros ->. destruct d as [|? [|? [|? d]]]; simplify_eq. }
  intros _ w4 (t3 & Ho4 & HI4). simpl.
  (* the pincode *)
  apply wp_bind, (wp_eval _ _ _ _ _ (owns_lookup _ _ _ _ Ho4)). simpl.
  eapply wp_bind_post;
    [by apply (pincode_block w0 _ _ _ Ho4)
    | |intros e w'; apply post_raise].
  intros l3 w5 (t4 & Ho5 & HI5). simpl.
  (* the count columns *)
  eapply wp_bind_post;
    [eapply (wp_for_prefix w0 l3 _ (λ d, frame_inv cat (st_counts d))
               (count_cols cat) _ [] w5 t4 eq_refl); [|done..]
    | |intros e w'; apply post_raise].
  { intros d x rest w t' Hx Ho HI.
    assert (x ∈ count_cols cat) as Hin by (rewrite Hx; set_solver).
    apply (count_col_block w0 w l3 t'); [| | |done..].
    - pose proof wf_counts as Hn. rewrite Hx in Hn.
      apply NoDup_app in Hn as (_ & Hn & _). intros Hd. apply (Hn x Hd). by left.
    - intros ->. apply (wf_written "date"); [set_solver|by right].
    - intros ->. apply (wf_written "pincode"); [set_solver|by right]. }
  intros _ w6 (t5 & Ho6 & HI6). simpl.
  (* the total *)
  apply wp_bind, (wp_eval _ _ _ _ _ (owns_lookup _ _ _ _ Ho6)). simpl.
  eapply wp_bind_post;
    [by apply (total_block w0 _ _ _ Ho6)
    | |intros e w'; apply post_raise].
  intros _ w7 (t6 & Ho7 & HI7). simpl.
  apply wp_bind, (wp_eval _ _ _ _ _ (owns_lookup _ _ _ _ Ho7)).
  destruct (getitem t6 (total_col cat)) as [s|e] eqn:Hg; simpl;
    [|apply post_raise; by eapply owns_stable].
  eapply wp_bind_post;
    [apply (wp_derive_inv w0 _ _ _ _ (frame_inv cat (st_final cat)) Ho7)
    | |intros e w'; apply post_raise].
  { intros t' Ht'. rewrite Hg in Ht'. simpl in Ht'.
    destruct (Series.gt_zero_all s) as [mask|]; [|done]. injection Ht' as <-.
    by apply frame_inv_boolean_index. }
  intros l4 w8 (t7 & Ho8 & HI8). simpl.
  (* the temporal features *)
  eapply wp_bind_post;
    [apply (feature_assign w0 _ _ _ "year" _ ltac:(set_solver) ltac:(done) ltac:(done) Ho8 HI8)
    | |intros e w'; apply post_raise].
  intros _ w9 (t8 & Ho9 & HI9). simpl.
  eapply wp_bind_post;
    [apply (feature_assign w0 _ _ _ "month" _ ltac:(set_solver) ltac:(done) ltac:(done) Ho9 HI9)
    | |intros e w'; apply post_raise].
  intros _ w10 (t9 & Ho10 & HI10). simpl.
  eapply wp_bind_post;
    [apply (feature_assign w0 _ _ _ "day_of_week" _ ltac:(set_solver) ltac:(done) ltac:(done) Ho10 HI10)
    | |intros e w'; apply post_raise].
  intros _ w11 (t10 & Ho11 & HI11). simpl.
  eapply wp_bind_post;
    [apply (feature_assign w0 _ _ _ "week_of_year" _ ltac:(set_solver) ltac:(done) ltac:(done) Ho11 HI11)
    | |intros e w'; apply post_raise].
  intros _ w12 (t11 & Ho12 & HI12). simpl.
  (* the report *)
  apply wp_bind, (wp_eval _ _ _ _ _ (owns_lookup _ _ _ _ Ho12)). simpl.
  apply wp_bind, wp_set_report, wp_ret.
  destruct Ho12 as ((Hheap & Hrep) & Hnew & Hl).
  split; [done|].
  exists t, t11. eexists. split_and!; [done..|].
  cbn [heap cleaning_report]. rewrite Hrep. reflexivity.
Qed.

End Clean.

(** * The cleaning methods *)

Ltac not_in_list :=
  let H := fresh in
  intros H; repeat (apply elem_of_cons in H as [H|H]; [discriminate H|]);
  by apply elem_of_nil in H.

Ltac solve_cat_wf :=
  split;
  [ simpl; repeat (apply NoDup_cons; split; [not_in_list|]); apply NoDup_nil_2
  | unfold written; simpl;
    repeat (apply Forall_cons; split; [not_in_list|]); apply Forall_nil_2 ].

Lemma enrolment_wf : cat_wf enrolment.
Proof. solve_cat_wf. Qed.

Lemma demographic_wf : cat_wf demographic.
Proof. solve_cat_wf. Qed.

Lemma biometric_wf : cat_wf biometric.
Proof. solve_cat_wf. Qed.

Lemma cleaning_operation_spec float_repr numeric_of_string cat op df w :
  (cat, op) ∈ cleaning_operations float_repr numeric_of_string →
  wp (op df) w (clean_post cat df w).
Proof.
  unfold cleaning_operations. intros H.
  apply elem_of_cons in H as [H|H].
  { injection H as Hc Ho. subst cat op.
    exact (clean_spec float_repr numeric_of_string enrolment enrolment_wf df w). }
  apply elem_of_cons in H as [H|H].
  { injection H as Hc Ho. subst cat op.
    exact (clean_spec float_repr numeric_of_string demographic demographic_wf df w). }
  apply elem_of_cons in H as [H|H].
  { injection H as Hc Ho. subst cat op.
    exact (clean_spec float_repr numeric_of_string biometric biometric_wf df w). }
  by apply elem_of_nil in H.
Qed.

(** * Cleaning does not depend on the store *)

Lemma wp2_bind {A B} (m1 m2 : M A) (k1 k2 : A → M B) w1 w2 P Q :
  wp2 m1 m2 w1 w2 (both P) →
  (∀ a1 w1' a2 w2', P a1 w1' a2 w2' → wp2 (k1 a1) (k2 a2) w1' w2' (both Q)) →
  wp2 (m1 ≫= k1) (m2 ≫= k2) w1 w2 (both Q).
Proof.
  unfold wp2, mbind, M_bind. intros Hm Hk.
  destruct (m1 w1) as [[a1|e1] w1'], (m2 w2) as [[a2|e2] w2']; simpl in *; try done.
  specialize (Hk _ _ _ _ Hm).
  by destruct (k1 a1 w1'), (k2 a2 w2').
Qed.

Lemma wp2_ret {A} (a1 a2 : A) w1 w2 (P : A → world → A → world → Prop) :
  P a1 w1 a2 w2 → wp2 (mret a1) (mret a2) w1 w2 (both P).
Proof. done. Qed.

Lemma wp2_eval {A} R1 R2 l1 l2 w1 w2 (f : DataFrame → result A) :
  paired R1 R2 l1 l2 w1 w2 →
  wp2 (eval l1 f) (eval l2 f) w1 w2
    (both (λ a1 w1' a2 w2', a1 = a2 ∧ w1' = w1 ∧ w2' = w2)).
Proof.
  intros ((t & H1 & H2) & _). unfold wp2, eval, mbind, M_bind, deref.
  rewrite H1, H2. unfold lift. simpl. by destruct (f t).
Qed.

Lemma wp2_assign R1 R2 l1 l2 w1 w2 c rhs :
  paired R1 R2 l1 l2 w1 w2 →
  wp2 (assign l1 c rhs) (assign l2 c rhs) w1 w2
    (both (λ _ w1' _ w2', paired R1 R2 l1 l2 w1' w2')).
Proof.
  intros ((t & H1 & H2) & Hr1 & Hr2).
  unfold wp2, assign, mbind, M_bind, deref. rewrite H1, H2. unfold lift.
  destruct (rhs t) as [s|e]; [|done].
  destruct (setitem t c s) as [t'|e]; [|done]. simpl.
  split; [|done]. exists t'. cbn. by rewrite !lookup_insert_eq.
Qed.

Lemma wp2_derive R1 R2 l1 l2 w1 w2 f :
  paired R1 R2 l1 l2 w1 w2 →
  wp2 (derive l1 f) (derive l2 f) w1 w2
    (both (λ l1' w1' l2' w2', paired R1 R2 l1' l2' w1' w2')).
Proof.
  intros ((t & H1 & H2) & Hr1 & Hr2).
  unfold wp2, derive, mbind, M_bind, deref. rewrite H1, H2. unfold lift.
  destruct (f t) as [t'|e]; [|done]. simpl.
  split; [|done]. exists t'. cbn. by rewrite !lookup_insert_eq.
Qed.

Lemma wp2_copy R1 R2 l1 l2 w1 w2 :
  paired R1 R2 l1 l2 w1 w2 →
  wp2 (copy l1) (copy l2) w1 w2
    (both (λ l1' w1' l2' w2', paired R1 R2 l1' l2' w1' w2')).
Proof.
  intros ((t & H1 & H2) & Hr1 & Hr2).
  unfold wp2, copy, mbind, M_bind, deref. rewrite H1, H2. simpl.
  split; [|done]. exists t. cbn. by rewrite !lookup_insert_eq.
Qed.

Lemma wp2_for {A} R1 R2 l1 l2 (body1 body2 : A → M ()) xs :
  (∀ x w1 w2, paired R1 R2 l1 l2 w1 w2 →
     wp2 (body1 x) (body2 x) w1 w2
       (both (λ _ w1' _ w2', paired R1 R2 l1 l2 w1' w2'))) →
  ∀ w1 w2, paired R1 R2 l1 l2 w1 w2 →
  wp2 (for_ xs body1) (for_ xs body2) w1 w2
    (both (λ _ w1' _ w2', paired R1 R2 l1 l2 w1' w2')).
Proof.
  intros Hbody. induction xs as [|x xs IH]; intros w1 w2 Hp.
  - by apply wp2_ret.
  - change (for_ (x :: xs) body1) with (body1 x ≫= λ _, for_ xs body1).
    change (for_ (x :: xs) body2) with (body2 x ≫= λ _, for_ xs body2).
    eapply wp2_bind; [by apply Hbody|]. intros [] w1' [] w2' Hp'. by apply IH.
Qed.

Tactic Notation "sync_eval" constr(Hp) "as" ident(x) :=
  eapply wp2_bind; [by apply (wp2_eval _ _ _ _ _ _ _ Hp)|];
  intros x ? ? ? (<- & -> & ->).

Section Independent.

Variable float_repr : Qc → string.
Variable numeric_of_string : string → num.

Lemma clean_store_independent cat df1 df2 w1 w2 t :
  heap w1 !! df1 = Some t → heap w2 !! df2 = Some t →
  wp2 (clean float_repr numeric_of_string cat df1)
      (clean float_repr numeric_of_string cat df2) w1 w2
      (both (same_outcome (report_key cat) (cleaning_report w1) (cleaning_report w2))).
Proof.
  intros H1 H2. unfold clean.
  set (R1 := cleaning_report w1). set (R2 := cleaning_report w2).
  assert (paired R1 R2 df1 df2 w1 w2) as Hp by (split; eauto).
  eapply wp2_bind; [by apply (wp2_copy R1 R2)|]. clear Hp.
  intros l1 w1a l2 w2a Hp.
  sync_eval Hp as initial_rows.
  eapply wp2_bind; [by apply (wp2_assign R1 R2)|]. clear Hp.
  intros [] w1b [] w2b Hp.
  sync_eval Hp as invalid_dates.
  eapply wp2_bind; [by apply (wp2_derive R1 R2)|]. clear Hp l1 l2.
  intros l1 w1c l2 w2c Hp.
  eapply wp2_bind.
  { apply (wp2_for R1 R2 l1 l2); [|done]. intros col u1 u2 Hq.
    sync_eval Hq as present.
    destruct present; [by apply (wp2_assign R1 R2)|by apply wp2_ret]. }
  clear Hp. intros [] w1d [] w2d Hp.
  sync_eval Hp as present.
  eapply wp2_bind.
  { instantiate (1 := λ l1' w1' l2' w2', paired R1 R2 l1' l2' w1' w2').
    destruct present; [|by apply wp2_ret].
    eapply wp2_bind; [by apply (wp2_assign R1 R2)|].
    intros [] u1 [] u2 Hq. by apply (wp2_derive R1 R2). }
  clear Hp l1 l2. intros l1 w1e l2 w2e Hp.
  eapply wp2_bind.
  { apply (wp2_for R1 R2 l1 l2); [|done]. intros col u1 u2 Hq.
    sync_eval Hq as present'.
    destruct present'; [|by apply wp2_ret].
    eapply wp2_bind; [by apply (wp2_assign R1 R2)|].
    intros [] v1 [] v2 Hq'. by apply (wp2_assign R1 R2). }
  clear Hp. intros [] w1f [] w2f Hp.
  sync_eval Hp as all_present.
  eapply wp2_bind.
  { instantiate (1 := λ _ w1' _ w2', paired R1 R2 l1 l2 w1' w2').
    destruct all_present; [by apply (wp2_assign R1 R2)|by apply wp2_ret]. }
  clear Hp. intros [] w1g [] w2g Hp.
  sync_eval Hp as zero_total.
  eapply wp2_bind; [by apply (wp2_derive R1 R2)|]. clear Hp l1 l2.
  intros l1 w1h l2 w2h Hp.
  eapply wp2_bind; [by apply (wp2_assign R1 R2)|]. clear Hp.
  intros [] w1i [] w2i Hp.
  eapply wp2_bind; [by apply (wp2_assign R1 R2)|]. clear Hp.
  intros [] w1j [] w2j Hp.
  eapply wp2_bind; [by apply (wp2_assign R1 R2)|]. clear Hp.
  intros [] w1k [] w2k Hp.
  eapply wp2_bind; [by apply (wp2_assign R1 R2)|]. clear Hp.
  intros [] w1l [] w2l Hp.
  sync_eval Hp as final_rows.
  destruct Hp as ((t' & Hl1 & Hl2) & Hr1 & Hr2).
  unfold wp2, same_outcome, set_report, mbind, M_bind, mret, M_ret.
  cbn [fst snd both heap cleaning_report]. rewrite Hr1, Hr2. eauto 10.
Qed.

End Independent.

(** * The cleaning methods on the example tables *)

Ltac decide_eq := apply (bool_decide_eq_true_1 _); vm_compute; reflexivity.

Lemma clean_raw_table_session fr ns :
  let r := Preprocessor.clean fr ns enrolment 0%nat (Example.session Example.raw_table) in
  r.1 = Ok 4%nat
  ∧ heap r.2 !! 4%nat = Some Example.cleaned_table
  ∧ cleaning_report r.2 !! "enrolment" = Some (report_entry enrolment 2 1 1 0).
Proof.
  split_and!.
  - vm_compute. reflexivity.
  - decide_eq.
  - decide_eq.
Qed.

(** What a method does in the session that holds only the table, it does in
    every state. *)
Lemma clean_transfer fr ns cat (t t' : DataFrame) l0 e :
  let r := Preprocessor.clean fr ns cat 0%nat (Example.session t) in
  r.1 = Ok l0 → heap r.2 !! l0 = Some t' →
  cleaning_report r.2 !! report_key cat = Some e →
  ∀ w df, heap w !! df = Some t →
    ∃ l w', Preprocessor.clean fr ns cat df w = (Ok l, w')
            ∧ heap w' !! l = Some t'
            ∧ cleaning_report w' = <[report_key cat := e]> (cleaning_report w).
Proof.
  intros r Hr Ht He w df Hdf.
  pose proof (clean_store_independent fr ns cat df 0%nat w (Example.session t) t Hdf
                (lookup_singleton_eq _ _)) as Hrel.
  unfold wp2 in Hrel. fold r in Hrel. rewrite Hr in Hrel.
  destruct (Preprocessor.clean fr ns cat df w) as [[l|ex] w'] eqn:Hrun;
    simpl in Hrel; [|done].
  destruct Hrel as (t0 & e0 & Hl & Hl0 & Hrep & Hrep0).
  exists l, w'. split; [done|].
  rewrite Ht in Hl0. injection Hl0 as <-.
  rewrite Hrep0, lookup_insert_eq in He. injection He as <-. done.
Qed.

Lemma clean_raw_table fr ns w df :
  heap w !! df = Some Example.raw_table →
  ∃ l w', clean_enrolment_data fr ns df w = (Ok l, w')
          ∧ heap w' !! l = Some Example.cleaned_table
          ∧ cleaning_report w'
            = <["enrolment" := report_entry enrolment 2 1 1 0]> (cleaning_report w).
Proof.
  destruct (clean_raw_table_session fr ns) as (H1 & H2 & H3).
  by apply (clean_transfer fr ns enrolment _ _ 4%nat).
Qed.

Lemma clean_raw_pincodes_session fr ns :
  let r := clean_enrolment_data fr ns 0%nat (Example.session Example.raw_pincodes) in
  r.1 = Ok 4%nat ∧ heap r.2 !! 4%nat = Some Example.cleaned_pincodes.
Proof. split; [vm_compute; reflexivity|decide_eq]. Qed.

Lemma clean_raw_no_pincode_session fr ns :
  let r := clean_enrolment_data fr ns 0%nat (Example.session Example.raw_no_pincode) in
  ∃ t', r.1 = Ok 3%nat ∧ heap r.2 !! 3%nat = Some t'
        ∧ Forall (λ r, r !! "pincode" = None) (rows t').
Proof.
  eexists. split_and!; [vm_compute; reflexivity..|].
  repeat constructor.
Qed.

Lemma run_eq {A} (m : M A) w a : (m w).1 = Ok a → m w = (Ok a, (m w).2).
Proof. destruct (m w). simpl. by intros ->. Qed.

(** C1, as stated, fails: cleaning the table with one row of pincode
    [1234] and one row of date [31-02-2024] does not drop both rows and does
    not record [rows_removed == 2], whatever the library functions do. *)
Lemma short_pincode_row_not_dropped :
  ¬ ∃ fr ns l w' t',
      clean_enrolment_data fr ns 0%nat (Example.session Example.raw_table) = (Ok l, w')
      ∧ heap w' !! l = Some t'
      ∧ rows t' = []
      ∧ cleaning_report w' !! "enrolment" ≫= (λ e, e !! "rows_removed") = Some 2.
Proof.
  intros (fr & ns & l & w' & t' & Hrun & Hl & Hrows & _).
  destruct (clean_raw_table fr ns (Example.session Example.raw_table) 0%nat)
    as (l0 & w0 & Hrun0 & Hl0 & _); [apply lookup_singleton_eq|].
  rewrite Hrun in Hrun0. injection Hrun0 as <- <-.
  rewrite Hl in Hl0. injection Hl0 as ->. discriminate Hrows.
Qed.

(** C1, amended: cleaning the table with one row of pincode [1234] (its
    date a date, its counts positive) and one row of date [31-02-2024] drops
    the second row only.  The pincode is padded to [001234], which has six
    characters, and its row is kept; the report entry has
    [rows_removed == 1] and [invalid_dates == 1], and its keys are the five
    counters of the source: none counts pincodes.  This holds in every state
    and for every behaviour of the library functions. *)
Theorem short_pincode_is_padded_and_kept fr ns w df :
  heap w !! df = Some Example.raw_table →
  ∃ l w' entry,
    clean_enrolment_data fr ns df w = (Ok l, w')
    ∧ heap w' !! l = Some Example.cleaned_table
    ∧ cleaning_report w' !! "enrolment" = Some entry
    ∧ entry !! "rows_removed" = Some 1
    ∧ entry !! "invalid_dates" = Some 1
    ∧ dom entry
      = list_to_set ["initial_rows"; "final_rows"; "rows_removed";
                     "invalid_dates"; "zero_enrolments"].
Proof.
  intros Hdf. destruct (clean_raw_table fr ns w df Hdf) as (l & w' & Hrun & Hl & Hrep).
  exists l, w', (report_entry enrolment 2 1 1 0). split_and!; [done..| | | |].
  - rewrite Hrep. apply lookup_insert_eq.
  - reflexivity.
  - reflexivity.
  - unfold report_entry. rewrite !dom_insert_L, dom_empty_L. simpl. set_solver.
Qed.

Lemma short_pincode_witness :
  ∃ l w' entry,
    clean_enrolment_data Example.integral_repr Example.number_of_digits 0%nat
      (Example.session Example.raw_table) = (Ok l, w')
    ∧ heap w' !! l = Some Example.cleaned_table
    ∧ cleaning_report w' !! "enrolment" = Some entry
    ∧ entry !! "rows_removed" = Some 1
    ∧ entry !! "invalid_dates" = Some 1
    ∧ dom entry
      = list_to_set ["initial_rows"; "final_rows"; "rows_removed";
                     "invalid_dates"; "zero_enrolments"].
Proof.
  apply (short_pincode_is_padded_and_kept Example.integral_repr Example.number_of_digits
           (Example.session Example.raw_table) 0%nat).
  reflexivity.
Defined.


Lemma cleaning_operation_run fr ns cat op df w l w' :
  (cat, op) ∈ cleaning_operations fr ns →
  op df w = (Ok l, w') →
  ∃ t t', heap w !! df = Some t ∧ heap w' !! l = Some t'
          ∧ Forall (row_ok cat (columns t')) (rows t').
Proof.
  intros Hop Hrun. pose proof (cleaning_operation_spec fr ns cat op df w Hop) as H.
  unfold wp in H. rewrite Hrun in H. destruct H as (_ & t & t' & z & ? & _ & ? & ? & _).
  eauto.
Qed.



(** C9: in every row of the table a cleaning method returns, when the
    table has the count columns of the category, each count field holds a
    number that is present and not negative, and the total field holds their
    sum ([Num.sum]: the addition is exact). *)
Theorem cleaned_total_is_sum_of_counts fr ns cat op df w l w' :
  (cat, op) ∈ cleaning_operations fr ns →
  op df w = (Ok l, w') →
  ∃ t', heap w' !! l = Some t'
        ∧ ((∀ c, c ∈ count_cols cat → c ∈ columns t') →
           Forall (λ r, Forall (λ c, has_count c r) (count_cols cat)
                        ∧ has_total cat r) (rows t')).
Proof.
  intros Hop Hrun.
  destruct (cleaning_operation_run _ _ _ _ _ _ _ _ Hop Hrun) as (t & t' & _ & Hl & Hall).
  exists t'. split; [done|]. intros Hcols. eapply Forall_impl; [exact Hall|].
  intros r (_ & _ & Hc & Ht). split; [|by apply Ht].
  apply Forall_forall. intros c Hin. apply Hc; [done|by apply Hcols].
Qed.

Lemma cleaned_total_witness :
  ∃ t', heap (clean_enrolment_data Example.integral_repr Example.number_of_digits
                0%nat (Example.session Example.raw_table)).2 !! 4%nat = Some t'
        ∧ ((∀ c, c ∈ count_cols enrolment → c ∈ columns t') →
           Forall (λ r, Forall (λ c, has_count c r) (count_cols enrolment)
                        ∧ has_total enrolment r) (rows t')).
Proof.
  apply (cleaned_total_is_sum_of_counts
           Example.integral_repr Example.number_of_digits enrolment
           (clean_enrolment_data Example.integral_repr Example.number_of_digits)
           0%nat (Example.session Example.raw_table)).
  - left.
  - apply run_eq. vm_compute. reflexivity.
Defined.

(** C10: a cleaning method changes no DataFrame object that exists when it
    is called, the caller's table among them; when it returns it has set one
    entry of the report, under the key of its category, and when it raises
    the report is as it was. *)
Theorem cleaning_works_on_a_copy fr ns cat op df w :
  (cat, op) ∈ cleaning_operations fr ns →
  (∀ l, l ∈ dom (heap w) → heap (op df w).2 !! l = heap w !! l)
  ∧ match (op df w).1 with
    | Ok _ =>
        ∃ entry, cleaning_report (op df w).2
                 = <[report_key cat := entry]> (cleaning_report w)
    | Raise _ => cleaning_report (op df w).2 = cleaning_report w
    end.
Proof.
  intros Hop. pose proof (cleaning_operation_spec fr ns cat op df w Hop) as [Hh Hr].
  split; [done|]. destruct (op df w).1; [|done].
  destruct Hr as (t & t' & z & _ & _ & _ & _ & Hrep). eauto.
Qed.

Lemma cleaning_works_on_a_copy_witness :
  let op := clean_enrolment_data Example.integral_repr Example.number_of_digits in
  let w := Example.session Example.raw_table in
  (∀ l, l ∈ dom (heap w) → heap (op 0%nat w).2 !! l = heap w !! l)
  ∧ match (op 0%nat w).1 with
    | Ok _ =>
        ∃ entry, cleaning_report (op 0%nat w).2
                 = <[report_key enrolment := entry]> (cleaning_report w)
    | Raise _ => cleaning_report (op 0%nat w).2 = cleaning_report w
    end.
Proof.
  apply (cleaning_works_on_a_copy
           Example.integral_repr Example.number_of_digits enrolment).
  left.
Defined.

(** * The analyzer *)

Lemma numeric_column_check t c :
  forallb (λ r, is_number (at_ r c)) (rows t) = true → numeric_column t c.
Proof.
  unfold numeric_column. induction (rows t) as [|r rs IH]; simpl; intros H.
  - apply Forall_nil_2.
  - apply andb_true_iff in H as [H1 H2]. apply Forall_cons_2; [done|by apply IH].
Qed.

(** ** [calculate_growth_rate] *)

Lemma sgn_Eq q : sgn q = Eq ↔ q = 0%Qc.
Proof. unfold sgn. symmetry. apply Qceq_alt. Qed.

Lemma inf_minus_one c : Num.sub (inf_of c) one = inf_of c.
Proof. by destruct c. Qed.

(** Dividing and taking one away, or taking the difference and dividing. *)
Lemma pct_formula x y :
  no_infinity x → no_infinity y →
  Num.mul (Num.sub (Num.div x y) one) hundred = percent_change y x.
Proof.
  intros [Hx1 Hx2] [Hy1 Hy2]. unfold percent_change.
  destruct x as [p| | |], y as [q| | |]; try done.
  unfold Num.sub at 2. cbn [neg Num.add Num.div].
  assert (Qc_of_Z 1 = 1%Qc) as Hone by (by apply Qc_is_canon).
  destruct (sgn q) eqn:Hs.
  - apply sgn_Eq in Hs. subst q.
    replace (p + - 0)%Qc with p by ring.
    by rewrite inf_minus_one.
  - assert (q ≠ 0%Qc) by (intros E%sgn_Eq; congruence).
    unfold Num.sub, one, hundred, of_Z. cbn [neg Num.add Num.mul]. rewrite Hone.
    generalize (Qc_of_Z 100). intros h. f_equal. by field.
  - assert (q ≠ 0%Qc) by (intros E%sgn_Eq; congruence).
    unfold Num.sub, one, hundred, of_Z. cbn [neg Num.add Num.mul]. rewrite Hone.
    generalize (Qc_of_Z 100). intros h. f_equal. by field.
Qed.

Lemma ffill_from_present last s :
  Forall (λ x, isnan x = false) s → ffill_from last s = s.
Proof.
  intros Hs. revert last. induction Hs as [|x s Hx _ IH]; intros last; [done|].
  simpl. rewrite Hx. by rewrite IH.
Qed.

Lemma shift_length p s : length (shift p s) = length s.
Proof. unfold shift. by rewrite length_map, length_seq. Qed.

Lemma shift_lookup (lag : nat) s i :
  (i < length s)%nat →
  shift (Z.of_nat lag) s !! i
  = Some (if (i <? lag)%nat then NaN else default NaN (s !! (i - lag)%nat)).
Proof.
  intros Hi. unfold shift. rewrite list_lookup_fmap, lookup_seq_lt by done. simpl.
  f_equal. destruct (Nat.ltb_spec i lag).
  - destruct (Z.leb_spec 0 (Z.of_nat i - Z.of_nat lag)); [lia|done].
  - destruct (Z.leb_spec 0 (Z.of_nat i - Z.of_nat lag)); [|lia].
    do 2 f_equal. lia.
Qed.

Lemma wp_run {A} (m : M A) w Q : wp m w Q → ∃ r w', m w = (r, w') ∧ Q r w'.
Proof. unfold wp. destruct (m w) as [r w']. eauto. Qed.

Lemma setitem_Ok t c s t' :
  setitem t c s = Ok t' →
  length s = length (rows t)
  ∧ rows t' = zip_with (λ r v, <[c := v]> r) (rows t) s.
Proof.
  unfold setitem. case_bool_decide; [|done]. by intros [= <-].
Qed.

Lemma pct_change_length pad p s : length (pct_change pad p s) = length s.
Proof.
  unfold pct_change, ffill. rewrite length_zip_with, shift_length.
  destruct pad; [|lia].
  assert (∀ last, length (ffill_from last s) = length s) as ->; [|lia].
  induction s as [|x s IH]; intros last; [done|]. simpl.
  destruct (isnan x); simpl; by rewrite IH.
Qed.

Lemma pct_change_lookup pad (lag : nat) vals i cur :
  (pad = true → Forall (λ x, isnan x = false) vals) →
  Forall no_infinity vals →
  vals !! i = Some cur →
  (λ g, Num.mul g hundred) <$> pct_change pad (Z.of_nat lag) vals !! i
  = Some (growth_spec vals lag i).
Proof.
  intros Hpad Hinf Hi. unfold pct_change.
  assert ((if pad then ffill vals else vals) = vals) as ->.
  { destruct pad; [|done]. unfold ffill. by apply ffill_from_present, Hpad. }
  assert (i < length vals)%nat as Hlt by (by eapply lookup_lt_Some).
  rewrite lookup_zip_with, Hi. simpl. rewrite shift_lookup by done. simpl.
  f_equal. unfold growth_spec. rewrite Hi.
  destruct (Nat.ltb_spec i lag).
  - by destruct cur.
  - destruct (lookup_lt_is_Some_2 vals (i - lag)%nat) as [prev Hprev]; [lia|].
    rewrite Hprev. simpl. apply pct_formula.
    + by eapply (proj1 (Forall_lookup _ _)).
    + by eapply (proj1 (Forall_lookup _ _)).
Qed.

Lemma growth_run pad df value_col periods w t :
  heap w !! df = Some t → value_col ∈ columns t →
  ∃ l w' t',
    calculate_growth_rate pad df value_col periods w = (Ok l, w')
    ∧ heap w' !! l = Some t'
    ∧ heap w' !! df = Some t
    ∧ setitem t (growth_name value_col)
        (map (λ g, VNum (Num.mul g hundred))
             (pct_change pad periods (column_values t value_col))) = Ok t'.
Proof.
  intros Hdf Hcol.
  assert (getitem t value_col = Ok (map (λ r, at_ r value_col) (rows t))) as Hg.
  { unfold getitem, has_column. by rewrite bool_decide_eq_true_2. }
  assert (∃ t', setitem t (growth_name value_col)
              (map (λ g, VNum (Num.mul g hundred))
                 (pct_change pad periods (column_values t value_col))) = Ok t')
    as [t' Hset].
  { unfold setitem. rewrite bool_decide_eq_true_2; [by eexists|].
    unfold column_values. by rewrite length_map, pct_change_length, length_map. }
  destruct (wp_run (calculate_growth_rate pad df value_col periods) w
              (λ r w', ∃ l, r = Ok l ∧ heap w' !! l = Some t'
                            ∧ heap w' !! df = Some t)) as (r & w' & Hrun & l & -> & Hl & Hd).
  { unfold calculate_growth_rate.
    apply wp_bind, (wp_copy w _ _ t); [apply stable_refl|done|]. intros l w1 Ho.
    eapply wp_bind, (wp_assign w _ _ t); [done|].
    rewrite Hg. simpl. rewrite map_map. unfold column_values in Hset. rewrite Hset.
    intros w2 (Hs & Hnew & Hl). apply wp_ret.
    eexists; split; [done|]. split; [done|].
    destruct Hs as [Hs _]. rewrite Hs; [done|]. by apply elem_of_dom. }
  by exists l, w', t'.
Qed.

Lemma growth_rows pad df value_col (lag : nat) w t :
  heap w !! df = Some t → value_col ∈ columns t →
  Forall no_infinity (column_values t value_col) →
  (pad = true → all_present (column_values t value_col)) →
  ∃ l w' t',
    calculate_growth_rate pad df value_col (Z.of_nat lag) w = (Ok l, w')
    ∧ heap w' !! l = Some t'
    ∧ length (rows t') = length (rows t)
    ∧ ∀ i r, rows t !! i = Some r →
        rows t' !! i
        = Some (<[growth_name value_col
                  := VNum (growth_spec (column_values t value_col) lag i)]> r).
Proof.
  intros Hdf Hcol Hinf Hpad.
  destruct (growth_run pad df value_col (Z.of_nat lag) w t Hdf Hcol)
    as (l & w' & t' & Hrun & Hl & _ & Hset).
  apply setitem_Ok in Hset as [Hlen Hrows].
  exists l, w', t'. split_and!; [done|done| |].
  - rewrite Hrows, length_zip_with. lia.
  - intros i r Hi. rewrite Hrows, lookup_zip_with, Hi. simpl.
    rewrite list_lookup_fmap.
    assert (column_values t value_col !! i = Some (to_num (at_ r value_col))) as Hv.
    { unfold column_values. by rewrite list_lookup_fmap, Hi. }
    pose proof (pct_change_lookup pad lag _ i _ Hpad Hinf Hv) as Hp.
    destruct (pct_change pad (Z.of_nat lag) (column_values t value_col) !! i)
      as [g|]; [|done].
    simpl in *. by injection Hp as ->.
Qed.


Lemma no_infinity_of_Z n : no_infinity (of_Z n).
Proof. by split. Qed.

Lemma growth_table_numeric : numeric_column growth_table "value".
Proof. apply numeric_column_check. vm_compute. reflexivity. Qed.

Lemma growth_table_values :
  column_values growth_table "value" = [of_Z 100; of_Z 150; of_Z 120].
Proof. decide_eq. Qed.


(** With the lag 1 on the values 100, 150, 120 the growth field is missing,
    50 and -20, whether [pct_change] fills forward or not. *)
Lemma growth_rate_example pad w df :
  heap w !! df = Some growth_table →
  ∃ l w' t',
    calculate_growth_rate pad df "value" 1 w = (Ok l, w')
    ∧ heap w' !! l = Some t'
    ∧ map (λ r, at_ r "value_growth") (rows t')
      = [VNum NaN; VNum (of_Z 50); VNum (of_Z (-20))].
Proof.
  intros Hdf.
  destruct (growth_run pad df "value" 1 w growth_table Hdf) as
    (l & w' & t' & Hrun & Hl & _ & Hset); [apply list_elem_of_here|].
  exists l, w', t'. split_and!; [done..|].
  assert (Ok t' = setitem growth_table "value_growth"
            [VNum NaN; VNum (of_Z 50); VNum (of_Z (-20))]) as [= ->]; [|decide_eq].
  rewrite <- Hset. f_equal. destruct pad; decide_eq.
Qed.

(** * Sorting *)

Section StableSort.
Context {A : Type} (leb : A → A → bool).

Lemma insert_sorted_perm x l : Order.insert_sorted leb x l ≡ₚ x :: l.
Proof.
  induction l as [|y l IH]; simpl; [done|].
  destruct (leb x y); [done|]. rewrite IH. apply Permutation_swap.
Qed.

Lemma stable_sort_perm l : Order.stable_sort leb l ≡ₚ l.
Proof.
  induction l as [|x l IH]; simpl; [done|].
  by rewrite insert_sorted_perm, IH.
Qed.

Lemma stable_sort_length l : length (Order.stable_sort leb l) = length l.
Proof. by rewrite stable_sort_perm. Qed.

(** Stability: the elements that [P] picks, all ranked alike, keep their
    order. *)
Lemma insert_sorted_filter (P : A → Prop) `{!∀ x, Decision (P x)} x l :
  (∀ y, P x → P y → leb x y = true) →
  filter P (Order.insert_sorted leb x l) = filter P (x :: l).
Proof.
  intros Htie. induction l as [|y l IH]; simpl; [done|].
  destruct (leb x y) eqn:Hxy; [done|].
  rewrite !filter_cons, IH, !filter_cons.
  destruct (decide (P x)) as [Hx|Hx], (decide (P y)) as [Hy|Hy]; try done.
  rewrite (Htie y Hx Hy) in Hxy. done.
Qed.

Lemma stable_sort_filter (P : A → Prop) `{!∀ x, Decision (P x)} l :
  (∀ x y, P x → P y → leb x y = true) →
  filter P (Order.stable_sort leb l) = filter P l.
Proof.
  intros Htie. induction l as [|x l IH]; simpl; [done|].
  rewrite insert_sorted_filter by (intros y; apply Htie).
  by rewrite !filter_cons, IH.
Qed.

Hypothesis leb_total : ∀ x y, leb x y = true ∨ leb y x = true.
Hypothesis leb_trans : ∀ x y z, leb x y = true → leb y z = true → leb x z = true.

Lemma insert_sorted_sorted x l :
  sorted_by leb l → sorted_by leb (Order.insert_sorted leb x l).
Proof.
  induction l as [|y l IH]; intros Hs; simpl.
  - by split.
  - destruct Hs as [Hy Hs]. destruct (leb x y) eqn:Hxy.
    + split; [|by split]. apply Forall_cons_2; [done|].
      eapply Forall_impl; [exact Hy|]. intros z Hz. by eapply leb_trans.
    + split; [|by apply IH]. rewrite insert_sorted_perm.
      apply Forall_cons_2; [|done].
      destruct (leb_total x y) as [H|H]; [congruence|done].
Qed.

Lemma stable_sort_sorted l : sorted_by leb (Order.stable_sort leb l).
Proof.
  induction l as [|x l IH]; simpl; [done|]. by apply insert_sorted_sorted.
Qed.

End StableSort.

Lemma sorted_by_take {A} (leb : A → A → bool) n l :
  sorted_by leb l → sorted_by leb (take n l).
Proof.
  revert n. induction l as [|x l IH]; intros [|n] Hs; simpl; try done.
  destruct Hs as [Hx Hs]. split; [|by apply IH].
  by apply Forall_take.
Qed.

(** ** [calculate_concentration_index] *)

Local Open Scope Qc_scope.

Ltac to_Q :=
  unfold Qcle, Qclt, Qc_of_Z in *;
  cbn [this Qcplus Qcmult Qcopp Qcminus Q2Qc] in *;
  rewrite ?Qred_correct in *.

Lemma Qc_of_Z_add a b : Qc_of_Z (a + b) = Qc_of_Z a + Qc_of_Z b.
Proof.
  apply Qc_is_canon. to_Q. by rewrite inject_Z_plus.
Qed.

Lemma Qc_of_Z_1 : Qc_of_Z 1 = 1.
Proof. by apply Qc_is_canon. Qed.

Lemma Qc_of_Z_0 : Qc_of_Z 0 = 0.
Proof. by apply Qc_is_canon. Qed.

Lemma weighted_shift i vs :
  weighted_from (i + 1) vs = weighted_from i vs + total vs.
Proof.
  revert i. induction vs as [|v vs IH]; intros i; simpl.
  - ring.
  - rewrite IH, Qc_of_Z_add, Qc_of_Z_1. ring.
Qed.

Lemma total_lower x vs :
  Forall (Qcle x) vs → Qc_of_Z (Z.of_nat (length vs)) * x ≤ total vs.
Proof.
  induction 1 as [|y vs Hy _ IH]; simpl length.
  - change (Z.of_nat 0) with 0%Z. rewrite Qc_of_Z_0, Qcmult_0_l. apply Qcle_refl.
  - rewrite Nat2Z.inj_succ, <- Z.add_1_r, Qc_of_Z_add, Qc_of_Z_1. simpl total.
    generalize dependent (Qc_of_Z (Z.of_nat (length vs))). intros m IH.
    generalize dependent (total vs). intros S IH.
    to_Q. lra.
Qed.

Lemma Qc_of_nat_S m :
  Qc_of_Z (Z.of_nat (S m)) = Qc_of_Z (Z.of_nat m) + 1.
Proof. by rewrite Nat2Z.inj_succ, <- Z.add_1_r, Qc_of_Z_add, Qc_of_Z_1. Qed.

Lemma Qc_of_nat_nonneg m : 0 ≤ Qc_of_Z (Z.of_nat m).
Proof.
  induction m as [|m IH].
  - change (Z.of_nat 0) with 0%Z. rewrite Qc_of_Z_0. apply Qcle_refl.
  - rewrite Qc_of_nat_S. revert IH. generalize (Qc_of_Z (Z.of_nat m)). intros q IH.
    to_Q. lra.
Qed.

Lemma total_nonneg vs : Forall (Qcle 0) vs → 0 ≤ total vs.
Proof.
  induction 1 as [|y vs Hy _ IH]; simpl; [apply Qcle_refl|].
  revert IH. generalize (total vs). intros S IH. to_Q. lra.
Qed.

Lemma total_pos vs : Forall (Qcle 0) vs → Exists (Qclt 0) vs → 0 < total vs.
Proof.
  intros Hall Hex. induction Hex as [y vs Hy|y vs _ IH]; simpl.
  - apply Forall_cons in Hall as [_ Hall]. apply total_nonneg in Hall.
    revert Hall. generalize (total vs). intros S HS. to_Q. lra.
  - apply Forall_cons in Hall as [H0 Hall]. specialize (IH Hall).
    revert IH. generalize (total vs). intros S HS. to_Q. lra.
Qed.

(** The lower bound, for an ascending list: [(n + 1) Σv ≤ 2 Σ i·v_i]. *)
Lemma weighted_lower vs :
  ascending vs →
  (Qc_of_Z (Z.of_nat (length vs)) + 1) * total vs ≤ 2 * weighted_from 1 vs.
Proof.
  induction vs as [|x vs IH]; intros Hasc.
  - simpl. to_Q. lra.
  - destruct Hasc as [Hx Hasc]. specialize (IH Hasc).
    pose proof (total_lower x vs Hx) as Hlow.
    simpl length. rewrite Qc_of_nat_S. simpl weighted_from. simpl total.
    change (1 + 1)%Z with (Z.succ 1). rewrite <- Z.add_1_r.
    rewrite weighted_shift, Qc_of_Z_1.
    revert IH Hlow. generalize (Qc_of_Z (Z.of_nat (length vs))). intros m.
    generalize (total vs). intros S. generalize (weighted_from 1 vs). intros W.
    intros IH Hlow. to_Q. lra.
Qed.

(** The upper bound, for values that are not negative: [Σ i·v_i ≤ n Σv]. *)
Lemma weighted_upper vs :
  Forall (Qcle 0) vs →
  weighted_from 1 vs ≤ Qc_of_Z (Z.of_nat (length vs)) * total vs.
Proof.
  induction 1 as [|x vs Hx Hall IH].
  - simpl. to_Q. lra.
  - pose proof (total_nonneg vs Hall) as HS.
    pose proof (Qc_of_nat_nonneg (length vs)) as Hm.
    simpl length. rewrite Qc_of_nat_S. simpl weighted_from. simpl total.
    change (1 + 1)%Z with (Z.succ 1). rewrite <- Z.add_1_r.
    rewrite weighted_shift, Qc_of_Z_1.
    revert IH HS Hm. generalize (Qc_of_Z (Z.of_nat (length vs))). intros m.
    generalize (total vs). intros S. generalize (weighted_from 1 vs). intros W.
    intros IH HS Hm. to_Q. nra.
Qed.

Lemma Qc_of_Z_2 : Qc_of_Z 2 = 2.
Proof. by apply Qc_is_canon. Qed.

Lemma Qc_of_nat_pos vs : vs ≠ [] → 0 < Qc_of_Z (Z.of_nat (@length Qc vs)).
Proof.
  destruct vs as [|x vs]; [done|]. intros _. simpl length. rewrite Qc_of_nat_S.
  pose proof (Qc_of_nat_nonneg (length vs)) as H. revert H.
  generalize (Qc_of_Z (Z.of_nat (length vs))). intros m H. to_Q. lra.
Qed.

Lemma Qcdiv_nonneg a b : 0 ≤ a → 0 < b → 0 ≤ a / b.
Proof.
  intros Ha Hb. apply Qcmult_nonneg_nonneg; [done|].
  apply Qclt_le_weak. by apply Qcinv_pos.
Qed.

Lemma Qclt_not_0 a : 0 < a → a ≠ 0.
Proof. intros H ->. revert H. to_Q. lra. Qed.

(** The coefficient of an ascending list of values that are not negative
    and not all zero lies between 0 and 1. *)
Lemma gini_range vs :
  ascending vs → Forall (Qcle 0) vs → Exists (Qclt 0) vs →
  0 ≤ gini_formula vs ∧ gini_formula vs ≤ 1.
Proof.
  intros Hasc Hall Hex.
  assert (vs ≠ []) as Hne by (intros ->; by apply Exists_nil in Hex).
  pose proof (Qc_of_nat_pos vs Hne) as Hn.
  pose proof (total_pos vs Hall Hex) as HS.
  pose proof (weighted_lower vs Hasc) as HL.
  pose proof (weighted_upper vs Hall) as HU.
  unfold gini_formula. cbv zeta. rewrite Qc_of_Z_add, Qc_of_Z_1, Qc_of_Z_2.
  revert Hn HS HL HU. generalize (Qc_of_Z (Z.of_nat (length vs))). intros n.
  generalize (total vs). intros S. generalize (weighted_from 1 vs). intros W.
  intros Hn HS HL HU.
  pose proof (Qclt_not_0 _ Hn) as Hn0. pose proof (Qclt_not_0 _ HS) as HS0.
  pose proof (Qcmult_pos_pos _ _ Hn HS) as HD.
  split.
  - replace (2 * W / (n * S) - (n + 1) / n) with ((2 * W - (n + 1) * S) / (n * S))
      by (by field).
    apply Qcdiv_nonneg; [|done]. clear -HL. to_Q. lra.
  - apply Qcle_minus_iff.
    replace (1 + - (2 * W / (n * S) - (n + 1) / n))
      with (((2 * n + 1) * S - 2 * W) / (n * S)) by (by field).
    apply Qcdiv_nonneg; [|done]. clear -HU HS. to_Q. lra.
Qed.

(** ** Finite values *)

Lemma leb_Fin p q : Num.leb (Fin p) (Fin q) = true ↔ p ≤ q.
Proof.
  unfold Num.leb, Num.ltb, Num.eqb. rewrite orb_true_iff, !bool_decide_eq_true.
  split.
  - intros [H| ->]; [by apply Qclt_le_weak|apply Qcle_refl].
  - intros H. destruct (Qc_eq_dec p q) as [->|Hne]; [by right|left].
    destruct (Qclt_le_dec p q) as [Hlt|Hge]; [done|].
    destruct Hne. by apply Qcle_antisym.
Qed.

Lemma asc_leb_Fin p q : Order.asc_leb (Fin p) (Fin q) = true ↔ p ≤ q.
Proof. unfold Order.asc_leb. simpl. apply leb_Fin. Qed.

Lemma leb_total x y :
  isnan x = false → isnan y = false → Num.leb x y = true ∨ Num.leb y x = true.
Proof.
  destruct x as [p| | |], y as [q| | |]; try done; intros _ _;
    try (by left); try (by right).
  rewrite !leb_Fin. destruct (Qclt_le_dec p q) as [H|H]; [left|by right].
  by apply Qclt_le_weak.
Qed.

Lemma leb_trans x y z :
  Num.leb x y = true → Num.leb y z = true → Num.leb x z = true.
Proof.
  destruct x as [p| | |], y as [q| | |], z as [r| | |]; try done.
  rewrite !leb_Fin. apply Qcle_trans.
Qed.

Lemma asc_leb_total x y : Order.asc_leb x y = true ∨ Order.asc_leb y x = true.
Proof.
  unfold Order.asc_leb.
  destruct (isnan x) eqn:Hx; [by right|]. destruct (isnan y) eqn:Hy; [by left|].
  simpl. by apply leb_total.
Qed.

Lemma asc_leb_trans x y z :
  Order.asc_leb x y = true → Order.asc_leb y z = true → Order.asc_leb x z = true.
Proof.
  unfold Order.asc_leb.
  destruct (isnan z) eqn:Hz; [done|]. destruct (isnan y) eqn:Hy.
  { by destruct y. }
  destruct (isnan x) eqn:Hx; [done|]. simpl. apply leb_trans.
Qed.

Lemma desc_leb_total x y : Order.desc_leb x y = true ∨ Order.desc_leb y x = true.
Proof.
  unfold Order.desc_leb.
  destruct (isnan x) eqn:Hx; [by right|]. destruct (isnan y) eqn:Hy; [by left|].
  simpl. destruct (leb_total x y Hx Hy); [by right|by left].
Qed.

Lemma desc_leb_trans x y z :
  Order.desc_leb x y = true → Order.desc_leb y z = true → Order.desc_leb x z = true.
Proof.
  unfold Order.desc_leb.
  destruct (isnan z) eqn:Hz; [done|]. destruct (isnan y) eqn:Hy.
  { by destruct y. }
  destruct (isnan x) eqn:Hx; [done|]. simpl. intros H1 H2. by eapply leb_trans.
Qed.

Lemma sorted_ascending qs :
  sorted_by Order.asc_leb (map Fin qs) → ascending qs.
Proof.
  induction qs as [|q qs IH]; [done|]. intros [Hq Hs]. split; [|by apply IH].
  apply Forall_fmap in Hq. eapply Forall_impl; [exact Hq|].
  intros r. apply asc_leb_Fin.
Qed.

(** Sorting finite values gives finite values: the same ones, ascending. *)
Lemma sort_values_Fin qs :
  ∃ sorted, sort_values (map Fin qs) = map Fin sorted
            ∧ sorted ≡ₚ qs ∧ ascending sorted.
Proof.
  pose proof (stable_sort_perm Order.asc_leb (map Fin qs)) as Hp.
  apply Permutation_map_inv in Hp as (sorted & Heq & Hperm).
  exists sorted. unfold sort_values. rewrite Heq. split_and!; [done|done|].
  apply sorted_ascending. rewrite <- Heq.
  apply stable_sort_sorted; [apply asc_leb_total|apply asc_leb_trans].
Qed.

Lemma foldl_add_Fin a qs :
  foldl Num.add (Fin a) (map Fin qs) = Fin (a + total qs).
Proof.
  revert a. induction qs as [|q qs IH]; intros a; simpl.
  - f_equal. ring.
  - rewrite IH. f_equal. ring.
Qed.

Lemma sum_Fin qs : Num.sum (map Fin qs) = Fin (total qs).
Proof.
  unfold Num.sum, zero, of_Z. rewrite Qc_of_Z_0, foldl_add_Fin. f_equal. ring.
Qed.

Lemma weighted_Fin a (k : nat) qs :
  foldl Num.add (Fin a)
    (zip_with Num.mul (map (λ i : nat, of_Z (Z.of_nat i)) (seq k (length qs)))
       (map Fin qs))
  = Fin (a + weighted_from (Z.of_nat k) qs).
Proof.
  revert a k. induction qs as [|q qs IH]; intros a k; simpl.
  - f_equal. ring.
  - rewrite IH. f_equal. rewrite Nat2Z.inj_succ, <- Z.add_1_r. ring.
Qed.

Lemma cumsum_last a q qs :
  last (cumsum_from (Fin a) (map Fin (q :: qs))) = Some (Fin (a + total (q :: qs))).
Proof.
  revert a q. induction qs as [|q' qs IH]; intros a q.
  - simpl. do 2 f_equal. ring.
  - change (map Fin (q :: q' :: qs)) with (Fin q :: map Fin (q' :: qs)).
    cbn [cumsum_from]. rewrite last_cons.
    change (Num.add (Fin a) (Fin q)) with (Fin (a + q)). rewrite IH.
    simpl. do 2 f_equal. ring.
Qed.

Lemma sgn_pos q : 0 < q → sgn q = Gt.
Proof. intros H. unfold sgn. by apply Qcgt_alt. Qed.

(** The expression of the source is the formula. *)
Lemma gini_of_Fin qs :
  qs ≠ [] → 0 < total qs → gini_of (map Fin qs) = Ok (Fin (gini_formula qs)).
Proof.
  intros Hne HS. destruct qs as [|q qs]; [done|].
  unfold gini_of, cumsum, ranks, Num.sum, zero, of_Z, last_item.
  pose proof (weighted_Fin 0 1 (q :: qs)) as Hw. unfold of_Z in Hw.
  rewrite Qc_of_Z_0, cumsum_last, length_map, Hw.
  unfold mbind, result_bind. f_equal.
  replace (0 + total (q :: qs)) with (total (q :: qs)) by ring.
  replace (0 + weighted_from (Z.of_nat 1) (q :: qs)) with (weighted_from 1 (q :: qs))
    by (change (Z.of_nat 1) with 1%Z; ring).
  pose proof (Qc_of_nat_pos (q :: qs) Hne) as Hn.
  unfold gini_formula. cbv zeta.
  revert Hn HS. generalize (Qc_of_Z (Z.of_nat (length (q :: qs)))). intros n.
  generalize (total (q :: qs)). intros S.
  generalize (weighted_from 1 (q :: qs)). intros W. intros Hn HS.
  cbn [Num.mul Num.div Num.sub Num.add neg].
  rewrite (sgn_pos (n * S)) by (by apply Qcmult_pos_pos).
  by rewrite (sgn_pos n).
Qed.

Lemma eval_run {A} (f : DataFrame → result A) df w t :
  heap w !! df = Some t → eval df f w = (f t, w).
Proof.
  intros Hdf. unfold eval, mbind, M_bind, deref, lift. rewrite Hdf.
  by destruct (f t).
Qed.

Lemma concentration_run df value_col w t :
  heap w !! df = Some t → value_col ∈ columns t →
  calculate_concentration_index df value_col w
  = (gini_of (sort_values (column_values t value_col)), w).
Proof.
  intros Hdf Hcol. unfold calculate_concentration_index.
  rewrite (eval_run _ df w t Hdf). f_equal.
  unfold getitem, has_column. rewrite bool_decide_eq_true_2 by done.
  unfold column_values. simpl. by rewrite map_map.
Qed.

Lemma gini_all_zero qs :
  qs ≠ [] → Forall (eq 0) qs → gini_of (sort_values (map Fin qs)) = Ok NaN.
Proof.
  intros Hne Hz. destruct (sort_values_Fin qs) as (sorted & -> & Hp & _).
  assert (Forall (eq 0) sorted) as Hz' by (by rewrite Hp).
  assert (sorted ≠ []) as Hne'.
  { intros ->. by apply Permutation_nil_l in Hp. }
  clear Hp Hz Hne. destruct sorted as [|q qs']; [done|].
  assert (total (q :: qs') = 0) as HS.
  { clear Hne'. induction Hz' as [|x l <- _ IH]; simpl; [done|]. rewrite IH. ring. }
  assert (∀ i, weighted_from i (q :: qs') = 0) as HW.
  { clear Hne' HS. induction Hz' as [|x l <- _ IH]; intros i; simpl; [done|].
    rewrite IH. ring. }
  unfold gini_of, cumsum, ranks, Num.sum, zero, of_Z, last_item.
  pose proof (weighted_Fin 0 1 (q :: qs')) as Hw. unfold of_Z in Hw.
  rewrite Qc_of_Z_0, cumsum_last, length_map, Hw, HS, HW.
  unfold mbind, result_bind. f_equal.
Qed.

Lemma weighted_replicate i n c :
  2 * weighted_from i (replicate n c)
  = c * Qc_of_Z (Z.of_nat n) * (2 * Qc_of_Z i + Qc_of_Z (Z.of_nat n) - 1).
Proof.
  revert i. induction n as [|n IH]; intros i.
  - change (Z.of_nat 0) with 0%Z. rewrite Qc_of_Z_0. simpl. ring.
  - rewrite Qc_of_nat_S. cbn [replicate weighted_from].
    rewrite Qcmult_plus_distr_r, IH, Qc_of_Z_add, Qc_of_Z_1. ring.
Qed.

Lemma total_replicate n c : total (replicate n c) = Qc_of_Z (Z.of_nat n) * c.
Proof.
  induction n as [|n IH].
  - change (Z.of_nat 0) with 0%Z. rewrite Qc_of_Z_0. simpl. ring.
  - rewrite Qc_of_nat_S. cbn [replicate total foldr]. fold (total (replicate n c)).
    rewrite IH. ring.
Qed.

(** Equal values: the coefficient is 0. *)
Lemma gini_uniform n c : 0 < c → gini_formula (replicate (S n) c) = 0.
Proof.
  intros Hc. unfold gini_formula. cbv zeta.
  rewrite Qc_of_Z_2, weighted_replicate, total_replicate, length_replicate.
  rewrite Qc_of_Z_add, Qc_of_Z_1.
  pose proof (Qc_of_nat_pos (replicate (S n) c)) as Hn.
  rewrite length_replicate in Hn. specialize (Hn ltac:(done)).
  apply Qclt_not_0 in Hn, Hc. revert Hn.
  generalize (Qc_of_Z (Z.of_nat (S n))). intros m Hm. by field.
Qed.

Lemma Forall_eq_replicate {A} (c : A) l : Forall (eq c) l → l = replicate (length l) c.
Proof. induction 1 as [|x l <- _ IH]; simpl; [done|]. by rewrite <- IH. Qed.

Lemma Ok_Fin_inj (a b : Qc) : Ok (Fin a) = Ok (Fin b) → a = b.
Proof. by intros [= ->]. Qed.


Lemma Qc_of_Z_nonneg n : (0 ≤ n)%Z → 0 ≤ Qc_of_Z n.
Proof. intros Hn. to_Q. change 0%Q with (inject_Z 0). by rewrite <- Zle_Qle. Qed.

Lemma concentrated_values :
  column_values concentrated_table "value"
  = map Fin (Qc_of_Z 1000 :: replicate 9 (Qc_of_Z 0)).
Proof. decide_eq. Qed.



(** The examples of the specification, in any state of the store. *)
Lemma gini_examples df w :
  (heap w !! df = Some uniform_table →
   calculate_concentration_index df "value" w = (Ok (of_Z 0), w))
  ∧ (heap w !! df = Some concentrated_table →
     calculate_concentration_index df "value" w
     = (Ok (Fin (Qc_of_Z 9 / Qc_of_Z 10)), w))
  ∧ (heap w !! df = Some zero_table →
     calculate_concentration_index df "value" w = (Ok NaN, w))
  ∧ (heap w !! df = Some empty_table →
     calculate_concentration_index df "value" w = (Raise IndexError, w)).
Proof.
  split_and!; intros Hdf;
    rewrite (concentration_run df "value" w _ Hdf) by apply list_elem_of_here;
    f_equal; decide_eq.
Qed.

Local Close Scope Qc_scope.

(** ** [top_n_analysis] and [geographical_aggregation] *)

Lemma derive_run f df w t t' :
  heap w !! df = Some t → f t = Ok t' →
  derive df f w
  = (Ok (fresh (dom (heap w))), set_heap (insert (fresh (dom (heap w))) t') w).
Proof.
  intros Hdf Hf. unfold derive, mbind, M_bind, deref, lift, alloc.
  by rewrite Hdf, Hf.
Qed.

Lemma getitem_present t c :
  c ∈ columns t → getitem t c = Ok (map (λ r, at_ r c) (rows t)).
Proof. intros Hc. unfold getitem, has_column. by rewrite bool_decide_eq_true_2. Qed.

Lemma agg_run {B} (f : list cell → B) t by_ val :
  by_ ∈ columns t → val ∈ columns t →
  GroupBy.agg f t by_ val
  = Ok (map (λ k, (k, f (GroupBy.group_values (map (λ r, at_ r by_) (rows t))
                                               (map (λ r, at_ r val) (rows t)) k)))
            (GroupBy.group_keys (map (λ r, at_ r by_) (rows t)))).
Proof.
  intros Hb Hv. unfold GroupBy.agg. by rewrite !getitem_present.
Qed.

Lemma desc_leb_refl x : Order.desc_leb x x = true.
Proof.
  destruct x as [q| | |]; try done.
  unfold Order.desc_leb. simpl. by apply leb_Fin, Qcle_refl.
Qed.

Lemma prefix_filter {A} (P : A → Prop) `{!∀ x, Decision (P x)} (l1 l2 : list A) :
  l1 `prefix_of` l2 → filter P l1 `prefix_of` filter P l2.
Proof. intros [k ->]. rewrite filter_app. by eexists. Qed.

(** The first of a sorted list is ranked before every element. *)
Lemma sorted_by_head {A} (leb : A → A → bool) x l y :
  (∀ z, leb z z = true) → sorted_by leb l → head l = Some x → y ∈ l →
  leb x y = true.
Proof.
  intros Hrefl Hs Hh Hy. destruct l as [|x' l]; [done|].
  injection Hh as ->. destruct Hs as [Hx _].
  apply elem_of_cons in Hy as [->|Hy]; [done|].
  by apply (proj1 (Forall_forall _ _) Hx).
Qed.

Lemma head_take {A} n (l : list A) x : head (take n l) = Some x → head l = Some x.
Proof. by destruct n, l. Qed.

Lemma sort_desc_sorted {K} (l : list (K * num)) :
  sorted_by (λ a b, Order.desc_leb a.2 b.2) (sort_desc l).
Proof.
  apply stable_sort_sorted.
  - intros x y. apply desc_leb_total.
  - intros x y z. apply desc_leb_trans.
Qed.

(** The entry of the sum in a row of the aggregate. *)
Lemma at_sum_name level value_col k s m c :
  level ≠ sum_name value_col →
  at_ (list_to_map (zip [level; sum_name value_col; mean_name value_col; "count"]
                        [k; VNum s; VNum m; VInt c]))
      (sum_name value_col) = VNum s.
Proof.
  intros Hne. unfold at_. simpl.
  by rewrite lookup_insert_ne, lookup_insert_eq.
Qed.

Lemma nlargest_spec {K} `{EqDecision K} n (sums : list (K * num)) :
  let top := nlargest n sums in
  sorted_by (λ a b, Order.desc_leb a.2 b.2) top
  ∧ length top = (Z.to_nat n `min` length sums)%nat
  ∧ (∀ e, e ∈ top → e ∈ sums)
  ∧ (∀ v, filter (λ e, e.2 = v) top `prefix_of` filter (λ e, e.2 = v) sums)
  ∧ (∀ e e', head top = Some e → e' ∈ sums → Order.desc_leb e.2 e'.2 = true).
Proof.
  unfold nlargest. split_and!.
  - apply sorted_by_take, sort_desc_sorted.
  - unfold sort_desc. by rewrite length_take, stable_sort_length.
  - intros e He. apply elem_of_take in He as (i & He & _).
    apply list_elem_of_lookup_2 in He. unfold sort_desc in He.
    by rewrite stable_sort_perm in He.
  - intros v.
    rewrite <- (stable_sort_filter (λ a b, Order.desc_leb a.2 b.2) (λ e, e.2 = v) sums).
    + apply prefix_filter, prefix_take.
    + intros x y -> ->. apply desc_leb_refl.
  - intros e e' Hh He'. apply head_take in Hh.
    apply (sorted_by_head (λ a b, Order.desc_leb a.2 b.2) e (sort_desc sums) e').
    + intros z. apply desc_leb_refl.
    + apply sort_desc_sorted.
    + done.
    + unfold sort_desc. by rewrite stable_sort_perm.
Qed.

Lemma alloc_lookup w t' :
  heap (set_heap (insert (fresh (dom (heap w))) t') w) !! fresh (dom (heap w))
  = Some t'.
Proof. simpl. by rewrite lookup_insert_eq. Qed.

(** The sums of the aggregate are the sums of the groups. *)
Lemma geographical_sums df level value_col w t :
  heap w !! df = Some t → level ∈ columns t → value_col ∈ columns t →
  level ≠ sum_name value_col →
  ∃ sums l w' t',
    GroupBy.agg GroupBy.sum t level value_col = Ok sums
    ∧ geographical_aggregation df level value_col w = (Ok l, w')
    ∧ heap w' !! l = Some t'
    ∧ sums_of t' value_col ≡ₚ map snd sums.
Proof.
  intros Hdf Hl Hv Hne. eexists _, _, _, _. split_and!.
  - by apply agg_run.
  - unfold geographical_aggregation. apply (derive_run _ df w t); [done|].
    rewrite agg_run by done. reflexivity.
  - apply alloc_lookup.
  - unfold sums_of, column_values, frame_of. cbn [rows].
    rewrite !map_map.
    erewrite map_ext; [|intros g; cbn beta; by rewrite at_sum_name].
    rewrite stable_sort_perm. by rewrite !map_map.
Qed.


Lemma states_table_numeric : numeric_column states_table "count".
Proof. apply numeric_column_check. vm_compute. reflexivity. Qed.


(** The two first of the three states with the sum 7, in the order of
    their names. *)
Lemma top_n_example w df :
  heap w !! df = Some states_table →
  ∃ l w', top_n_analysis df "state" "count" 2 w = (Ok l, w')
    ∧ heap w' !! l
      = Some (frame_of ["state"; "total_count"]
                [[VStr "Assam"; VNum (of_Z 7)]; [VStr "Bihar"; VNum (of_Z 7)]]).
Proof.
  intros Hdf. eexists _, _. split.
  - unfold top_n_analysis.
    apply (derive_run _ df w states_table
             (frame_of ["state"; "total_count"]
                [[VStr "Assam"; VNum (of_Z 7)]; [VStr "Bihar"; VNum (of_Z 7)]]));
      [done|decide_eq].
  - apply alloc_lookup.
Qed.

(** ** [calculate_update_ratio] *)

Lemma at_key_absent (s : list (cell * num)) k : k ∉ map fst s → at_key s k = NaN.
Proof.
  intros Hk. unfold at_key.
  destruct (filter (λ e, e.1 = k) s) as [|e l] eqn:Hf; [done|].
  assert (e ∈ filter (λ e, e.1 = k) s) as He by (rewrite Hf; apply list_elem_of_here).
  apply list_elem_of_filter in He as [<- He]. destruct Hk.
  apply list_elem_of_fmap. by exists e.
Qed.

Lemma at_key_elem (s : list (cell * num)) k x :
  NoDup (map fst s) → (k, x) ∈ s → at_key s k = x.
Proof.
  unfold at_key. induction s as [|[k' x'] s IH]; intros Hnd Hin.
  - by apply elem_of_nil in Hin.
  - apply NoDup_cons in Hnd as [Hk' Hnd]. rewrite filter_cons. simpl.
    apply elem_of_cons in Hin as [[= -> ->]|Hin].
    + by rewrite decide_True.
    + rewrite decide_False; [by apply IH|].
      intros ->. apply Hk'. apply list_elem_of_fmap. by exists (k, x).
Qed.

Lemma agg_keys_NoDup {B} (f : list cell → B) t by_ val l :
  GroupBy.agg f t by_ val = Ok l → NoDup (map fst l).
Proof.
  unfold GroupBy.agg. destruct (getitem t by_) as [ks|]; [|done].
  destruct (getitem t val) as [vs|]; [|done]. simpl. intros [= <-].
  rewrite map_map. simpl. rewrite map_id.
  unfold GroupBy.group_keys. rewrite stable_sort_perm. apply NoDup_remove_dups.
Qed.

Lemma joined_at_key s k :
  NoDup (map fst s) → joined s k (fillna0 (at_key s k)).
Proof.
  intros Hnd. split.
  - intros x Hx. by rewrite (at_key_elem s k x).
  - intros Hk. by rewrite at_key_absent.
Qed.

Lemma sgn_hundred : sgn (Qc_of_Z 100) = Gt.
Proof. reflexivity. Qed.

Lemma div_zero u :
  Num.div u zero = PInf ∨ Num.div u zero = NInf ∨ Num.div u zero = NaN.
Proof.
  unfold zero, of_Z. destruct u as [p| | |]; cbn [Num.div].
  - change (sgn (Qc_of_Z 0)) with Eq. destruct (sgn p); simpl; auto.
  - change (sgn (Qc_of_Z 0)) with Eq. auto.
  - change (sgn (Qc_of_Z 0)) with Eq. auto.
  - auto.
Qed.

Lemma ratio_undefined u :
  undefined (round2 (Num.mul (Num.div u zero) hundred)).
Proof.
  unfold undefined, hundred, of_Z.
  destruct (div_zero u) as [-> | [-> | ->]]; cbn [Num.mul]; [| |done].
  - by rewrite sgn_hundred.
  - by rewrite sgn_hundred.
Qed.

(** The rows of the ratio table. *)
Lemma ratio_df_spec E U :
  NoDup (map fst E) → NoDup (map fst U) →
  map fst (ratio_df E U) ≡ₚ remove_dups (map fst E ++ map fst U)
  ∧ sorted_by (λ a b, Order.desc_leb a.2.2 b.2.2) (ratio_df E U)
  ∧ Forall (λ e, joined E e.1 e.2.1.1 ∧ joined U e.1 e.2.1.2
                 ∧ e.2.2 = round2 (Num.mul (Num.div e.2.1.2 e.2.1.1) hundred)
                 ∧ (e.2.1.1 = zero → undefined e.2.2))
           (ratio_df E U).
Proof.
  intros HE HU. unfold ratio_df, align. split_and!.
  - rewrite stable_sort_perm, !map_map. simpl. rewrite map_id.
    apply stable_sort_perm.
  - apply stable_sort_sorted.
    + intros x y. apply desc_leb_total.
    + intros x y z. apply desc_leb_trans.
  - rewrite stable_sort_perm, !map_map. apply Forall_fmap, Forall_forall.
    intros k _. simpl. split_and!; [by apply joined_at_key..|done|].
    intros ->. apply ratio_undefined.
Qed.

Lemma update_ratio_run enrolment_df update_df geo_level w te tu E U :
  heap w !! enrolment_df = Some te → heap w !! update_df = Some tu →
  GroupBy.agg GroupBy.sum te geo_level "total_enrolments" = Ok E →
  GroupBy.agg GroupBy.sum tu geo_level (update_column tu) = Ok U →
  calculate_update_ratio enrolment_df update_df geo_level w
  = alloc (frame_of [geo_level; "enrolments"; "updates"; "update_ratio"]
             (map (λ e, [e.1; VNum e.2.1.1; VNum e.2.1.2; VNum e.2.2])
                  (ratio_df E U))) w.
Proof.
  intros He Hu HE HU. unfold calculate_update_ratio, mbind, M_bind.
  rewrite (eval_run _ enrolment_df w te He), HE.
  rewrite (eval_run _ update_df w tu Hu).
  rewrite (eval_run _ update_df w tu Hu). fold (update_column tu). by rewrite HU.
Qed.


Lemma update_sums_numeric :
  numeric_column enrolment_sums_table "total_enrolments"
  ∧ numeric_column update_sums_table (update_column update_sums_table).
Proof. split; apply numeric_column_check; vm_compute; reflexivity. Qed.


(** The example of the specification: StateA has the ratio 50, StateB,
    with no enrolment, the ratio [+inf]; StateB comes first. *)
Lemma update_ratio_example w enrolment_df update_df :
  heap w !! enrolment_df = Some enrolment_sums_table →
  heap w !! update_df = Some update_sums_table →
  ∃ l w', calculate_update_ratio enrolment_df update_df "state" w = (Ok l, w')
          ∧ heap w' !! l = Some ratio_table.
Proof.
  intros He Hu. eexists _, _. split.
  - rewrite (update_ratio_run _ _ "state" w _ _
               [(VStr "StateA", of_Z 100); (VStr "StateB", of_Z 0)]
               [(VStr "StateA", of_Z 50); (VStr "StateB", of_Z 10)] He Hu);
      [reflexivity|decide_eq|decide_eq].
  - rewrite alloc_lookup. f_equal. decide_eq.
Qed.

(** ** [bivariate_analysis] *)

Section Bivariate.
Variable pearson_stat spearman_stat : list num → list num → num * num.

Lemma bivariate_run df col1 col2 w t :
  heap w !! df = Some t → col1 ∈ columns t → col2 ∈ columns t →
  let x := dropna_values (map (λ r, at_ r col1) (rows t)) in
  let y := dropna_values (map (λ r, at_ r col2) (rows t)) in
  bivariate_analysis pearson_stat spearman_stat df col1 col2 w
  = (if bool_decide (length x = length y) then
       if bool_decide (2 ≤ length x)%nat then
         Ok (analysis_of pearson_stat spearman_stat x y)
       else Raise ValueError
     else Raise ValueError, w).
Proof.
  intros Hdf H1 H2 x y. unfold bivariate_analysis, mbind, M_bind.
  rewrite !(eval_run _ df w t Hdf), !getitem_present by done. simpl.
  fold x y. unfold lift, pearsonr, spearmanr.
  destruct (bool_decide (length x = length y)) eqn:Hlen; [|done].
  destruct (bool_decide (2 ≤ length x)%nat); [|done].
  rewrite !(eval_run _ df w t Hdf), !getitem_present by done. simpl.
  fold x y. by rewrite Hlen.
Qed.

Lemma bivariate_over_pairs_run df col1 col2 w t :
  heap w !! df = Some t → col1 ∈ columns t → col2 ∈ columns t →
  let pairs := paired_values (map (λ r, at_ r col1) (rows t))
                             (map (λ r, at_ r col2) (rows t)) in
  bivariate_over_pairs pearson_stat spearman_stat df col1 col2 w
  = (if bool_decide (2 ≤ length pairs)%nat then
       Ok (analysis_of pearson_stat spearman_stat (map fst pairs) (map snd pairs))
     else Raise ValueError, w).
Proof.
  intros Hdf H1 H2 pairs. unfold bivariate_over_pairs, mbind, M_bind.
  rewrite !(eval_run _ df w t Hdf), !getitem_present by done. simpl.
  fold pairs. unfold lift, pearsonr, spearmanr.
  rewrite !length_map, !bool_decide_eq_true_2 by done.
  by destruct (bool_decide (2 ≤ length pairs)%nat).
Qed.

Lemma paired_values_together s1 s2 :
  length s1 = length s2 → missing_together s1 s2 →
  map fst (paired_values s1 s2) = dropna_values s1
  ∧ map snd (paired_values s1 s2) = dropna_values s2.
Proof.
  unfold paired_values, dropna_values, missing_together.
  revert s2. induction s1 as [|a s1 IH]; intros [|b s2] Hlen Hm; try done.
  simpl in Hlen. injection Hlen as Hlen.
  apply Forall_cons in Hm as [Hab Hm]. simpl in Hab.
  specialize (IH s2 Hlen Hm) as [IH1 IH2].
  cbn [zip zip_with]. rewrite !filter_cons. cbn [fst snd].
  destruct (isnull a) eqn:Ha, (isnull b) eqn:Hb; try done.
  rewrite decide_True by done. rewrite !decide_True by done.
  cbn [map fst snd]. by rewrite IH1, IH2.
Qed.

(** On a table in which the two fields are missing in the same rows, the
    analysis is the one over the rows that have both. *)
Lemma bivariate_on_rows_missing_together df col1 col2 w t :
  heap w !! df = Some t → col1 ∈ columns t → col2 ∈ columns t →
  missing_together (map (λ r, at_ r col1) (rows t)) (map (λ r, at_ r col2) (rows t)) →
  bivariate_analysis pearson_stat spearman_stat df col1 col2 w
  = bivariate_over_pairs pearson_stat spearman_stat df col1 col2 w.
Proof.
  intros Hdf H1 H2 Hm.
  rewrite (bivariate_run df col1 col2 w t), (bivariate_over_pairs_run df col1 col2 w t)
    by done. cbv zeta.
  assert (length (map (λ r, at_ r col1) (rows t))
          = length (map (λ r, at_ r col2) (rows t))) as Hlen.
  { rewrite !length_map. reflexivity. }
  destruct (paired_values_together _ _ Hlen Hm) as [Hx Hy].
  rewrite <- Hx, <- Hy, !length_map.
  by rewrite (bool_decide_eq_true_2 (length _ = length _)).
Qed.

End Bivariate.

(** C5 does not hold: [dropna] is applied to each column on its own.  With
    one value of [a] missing the two samples have different lengths and
    [pearsonr] raises [ValueError]; with one value missing in each column,
    in different rows, the values 1, 2, 3 of [a] are paired with the values
    1, 2, 3 of [b], which stand in other rows, where the rows that have both
    fields give the pairs (1, 2), (2, 3). *)
Theorem bivariate_analysis_drops_each_column_alone
    (pearson_stat spearman_stat : list num → list num → num * num) :
  (bivariate_analysis pearson_stat spearman_stat 0%nat "a" "b"
     (Example.session unequal_table)).1
  = Raise ValueError
  ∧ (bivariate_over_pairs pearson_stat spearman_stat 0%nat "a" "b"
       (Example.session unequal_table)).1
    = Ok (analysis_of pearson_stat spearman_stat
            [of_Z 1; of_Z 2; of_Z 3] [of_Z 2; of_Z 3; of_Z 4])
  ∧ (bivariate_analysis pearson_stat spearman_stat 0%nat "a" "b"
       (Example.session shifted_table)).1
    = Ok (analysis_of pearson_stat spearman_stat
            [of_Z 1; of_Z 2; of_Z 3] [of_Z 1; of_Z 2; of_Z 3])
  ∧ (bivariate_over_pairs pearson_stat spearman_stat 0%nat "a" "b"
       (Example.session shifted_table)).1
    = Ok (analysis_of pearson_stat spearman_stat
            [of_Z 1; of_Z 2] [of_Z 2; of_Z 3]).
Proof.
  split_and!; vm_compute; reflexivity.
Qed.


(** ** Which calls write to the table they are given *)

Lemma assign_run df c rhs w t s t' :
  heap w !! df = Some t → rhs t = Ok s → setitem t c s = Ok t' →
  assign df c rhs w = (Ok (), set_heap (insert df t') w).
Proof.
  intros Hdf Hr Hs. unfold assign, mbind, M_bind, deref, lift, store.
  by rewrite Hdf, Hr, Hs.
Qed.

Lemma eval_snd {A} (f : DataFrame → result A) df w : (eval df f w).2 = w.
Proof.
  unfold eval, mbind, M_bind, deref, lift.
  destruct (heap w !! df) as [t|]; [|done]. by destruct (f t).
Qed.

Lemma lift_bind_snd {A B} (r : result A) (k : A → M B) w :
  (∀ a, (k a w).2 = w) → ((lift r ≫= k) w).2 = w.
Proof.
  intros Hk. unfold mbind, M_bind, lift. destruct r as [a|e]; [|done].
  specialize (Hk a). by destruct (k a w) as [[b|e] w'].
Qed.

Lemma detect_seasonality_heap sqrt df value_col w t s t' :
  heap w !! df = Some t →
  (s' ← getitem t "date"; Series.dt Date.month s') = Ok s →
  setitem t "month" s = Ok t' →
  (detect_seasonality sqrt df value_col w).2 = set_heap (insert df t') w.
Proof.
  intros Hdf Hs Ht. unfold detect_seasonality.
  unfold mbind at 1. unfold M_bind.
  rewrite (assign_run df "month" _ w t s t' Hdf Hs Ht).
  set (w1 := set_heap (insert df t') w).
  unfold mbind at 1. unfold M_bind.
  pose proof (eval_snd (λ t0, GroupBy.agg GroupBy.mean t0 "month" value_col) df w1) as He.
  destruct (eval df _ w1) as [[avg|e] w2]; simpl in He; subst w2; [|done].
  apply lift_bind_snd. intros peak. apply lift_bind_snd. by intros low.
Qed.

(** C8 does not hold for [detect_seasonality]: it assigns the column
    [month] to the table it is given.  When that table has a column [date]
    of dates and no column [month], the object the caller holds has one
    more column after the call, whatever the call returns. *)
Theorem detect_seasonality_writes_month sqrt df value_col w t :
  heap w !! df = Some t → "date" ∈ columns t →
  forallb Series.is_datetime (map (λ r, at_ r "date") (rows t)) = true →
  "month" ∉ columns t →
  ∃ t', heap (detect_seasonality sqrt df value_col w).2 !! df = Some t'
        ∧ columns t' = columns t ++ ["month"]
        ∧ t' ≠ t.
Proof.
  intros Hdf Hdate Hdt Hmonth.
  set (s := map (λ v, match v with VDate d => VInt (Date.month d) | _ => VNum NaN end)
                (map (λ r, at_ r "date") (rows t))).
  assert ((s' ← getitem t "date"; Series.dt Date.month s') = Ok s) as Hs.
  { rewrite getitem_present by done. simpl. unfold Series.dt. by rewrite Hdt. }
  assert (∃ t', setitem t "month" s = Ok t') as [t' Ht].
  { unfold setitem. rewrite bool_decide_eq_true_2; [by eexists|].
    unfold s. by rewrite !length_map. }
  exists t'. rewrite (detect_seasonality_heap sqrt df value_col w t s t' Hdf Hs Ht).
  assert (columns t' = columns t ++ ["month"]) as Hcols.
  { unfold setitem in Ht. case_bool_decide; [|done]. injection Ht as <-. simpl.
    unfold has_column. by rewrite bool_decide_eq_false_2. }
  split_and!.
  - simpl. by rewrite lookup_insert_eq.
  - done.
  - intros ->. apply (f_equal length) in Hcols. rewrite length_app in Hcols.
    simpl in Hcols. lia.
Qed.

(** The statement does not depend on the square root: the witness takes
    the identity for it. *)
Lemma detect_seasonality_witness :
  ∃ t', heap (detect_seasonality (λ x, x) 0%nat "value"
                (Example.session daily_table)).2 !! 0%nat = Some t'
        ∧ columns t' = columns daily_table ++ ["month"]
        ∧ t' ≠ daily_table.
Proof.
  apply (detect_seasonality_writes_month (λ x, x) 0%nat "value"
           (Example.session daily_table) daily_table).
  - reflexivity.
  - apply list_elem_of_here.
  - reflexivity.
  - intros H. apply elem_of_cons in H as [H|H]; [discriminate H|].
    apply elem_of_cons in H as [H|H]; [discriminate H|].
    by apply elem_of_nil in H.
Defined.

(** The table of the caller after the call, on the example. *)
Lemma detect_seasonality_example sqrt w df :
  heap w !! df = Some daily_table →
  heap (detect_seasonality sqrt df "value" w).2 !! df = Some daily_table_after.
Proof.
  intros Hdf.
  rewrite (detect_seasonality_heap sqrt df "value" w daily_table
             [VInt 1; VInt 2] daily_table_after Hdf); [| decide_eq | decide_eq].
  simpl. by rewrite lookup_insert_eq.
Qed.

(** * Further properties *)

(** ** Calls that leave the tables alone *)

Lemma leaves_ret {A} (a : A) : leaves_tables (mret a).
Proof. by intros w0 w Hs. Qed.

Lemma leaves_lift {A} (r : result A) : leaves_tables (lift r).
Proof. by intros w0 w Hs. Qed.

Lemma leaves_bind {A B} (m : M A) (k : A → M B) :
  leaves_tables m → (∀ a, leaves_tables (k a)) → leaves_tables (m ≫= k).
Proof.
  intros Hm Hk w0 w Hs. specialize (Hm w0 w Hs).
  unfold mbind, M_bind. destruct (m w) as [[a|e] w1]; simpl in *; [|done].
  by apply Hk.
Qed.

Lemma leaves_eval {A} (f : DataFrame → result A) df : leaves_tables (eval df f).
Proof. intros w0 w Hs. by rewrite eval_snd. Qed.

Lemma leaves_alloc t : leaves_tables (alloc t).
Proof.
  intros w0 w Hs. unfold alloc. simpl.
  apply stable_insert_new; [done|]. by apply fresh_not_old.
Qed.

Lemma leaves_derive df f : leaves_tables (derive df f).
Proof.
  unfold derive. apply leaves_bind.
  - intros w0 w Hs. unfold deref. by destruct (heap w !! df).
  - intros t. apply leaves_bind; [apply leaves_lift|]. intros t'. apply leaves_alloc.
Qed.

(** An assignment to an object made since [w0]. *)
Lemma assign_new_stable w0 w l c rhs :
  stable w0 w → l ∉ dom (heap w0) → stable w0 (assign l c rhs w).2.
Proof.
  intros Hs Hl. unfold assign, mbind, M_bind, deref, lift, store.
  destruct (heap w !! l) as [t|]; [|done].
  destruct (rhs t) as [s|]; [|done]. destruct (setitem t c s) as [t'|]; [|done].
  simpl. by apply stable_insert_new.
Qed.

Lemma leaves_growth_rate pad df value_col periods :
  leaves_tables (calculate_growth_rate pad df value_col periods).
Proof.
  intros w0 w Hs. unfold calculate_growth_rate, copy, mbind, M_bind, deref, alloc.
  destruct (heap w !! df) as [t|]; [|done].
  set (l := fresh (dom (heap w))). set (w1 := set_heap (insert l t) w).
  assert (l ∉ dom (heap w0)) as Hl by (by apply fresh_not_old).
  assert (stable w0 w1) as Hs1 by (by apply stable_insert_new).
  pose proof (assign_new_stable w0 w1 l (growth_name value_col)
                (λ t, s ← getitem t value_col;
                      Ok (map (λ g, VNum (Num.mul g hundred))
                              (pct_change pad periods (map to_num s)))) Hs1 Hl) as Ha.
  destruct (assign l _ _ w1) as [[[]|e] w2]; exact Ha.
Qed.

(** Every operation of the analyzer but [detect_seasonality] leaves the
    tables that exist when it is called, and the cleaning report, as they
    are, whether it returns or raises. *)
Theorem analyzer_calls_leave_tables
    (pearson_stat spearman_stat : list num → list num → num * num) (pad : bool)
    (df df' : loc) (c c' : string) (n : Z) :
  leaves_tables (bivariate_analysis pearson_stat spearman_stat df c c')
  ∧ leaves_tables (geographical_aggregation df c c')
  ∧ leaves_tables (calculate_growth_rate pad df c n)
  ∧ leaves_tables (top_n_analysis df c c' n)
  ∧ leaves_tables (calculate_update_ratio df df' c)
  ∧ leaves_tables (calculate_concentration_index df c).
Proof.
  split_and!.
  - unfold bivariate_analysis.
    repeat first [apply leaves_ret | apply leaves_eval | apply leaves_lift
                 | apply leaves_bind; [|intros ?]].
  - apply leaves_derive.
  - apply leaves_growth_rate.
  - apply leaves_derive.
  - unfold calculate_update_ratio.
    repeat first [apply leaves_alloc | apply leaves_eval
                 | apply leaves_bind; [|intros ?]].
  - apply leaves_eval.
Qed.

(** ** The cleaning report *)

Lemma cleaning_run_report fr ns cat op df w l w' :
  (cat, op) ∈ cleaning_operations fr ns →
  op df w = (Ok l, w') →
  ∃ t t' zero,
    heap w !! df = Some t ∧ heap w' !! l = Some t'
    ∧ cleaning_report w'
      = <[report_key cat :=
            report_entry cat (len t) (len t') (invalid_date_rows t) zero]>
          (cleaning_report w).
Proof.
  intros Hop Hrun. pose proof (cleaning_operation_spec fr ns cat op df w Hop) as H.
  unfold wp in H. rewrite Hrun in H.
  destruct H as (_ & t & t' & z & ? & _ & ? & _ & ?). eauto 10.
Qed.

(** The entry a cleaning method stores describes its run: [initial_rows]
    is the number of rows of the raw table, [final_rows] the number of rows
    of the table returned, [rows_removed] their difference, and
    [invalid_dates] the number of raw rows whose date does not read as a
    date of the format. *)
Theorem report_entry_describes_the_run fr ns cat op df w l w' :
  (cat, op) ∈ cleaning_operations fr ns →
  op df w = (Ok l, w') →
  ∃ t t' entry,
    heap w !! df = Some t ∧ heap w' !! l = Some t'
    ∧ (get_cleaning_report w').1 = Ok (<[report_key cat := entry]> (cleaning_report w))
    ∧ entry !! "initial_rows" = Some (len t)
    ∧ entry !! "final_rows" = Some (len t')
    ∧ entry !! "rows_removed" = Some (len t - len t')
    ∧ entry !! "invalid_dates" = Some (invalid_date_rows t)
    ∧ is_Some (entry !! zero_key cat).
Proof.
  intros Hop Hrun.
  destruct (cleaning_run_report fr ns cat op df w l w' Hop Hrun)
    as (t & t' & z & Ht & Ht' & Hrep).
  exists t, t'. eexists. split_and!; [done|done| | | | | |].
  - unfold get_cleaning_report. simpl. by rewrite Hrep.
  - unfold report_entry. by rewrite lookup_insert_eq.
  - unfold report_entry. rewrite lookup_insert_ne by done. by rewrite lookup_insert_eq.
  - unfold report_entry. rewrite !lookup_insert_ne by done. by rewrite lookup_insert_eq.
  - unfold report_entry. rewrite !lookup_insert_ne by done. by rewrite lookup_insert_eq.
  - assert (zero_key cat = "zero_enrolments" ∨ zero_key cat = "zero_updates") as Hz.
    { unfold cleaning_operations in Hop.
      repeat (apply elem_of_cons in Hop as [[= -> _]|Hop]; [simpl; auto|]).
      by apply elem_of_nil in Hop. }
    unfold report_entry.
    destruct Hz as [-> | ->]; rewrite !lookup_insert_ne by done;
      rewrite lookup_insert_eq; by eexists.
Qed.

Lemma report_entry_witness :
  ∃ t t' entry,
    heap (Example.session Example.raw_table) !! 0%nat = Some t
    ∧ heap (clean_enrolment_data Example.integral_repr Example.number_of_digits
              0%nat (Example.session Example.raw_table)).2 !! 4%nat = Some t'
    ∧ (get_cleaning_report
         (clean_enrolment_data Example.integral_repr Example.number_of_digits
            0%nat (Example.session Example.raw_table)).2).1
      = Ok (<[report_key enrolment := entry]>
              (cleaning_report (Example.session Example.raw_table)))
    ∧ entry !! "initial_rows" = Some (len t)
    ∧ entry !! "final_rows" = Some (len t')
    ∧ entry !! "rows_removed" = Some (len t - len t')
    ∧ entry !! "invalid_dates" = Some (invalid_date_rows t)
    ∧ is_Some (entry !! zero_key enrolment).
Proof.
  apply (report_entry_describes_the_run
           Example.integral_repr Example.number_of_digits enrolment
           (clean_enrolment_data Example.integral_repr Example.number_of_digits)
           0%nat (Example.session Example.raw_table)).
  - left.
  - apply run_eq. vm_compute. reflexivity.
Defined.

(** Two cleaning calls one after the other: the report holds the entry of
    each under its category, the later one when the categories are the same;
    the entries of other categories stay. *)
Theorem cleaning_reports_accumulate fr ns cat1 op1 cat2 op2 df1 df2 w l1 w1 l2 w2 :
  (cat1, op1) ∈ cleaning_operations fr ns →
  (cat2, op2) ∈ cleaning_operations fr ns →
  op1 df1 w = (Ok l1, w1) → op2 df2 w1 = (Ok l2, w2) →
  ∃ e1 e2,
    cleaning_report w1 = <[report_key cat1 := e1]> (cleaning_report w)
    ∧ cleaning_report w2
      = <[report_key cat2 := e2]> (<[report_key cat1 := e1]> (cleaning_report w))
    ∧ cleaning_report w2 !! report_key cat2 = Some e2
    ∧ (report_key cat1 ≠ report_key cat2 →
       cleaning_report w2 !! report_key cat1 = Some e1)
    ∧ (∀ k, k ≠ report_key cat1 → k ≠ report_key cat2 →
       cleaning_report w2 !! k = cleaning_report w !! k).
Proof.
  intros Hop1 Hop2 Hrun1 Hrun2.
  destruct (cleaning_run_report fr ns cat1 op1 df1 w l1 w1 Hop1 Hrun1)
    as (t1 & t1' & z1 & _ & _ & Hrep1).
  destruct (cleaning_run_report fr ns cat2 op2 df2 w1 l2 w2 Hop2 Hrun2)
    as (t2 & t2' & z2 & _ & _ & Hrep2).
  eexists _, _. split_and!; [exact Hrep1| | | |].
  - by rewrite Hrep2, Hrep1.
  - by rewrite Hrep2, lookup_insert_eq.
  - intros Hne. rewrite Hrep2, lookup_insert_ne by done.
    by rewrite Hrep1, lookup_insert_eq.
  - intros k Hk1 Hk2. rewrite Hrep2, lookup_insert_ne by done.
    by rewrite Hrep1, lookup_insert_ne.
Qed.

Lemma cleaning_reports_witness :
  let op1 := clean_enrolment_data Example.integral_repr Example.number_of_digits in
  let op2 := clean_demographic_data Example.integral_repr Example.number_of_digits in
  let w := session2 Example.raw_table raw_demographic in
  let w1 := (op1 0%nat w).2 in
  let w2 := (op2 1%nat w1).2 in
  ∃ e1 e2,
    cleaning_report w1 = <[report_key enrolment := e1]> (cleaning_report w)
    ∧ cleaning_report w2
      = <[report_key demographic := e2]>
          (<[report_key enrolment := e1]> (cleaning_report w))
    ∧ cleaning_report w2 !! report_key demographic = Some e2
    ∧ (report_key enrolment ≠ report_key demographic →
       cleaning_report w2 !! report_key enrolment = Some e1)
    ∧ (∀ k, k ≠ report_key enrolment → k ≠ report_key demographic →
       cleaning_report w2 !! k = cleaning_report w !! k).
Proof.
  apply (cleaning_reports_accumulate
           Example.integral_repr Example.number_of_digits
           enrolment (clean_enrolment_data Example.integral_repr Example.number_of_digits)
           demographic (clean_demographic_data Example.integral_repr Example.number_of_digits)
           0%nat 1%nat (session2 Example.raw_table raw_demographic) 5%nat _ 9%nat).
  - left.
  - right. left.
  - apply run_eq. vm_compute. reflexivity.
  - apply run_eq. vm_compute. reflexivity.
Defined.

(** ** Cleaning a table that lacks a column *)

Lemma clean_without_date fr ns cat df w t :
  heap w !! df = Some t → "date" ∉ columns t →
  (clean fr ns cat df w).1 = Raise (KeyError "date").
Proof.
  intros Hdf Hdate. unfold clean, copy, mbind, M_bind, deref, alloc.
  rewrite Hdf. cbn [fst snd].
  set (l := fresh (dom (heap w))). set (w1 := set_heap (insert l t) w).
  assert (heap w1 !! l = Some t) as Hl by (simpl; by rewrite lookup_insert_eq).
  rewrite (eval_run _ l w1 t Hl). simpl.
  unfold assign, mbind, M_bind, deref, lift. rewrite Hl.
  unfold getitem, has_column. by rewrite bool_decide_eq_false_2.
Qed.

(** A raw table without the column [date]: the cleaning method raises
    [KeyError('date')], stores no entry in the report and changes no table. *)
Theorem cleaning_needs_the_date_column fr ns cat op df w t :
  (cat, op) ∈ cleaning_operations fr ns →
  heap w !! df = Some t → "date" ∉ columns t →
  (op df w).1 = Raise (KeyError "date")
  ∧ cleaning_report (op df w).2 = cleaning_report w
  ∧ ∀ l, l ∈ dom (heap w) → heap (op df w).2 !! l = heap w !! l.
Proof.
  intros Hop Hdf Hdate.
  assert ((op df w).1 = Raise (KeyError "date")) as Hr.
  { unfold cleaning_operations in Hop.
    repeat (apply elem_of_cons in Hop as [[= -> ->]|Hop];
            [by apply (clean_without_date fr ns _ df w t)|]).
    by apply elem_of_nil in Hop. }
  pose proof (cleaning_operation_spec fr ns cat op df w Hop) as [Hh Hrep].
  rewrite Hr in Hrep. done.
Qed.

Lemma cleaning_needs_the_date_witness :
  let op := clean_enrolment_data Example.integral_repr Example.number_of_digits in
  let w := Example.session undated_table in
  (op 0%nat w).1 = Raise (KeyError "date")
  ∧ cleaning_report (op 0%nat w).2 = cleaning_report w
  ∧ ∀ l, l ∈ dom (heap w) → heap (op 0%nat w).2 !! l = heap w !! l.
Proof.
  apply (cleaning_needs_the_date_column
           Example.integral_repr Example.number_of_digits enrolment
           (clean_enrolment_data Example.integral_repr Example.number_of_digits)
           0%nat (Example.session undated_table) undated_table).
  - left.
  - reflexivity.
  - intros H. repeat (apply elem_of_cons in H as [H|H]; [discriminate H|]).
    by apply elem_of_nil in H.
Defined.

(** ** Groups *)

Section GroupSums.
Context {X : Type} (add : X → X → X) (zero : X).
Hypothesis add_assoc : ∀ x y z, add x (add y z) = add (add x y) z.
Hypothesis add_comm : ∀ x y, add x y = add y x.
Hypothesis add_zero : ∀ x, add zero x = x.
Variable g : cell → X.

Local Abbreviation sum_of := (msum add zero g).
Local Abbreviation sum_over := (over_keys add zero).

Lemma over_keys_step (G : cell → X) k0 x K :
  NoDup K →
  sum_over (λ k, if bool_decide (k0 = k) then add x (G k) else G k) K
  = add (if bool_decide (k0 ∈ K) then x else zero) (sum_over G K).
Proof.
  induction 1 as [|k K Hk HK IH]; cbn [over_keys foldr].
  { rewrite bool_decide_eq_false_2 by apply not_elem_of_nil. by rewrite add_zero. }
  fold (sum_over (λ k, if bool_decide (k0 = k) then add x (G k) else G k) K).
  fold (sum_over G K). rewrite IH. destruct (decide (k0 = k)) as [->|Hne].
  - rewrite (bool_decide_eq_true_2 (k = k)) by done.
    rewrite (bool_decide_eq_true_2 (k ∈ k :: K)) by apply list_elem_of_here.
    rewrite (bool_decide_eq_false_2 (k ∈ K)) by done.
    by rewrite add_zero, add_assoc.
  - rewrite (bool_decide_eq_false_2 (k0 = k)) by done.
    destruct (decide (k0 ∈ K)) as [Hin|Hin].
    + rewrite (bool_decide_eq_true_2 (k0 ∈ K)) by done.
      rewrite (bool_decide_eq_true_2 (k0 ∈ k :: K)) by (by apply list_elem_of_further).
      by rewrite !add_assoc, (add_comm (G k) x).
    + rewrite (bool_decide_eq_false_2 (k0 ∈ K)) by done.
      rewrite (bool_decide_eq_false_2 (k0 ∈ k :: K)); [by rewrite !add_zero|].
      intros [?|?]%elem_of_cons; done.
Qed.

Lemma over_keys_ext (G G' : cell → X) K :
  (∀ k, G k = G' k) → sum_over G K = sum_over G' K.
Proof.
  intros H. induction K as [|k K IH]; [done|]. cbn [over_keys foldr].
  fold (sum_over G K). fold (sum_over G' K). by rewrite H, IH.
Qed.

(** The aggregates of the groups of the keys [K] add up to the aggregate
    of the rows whose key is in [K]. *)
Lemma msum_groups K ks vs :
  NoDup K → length ks = length vs →
  sum_over (λ k, sum_of (GroupBy.group_values ks vs k)) K
  = sum_of (map snd (filter (λ p, p.1 ∈ K) (zip ks vs))).
Proof.
  intros HK. revert vs. induction ks as [|k0 ks IH]; intros [|v0 vs] Hlen; try done.
  - cbn. clear -add_zero. induction K as [|k K IH]; [done|].
    cbn [over_keys foldr]. fold (sum_over (λ _, zero) K).
    by rewrite IH, add_zero.
  - simpl in Hlen. injection Hlen as Hlen. specialize (IH vs Hlen).
    cbn [zip zip_with]. rewrite filter_cons. cbn [fst].
    rewrite (over_keys_ext _
               (λ k, if bool_decide (k0 = k)
                     then add (g v0) (sum_of (GroupBy.group_values ks vs k))
                     else sum_of (GroupBy.group_values ks vs k))).
    2:{ intros k. cbn [GroupBy.group_values]. by destruct (bool_decide (k0 = k)). }
    rewrite (over_keys_step _ k0 (g v0) K HK), IH.
    destruct (decide (k0 ∈ K)) as [Hin|Hin].
    + by rewrite bool_decide_eq_true_2.
    + by rewrite bool_decide_eq_false_2, add_zero.
Qed.

End GroupSums.

Lemma length_numbers l :
  length (GroupBy.numbers l) = msum Nat.add 0%nat present_one l.
Proof.
  unfold GroupBy.numbers. induction l as [|v l IH]; [done|].
  cbn [map msum foldr]. rewrite filter_cons. unfold present_one at 1.
  destruct (isnan (to_num v)) eqn:Hv.
  - rewrite decide_False by done. exact IH.
  - rewrite decide_True by done. simpl. f_equal. exact IH.
Qed.

Lemma sum_numbers l :
  Forall (λ v, finite_or_missing (to_num v)) l →
  Num.sum (GroupBy.numbers l) = Fin (msum Qcplus 0%Qc rational_of l).
Proof.
  intros Hl.
  assert (GroupBy.numbers l
          = map Fin (map rational_of (filter (λ v, isnan (to_num v) = false) l)))
    as ->.
  { unfold GroupBy.numbers. induction Hl as [|v l Hv _ IH]; [done|].
    cbn [map]. rewrite !filter_cons. destruct (isnan (to_num v)) eqn:Hn.
    - rewrite !decide_False by done. exact IH.
    - rewrite !decide_True by done. cbn [map]. rewrite IH. f_equal.
      unfold rational_of. destruct Hv as [Hv|Hv]; [congruence|].
      by destruct (to_num v). }
  rewrite sum_Fin. f_equal.
  induction Hl as [|v l Hv _ IH]; [done|].
  rewrite filter_cons. cbn [msum foldr]. fold (msum Qcplus 0%Qc rational_of l).
  destruct (isnan (to_num v)) eqn:Hn.
  - rewrite decide_False by done. rewrite IH. unfold rational_of at 2.
    destruct (to_num v); try done. ring.
  - rewrite decide_True by done. cbn [map total foldr]. fold (total (map rational_of (filter (λ v, isnan (to_num v) = false) l))).
    by rewrite IH.
Qed.

Lemma Forall_group_values (P : cell → Prop) ks vs k :
  Forall P vs → Forall P (GroupBy.group_values ks vs k).
Proof.
  intros Hvs. revert ks.
  induction Hvs as [|v vs Hv _ IH]; intros [|k0 ks]; cbn [GroupBy.group_values];
    try apply Forall_nil_2.
  destruct (bool_decide (k0 = k)); [|apply IH].
  apply Forall_cons_2; [done|apply IH].
Qed.

Lemma group_keys_NoDup ks : NoDup (GroupBy.group_keys ks).
Proof.
  unfold GroupBy.group_keys. rewrite stable_sort_perm. apply NoDup_remove_dups.
Qed.

Lemma elem_of_group_keys ks k :
  k ∈ GroupBy.group_keys ks ↔ isnull k = false ∧ k ∈ ks.
Proof.
  unfold GroupBy.group_keys. rewrite stable_sort_perm, elem_of_remove_dups.
  rewrite list_elem_of_filter. tauto.
Qed.

(** The rows whose key is a group key are the rows whose key is present. *)
Lemma keyed_rows_filter (rs : list row) by_ val :
  map snd (filter (λ p, p.1 ∈ GroupBy.group_keys (map (λ r, at_ r by_) rs))
                  (zip (map (λ r, at_ r by_) rs) (map (λ r, at_ r val) rs)))
  = map (λ r, at_ r val) (filter (λ r, isnull (at_ r by_) = false) rs).
Proof.
  set (K := GroupBy.group_keys (map (λ r, at_ r by_) rs)).
  assert (∀ r, r ∈ rs → (at_ r by_ ∈ K ↔ isnull (at_ r by_) = false)) as HK.
  { intros r Hr. unfold K. rewrite elem_of_group_keys. split; [tauto|].
    intros Hn. split; [done|]. apply list_elem_of_fmap. by exists r. }
  clearbody K. induction rs as [|r rs IH]; [done|].
  cbn [map zip zip_with]. rewrite !filter_cons. cbn [fst].
  assert (at_ r by_ ∈ K ↔ isnull (at_ r by_) = false) as Hr
    by apply HK, list_elem_of_here.
  specialize (IH (λ r' Hr', HK r' (list_elem_of_further _ _ _ Hr'))).
  destruct (decide (at_ r by_ ∈ K)) as [Hin|Hin].
  - rewrite decide_True by (by apply Hr). cbn [map snd]. by rewrite IH.
  - rewrite decide_False; [done|]. intros Hn. by apply Hin, Hr.
Qed.

Lemma total_perm (l l' : list Qc) : l ≡ₚ l' → total l = total l'.
Proof.
  unfold total.
  induction 1 as [|x l l' _ IH|x y l|l l' l'' _ IH1 _ IH2]; cbn [foldr].
  - done.
  - by rewrite IH.
  - ring.
  - congruence.
Qed.

Lemma sum_ints_perm (l l' : list Z) : l ≡ₚ l' → sum_ints l = sum_ints l'.
Proof.
  unfold sum_ints.
  induction 1 as [|x l l' _ IH|x y l|l l' l'' _ IH1 _ IH2]; cbn [foldr].
  - done.
  - by rewrite IH.
  - lia.
  - congruence.
Qed.

(** The groups of a table: the counts add up to the number of values
    under a present key, and the sums to their sum. *)
Lemma groups_conserve t by_ val :
  let ks := map (λ r, at_ r by_) (rows t) in
  let vs := map (λ r, at_ r val) (rows t) in
  sum_ints (map (λ k, GroupBy.count (GroupBy.group_values ks vs k))
                (GroupBy.group_keys ks))
  = Z.of_nat (length (keyed_values t by_ val))
  ∧ (Forall finite_or_missing (column_values t val) →
     ∃ qs, map (λ k, GroupBy.sum (GroupBy.group_values ks vs k)) (GroupBy.group_keys ks)
           = map Fin qs
           ∧ Num.sum (keyed_values t by_ val) = Fin (total qs)).
Proof.
  intros ks vs.
  assert (length ks = length vs) as Hlen by (unfold ks, vs; by rewrite !length_map).
  pose proof (group_keys_NoDup ks) as HK. split.
  - unfold keyed_values. rewrite length_numbers, <- keyed_rows_filter. fold ks vs.
    rewrite <- (msum_groups Nat.add 0%nat Nat.add_assoc Nat.add_comm Nat.add_0_l
                  present_one _ ks vs HK Hlen).
    unfold GroupBy.count. generalize (GroupBy.group_keys ks). intros K.
    induction K as [|k K IH]; [done|]. cbn [map sum_ints over_keys foldr].
    fold (sum_ints (map (λ k, Z.of_nat (length (GroupBy.numbers (GroupBy.group_values ks vs k)))) K)).
    fold (over_keys Nat.add 0%nat (λ k, msum Nat.add 0%nat present_one (GroupBy.group_values ks vs k)) K).
    rewrite IH, length_numbers. lia.
  - intros Hfin.
    assert (Forall (λ v, finite_or_missing (to_num v)) vs) as Hvs.
    { unfold vs. unfold column_values in Hfin. rewrite Forall_fmap in Hfin.
      by apply Forall_fmap. }
    exists (map (λ k, msum Qcplus 0%Qc rational_of (GroupBy.group_values ks vs k))
                (GroupBy.group_keys ks)).
    split.
    + rewrite map_map. apply map_ext. intros k. unfold GroupBy.sum.
      apply sum_numbers. by apply Forall_group_values.
    + unfold keyed_values. rewrite <- keyed_rows_filter. fold ks vs.
      rewrite sum_numbers.
      2:{ apply Forall_fmap. apply Forall_forall. intros [a b] Hp.
          apply list_elem_of_filter in Hp as [_ Hp].
          apply elem_of_zip_r in Hp. cbn.
          by apply (proj1 (Forall_forall _ _) Hvs). }
      f_equal.
      rewrite <- (msum_groups Qcplus 0%Qc Qcplus_assoc Qcplus_comm Qcplus_0_l
                    rational_of _ ks vs HK Hlen).
      generalize (GroupBy.group_keys ks). intros K.
      induction K as [|k K IH]; [done|]. cbn [map total over_keys foldr].
      fold (total (map (λ k, msum Qcplus 0%Qc rational_of (GroupBy.group_values ks vs k)) K)).
      fold (over_keys Qcplus 0%Qc (λ k, msum Qcplus 0%Qc rational_of (GroupBy.group_values ks vs k)) K).
      by rewrite IH.
Qed.

(** ** [geographical_aggregation] *)

Lemma sorted_by_map {A B} (f : A → B) (leb : B → B → bool) l :
  sorted_by (λ a b, leb (f a) (f b)) l → sorted_by leb (map f l).
Proof.
  induction l as [|x l IH]; [done|]. intros [Hx Hs]. split; [|by apply IH].
  by apply Forall_fmap.
Qed.

Lemma aggregate_row_cells level value_col g :
  NoDup [level; sum_name value_col; mean_name value_col; "count"] →
  at_ (aggregate_row level value_col g) level = g.1
  ∧ at_ (aggregate_row level value_col g) (sum_name value_col) = VNum g.2.1.1
  ∧ at_ (aggregate_row level value_col g) (mean_name value_col) = VNum g.2.1.2
  ∧ at_ (aggregate_row level value_col g) "count" = VInt g.2.2.
Proof.
  intros Hnd. apply NoDup_cons in Hnd as [H1 Hnd]. apply NoDup_cons in Hnd as [H2 Hnd].
  apply NoDup_cons in Hnd as [H3 _].
  assert (level ≠ sum_name value_col) by (intros E; apply H1; rewrite E; apply list_elem_of_here).
  assert (level ≠ mean_name value_col)
    by (intros E; apply H1; rewrite E; apply list_elem_of_further, list_elem_of_here).
  assert (level ≠ "count")
    by (intros E; apply H1; rewrite E; do 2 apply list_elem_of_further; apply list_elem_of_here).
  assert (sum_name value_col ≠ mean_name value_col)
    by (intros E; apply H2; rewrite E; apply list_elem_of_here).
  assert (sum_name value_col ≠ "count")
    by (intros E; apply H2; rewrite E; apply list_elem_of_further, list_elem_of_here).
  assert (mean_name value_col ≠ "count")
    by (intros E; apply H3; rewrite E; apply list_elem_of_here).
  unfold aggregate_row, at_. cbn [zip zip_with list_to_map foldr fst snd uncurry].
  split_and!.
  - by rewrite lookup_insert_eq.
  - rewrite lookup_insert_ne by done. by rewrite lookup_insert_eq.
  - rewrite !lookup_insert_ne by done. by rewrite lookup_insert_eq.
  - rewrite !lookup_insert_ne by done. by rewrite lookup_insert_eq.
Qed.

Lemma geographical_run df level value_col w t :
  heap w !! df = Some t → level ∈ columns t → value_col ∈ columns t →
  ∃ sorted l w',
    sorted ≡ₚ groups_of t level value_col
    ∧ sorted_by (λ a b, Order.desc_leb a.2.1.1 b.2.1.1) sorted
    ∧ geographical_aggregation df level value_col w = (Ok l, w')
    ∧ heap w' !! l
      = Some (mk_df [level; sum_name value_col; mean_name value_col; "count"]
                    (map (aggregate_row level value_col) sorted)).
Proof.
  intros Hdf Hl Hv.
  exists (Order.stable_sort (λ a b, Order.desc_leb a.2.1.1 b.2.1.1)
            (groups_of t level value_col)).
  eexists _, _. split_and!.
  - apply stable_sort_perm.
  - apply stable_sort_sorted.
    + intros x y. apply desc_leb_total.
    + intros x y z. apply desc_leb_trans.
  - unfold geographical_aggregation. apply (derive_run _ df w t); [done|].
    rewrite agg_run by done. reflexivity.
  - rewrite alloc_lookup. f_equal. unfold frame_of. f_equal. by rewrite map_map.
Qed.

(** The table [geographical_aggregation] returns has one row for each
    value of the level column that is present, each value once; the rows are
    in descending order of the sum; the mean of a row is its sum divided by
    its count. *)
Theorem geographical_aggregation_rows df level value_col w t :
  heap w !! df = Some t → level ∈ columns t → value_col ∈ columns t →
  numeric_column t value_col →
  NoDup [level; sum_name value_col; mean_name value_col; "count"] →
  ∃ l w' t',
    geographical_aggregation df level value_col w = (Ok l, w')
    ∧ heap w' !! l = Some t'
    ∧ columns t' = [level; sum_name value_col; mean_name value_col; "count"]
    ∧ NoDup (map (λ r, at_ r level) (rows t'))
    ∧ (∀ k, k ∈ map (λ r, at_ r level) (rows t')
            ↔ isnull k = false ∧ k ∈ map (λ r, at_ r level) (rows t))
    ∧ sorted_by Order.desc_leb (sums_of t' value_col)
    ∧ Forall (λ r, ∃ s c, at_ r (sum_name value_col) = VNum s
                          ∧ at_ r "count" = VInt c
                          ∧ at_ r (mean_name value_col) = VNum (Num.div s (of_Z c)))
             (rows t').
Proof.
  intros Hdf Hl Hv _ Hnd.
  destruct (geographical_run df level value_col w t Hdf Hl Hv)
    as (sorted & l & w' & Hperm & Hsorted & Hrun & Hlook).
  exists l, w'. eexists. split_and!; [exact Hrun|exact Hlook|done| | | |].
  - cbn [rows]. rewrite map_map.
    erewrite map_ext; [|intros g; apply (aggregate_row_cells level value_col g Hnd)].
    rewrite Hperm. unfold groups_of. rewrite map_map. cbn [fst]. rewrite map_id.
    apply group_keys_NoDup.
  - intros k. cbn [rows]. rewrite map_map.
    erewrite map_ext; [|intros g; apply (aggregate_row_cells level value_col g Hnd)].
    rewrite Hperm. unfold groups_of. rewrite map_map. cbn [fst]. rewrite map_id.
    apply elem_of_group_keys.
  - unfold sums_of, column_values. cbn [rows]. rewrite !map_map.
    erewrite map_ext;
      [|intros g; by rewrite (proj1 (proj2 (aggregate_row_cells level value_col g Hnd)))].
    cbn [to_num]. by apply (sorted_by_map (λ g, g.2.1.1) Order.desc_leb).
  - cbn [rows]. apply Forall_fmap, Forall_forall. intros g Hg. cbn beta.
    destruct (aggregate_row_cells level value_col g Hnd) as (_ & Hs & Hm & Hc).
    eexists _, _. split_and!; [exact Hs|exact Hc|]. rewrite Hm.
    rewrite Hperm in Hg. unfold groups_of in Hg.
    apply list_elem_of_fmap in Hg as (k & -> & _). done.
Qed.


Lemma states_table_finite :
  Forall finite_or_missing (column_values states_table "count").
Proof.
  assert (column_values states_table "count"
          = [of_Z 7; of_Z 5; of_Z 1; of_Z 2; of_Z 7]) as -> by decide_eq.
  repeat first [apply Forall_nil_2 | apply Forall_cons_2 | by right].
Qed.

Lemma aggregate_names_NoDup :
  NoDup ["state"; sum_name "count"; mean_name "count"; "count"].
Proof.
  repeat first [apply NoDup_nil_2 | apply NoDup_cons_2; [not_in_list|]].
Qed.

Lemma geographical_aggregation_rows_witness :
  ∃ l w' t',
    geographical_aggregation 0%nat "state" "count" (Example.session states_table)
    = (Ok l, w')
    ∧ heap w' !! l = Some t'
    ∧ columns t' = ["state"; sum_name "count"; mean_name "count"; "count"]
    ∧ NoDup (map (λ r, at_ r "state") (rows t'))
    ∧ (∀ k, k ∈ map (λ r, at_ r "state") (rows t')
            ↔ isnull k = false ∧ k ∈ map (λ r, at_ r "state") (rows states_table))
    ∧ sorted_by Order.desc_leb (sums_of t' "count")
    ∧ Forall (λ r, ∃ s c, at_ r (sum_name "count") = VNum s
                          ∧ at_ r "count" = VInt c
                          ∧ at_ r (mean_name "count") = VNum (Num.div s (of_Z c)))
             (rows t').
Proof.
  apply (geographical_aggregation_rows 0%nat "state" "count"
           (Example.session states_table) states_table).
  - reflexivity.
  - apply list_elem_of_here.
  - apply list_elem_of_further, list_elem_of_here.
  - apply states_table_numeric.
  - apply aggregate_names_NoDup.
Defined.


(** ** What [detect_seasonality] returns *)

Lemma assign_raise df c rhs w t e :
  heap w !! df = Some t → (rhs t ≫= setitem t c) = Raise e →
  assign df c rhs w = (Raise e, w).
Proof.
  intros Hdf Hr. unfold assign, mbind, M_bind, deref, lift. rewrite Hdf.
  destruct (rhs t) as [s|e']; simpl in Hr; [|by injection Hr as ->].
  by rewrite Hr.
Qed.

Section Best.
Context {K : Type}.

(** The first of the largest: [idx_best Num.ltb]. *)
Lemma idx_best_max (best : K * num) l :
  isnan best.2 = false → Forall (λ e : K * num, isnan e.2 = false) l →
  ∃ v, (idx_best Num.ltb best l, v) ∈ best :: l
       ∧ isnan v = false
       ∧ ∀ e, e ∈ best :: l → Num.leb e.2 v = true.
Proof.
  intros Hb Hl. revert best Hb.
  induction Hl as [|e l He _ IH]; intros best Hb.
  - exists best.2. split_and!; [destruct best; apply list_elem_of_here|done|].
    intros e [->|He]%elem_of_cons; [|by apply elem_of_nil in He].
    destruct (leb_total best.2 best.2 Hb Hb); done.
  - cbn [idx_best]. destruct (Num.ltb best.2 e.2) eqn:Hlt.
    + destruct (IH e He) as (v & Hin & Hv & Hmax). exists v. split_and!; [|done|].
      * apply elem_of_cons in Hin as [Hin|Hin];
          [rewrite Hin; apply list_elem_of_further, list_elem_of_here
          |by do 2 apply list_elem_of_further].
      * intros e' [->|He']%elem_of_cons; [|by apply Hmax].
        apply (leb_trans _ e.2); [|apply Hmax, list_elem_of_here].
        unfold Num.leb. by rewrite Hlt.
    + destruct (IH best Hb) as (v & Hin & Hv & Hmax). exists v. split_and!; [|done|].
      * apply elem_of_cons in Hin as [Hin|Hin];
          [rewrite Hin; apply list_elem_of_here|by do 2 apply list_elem_of_further].
      * intros e' [->|[->|He']%elem_of_cons]%elem_of_cons.
        -- apply Hmax, list_elem_of_here.
        -- apply (leb_trans _ best.2); [|apply Hmax, list_elem_of_here].
           destruct (leb_total e.2 best.2 He Hb) as [H|H]; [done|].
           unfold Num.leb in H. rewrite Hlt in H. simpl in H.
           unfold Num.leb. rewrite orb_true_iff. right.
           destruct (e.2), (best.2); simpl in *; try done.
           apply bool_decide_eq_true in H. by apply bool_decide_eq_true.
        -- by apply Hmax, list_elem_of_further.
Qed.

(** The first of the smallest: [idx_best Num.gtb]. *)
Lemma idx_best_min (best : K * num) l :
  isnan best.2 = false → Forall (λ e : K * num, isnan e.2 = false) l →
  ∃ v, (idx_best Num.gtb best l, v) ∈ best :: l
       ∧ isnan v = false
       ∧ ∀ e, e ∈ best :: l → Num.leb v e.2 = true.
Proof.
  intros Hb Hl. revert best Hb.
  induction Hl as [|e l He _ IH]; intros best Hb.
  - exists best.2. split_and!; [destruct best; apply list_elem_of_here|done|].
    intros e [->|He]%elem_of_cons; [|by apply elem_of_nil in He].
    destruct (leb_total best.2 best.2 Hb Hb); done.
  - cbn [idx_best]. destruct (Num.gtb best.2 e.2) eqn:Hlt; unfold Num.gtb in Hlt.
    + destruct (IH e He) as (v & Hin & Hv & Hmin). exists v. split_and!; [|done|].
      * apply elem_of_cons in Hin as [Hin|Hin];
          [rewrite Hin; apply list_elem_of_further, list_elem_of_here
          |by do 2 apply list_elem_of_further].
      * intros e' [->|He']%elem_of_cons; [|by apply Hmin].
        apply (leb_trans _ e.2); [apply Hmin, list_elem_of_here|].
        unfold Num.leb. by rewrite Hlt.
    + destruct (IH best Hb) as (v & Hin & Hv & Hmin). exists v. split_and!; [|done|].
      * apply elem_of_cons in Hin as [Hin|Hin];
          [rewrite Hin; apply list_elem_of_here|by do 2 apply list_elem_of_further].
      * intros e' [->|[->|He']%elem_of_cons]%elem_of_cons.
        -- apply Hmin, list_elem_of_here.
        -- apply (leb_trans _ best.2); [apply Hmin, list_elem_of_here|].
           destruct (leb_total best.2 e.2 Hb He) as [H|H]; [done|].
           unfold Num.leb in H. rewrite Hlt in H. simpl in H.
           unfold Num.leb. rewrite orb_true_iff. right.
           destruct (e.2), (best.2); simpl in *; try done.
           apply bool_decide_eq_true in H. by apply bool_decide_eq_true.
        -- by apply Hmin, list_elem_of_further.
Qed.

End Best.

Lemma idx_of_max {K} (l : list (K * num)) :
  match idx_of Num.ltb l with
  | Ok k => ∃ v, (k, v) ∈ l ∧ isnan v = false
                 ∧ ∀ e, e ∈ l → isnan e.2 = false → Num.leb e.2 v = true
  | Raise e => e = ValueError ∧ Forall (λ e, isnan e.2 = true) l
  end.
Proof.
  unfold idx_of. destruct (filter (λ e, isnan e.2 = false) l) as [|b l'] eqn:Hf.
  - split; [done|]. apply Forall_forall. intros e He.
    destruct (isnan e.2) eqn:Hn; [done|].
    assert (e ∈ filter (λ e, isnan e.2 = false) l) as Hin by (by apply list_elem_of_filter).
    rewrite Hf in Hin. by apply elem_of_nil in Hin.
  - assert (Forall (λ e : K * num, isnan e.2 = false) (b :: l')) as Hall.
    { rewrite <- Hf. apply Forall_forall. by intros e [? _]%list_elem_of_filter. }
    apply Forall_cons in Hall as [Hb Hall].
    destruct (idx_best_max b l' Hb Hall) as (v & Hin & Hv & Hmax).
    exists v. rewrite <- Hf in Hin. apply list_elem_of_filter in Hin as [_ Hin].
    split_and!; [done..|]. intros e He Hn. apply Hmax. rewrite <- Hf.
    by apply list_elem_of_filter.
Qed.

Lemma idx_of_min {K} (l : list (K * num)) :
  match idx_of Num.gtb l with
  | Ok k => ∃ v, (k, v) ∈ l ∧ isnan v = false
                 ∧ ∀ e, e ∈ l → isnan e.2 = false → Num.leb v e.2 = true
  | Raise e => e = ValueError ∧ Forall (λ e, isnan e.2 = true) l
  end.
Proof.
  unfold idx_of. destruct (filter (λ e, isnan e.2 = false) l) as [|b l'] eqn:Hf.
  - split; [done|]. apply Forall_forall. intros e He.
    destruct (isnan e.2) eqn:Hn; [done|].
    assert (e ∈ filter (λ e, isnan e.2 = false) l) as Hin by (by apply list_elem_of_filter).
    rewrite Hf in Hin. by apply elem_of_nil in Hin.
  - assert (Forall (λ e : K * num, isnan e.2 = false) (b :: l')) as Hall.
    { rewrite <- Hf. apply Forall_forall. by intros e [? _]%list_elem_of_filter. }
    apply Forall_cons in Hall as [Hb Hall].
    destruct (idx_best_min b l' Hb Hall) as (v & Hin & Hv & Hmin).
    exists v. rewrite <- Hf in Hin. apply list_elem_of_filter in Hin as [_ Hin].
    split_and!; [done..|]. intros e He Hn. apply Hmin. rewrite <- Hf.
    by apply list_elem_of_filter.
Qed.

Lemma detect_seasonality_raise sqrt df value_col w t e :
  heap w !! df = Some t →
  ((s ← getitem t "date"; Series.dt Date.month s) ≫= setitem t "month") = Raise e →
  detect_seasonality sqrt df value_col w = (Raise e, w).
Proof.
  intros Hdf He. unfold detect_seasonality. unfold mbind at 1. unfold M_bind.
  by rewrite (assign_raise df "month" _ w t e Hdf He).
Qed.

Lemma detect_seasonality_run sqrt df value_col w t s t1 :
  heap w !! df = Some t →
  (s' ← getitem t "date"; Series.dt Date.month s') = Ok s →
  setitem t "month" s = Ok t1 →
  detect_seasonality sqrt df value_col w
  = (monthly_avg ← GroupBy.agg GroupBy.mean t1 "month" value_col;
     peak ← idx_of Num.ltb monthly_avg;
     low ← idx_of Num.gtb monthly_avg;
     let cv := Num.mul (Num.div (std sqrt (map snd monthly_avg))
                                (mean (map snd monthly_avg))) hundred in
     Ok (mk_seasonality monthly_avg peak low cv (Num.gtb cv (of_Z 20))),
     set_heap (insert df t1) w).
Proof.
  intros Hdf Hs Ht1. unfold detect_seasonality. unfold mbind at 1. unfold M_bind.
  rewrite (assign_run df "month" _ w t s t1 Hdf Hs Ht1).
  set (w1 := set_heap (insert df t1) w).
  assert (heap w1 !! df = Some t1) as Hdf1 by (simpl; by rewrite lookup_insert_eq).
  unfold mbind at 1. unfold M_bind. rewrite (eval_run _ df w1 t1 Hdf1).
  destruct (GroupBy.agg GroupBy.mean t1 "month" value_col) as [avgs|e]; [|done].
  unfold mbind, M_bind, result_bind, lift.
  destruct (idx_of Num.ltb avgs) as [peak|e]; [|done].
  by destruct (idx_of Num.gtb avgs) as [low|e].
Qed.



(** On the example the call returns: February is the peak, January the
    low month. *)
Lemma detect_seasonality_months sqrt w df :
  heap w !! df = Some daily_table →
  ∃ s, (detect_seasonality sqrt df "value" w).1 = Ok s
       ∧ monthly_averages s = [(VInt 1, of_Z 10); (VInt 2, of_Z 30)]
       ∧ peak_month s = VInt 2 ∧ low_month s = VInt 1.
Proof.
  intros Hdf.
  rewrite (detect_seasonality_run sqrt df "value" w daily_table
             [VInt 1; VInt 2] daily_table_after Hdf); [|decide_eq|decide_eq].
  assert (GroupBy.agg GroupBy.mean daily_table_after "month" "value"
          = Ok [(VInt 1, of_Z 10); (VInt 2, of_Z 30)]) as -> by decide_eq.
  unfold mbind, result_bind.
  assert (idx_of Num.ltb [(VInt 1, of_Z 10); (VInt 2, of_Z 30)] = Ok (VInt 2)) as ->
    by (vm_compute; reflexivity).
  assert (idx_of Num.gtb [(VInt 1, of_Z 10); (VInt 2, of_Z 30)] = Ok (VInt 1)) as ->
    by (vm_compute; reflexivity).
  eexists. split; [reflexivity|]. done.
Qed.

(** ** The concentration index and the order and unit of the values *)

Local Open Scope Qc_scope.

(** An ascending list is determined by its elements. *)
Lemma ascending_perm_eq l l' : ascending l → ascending l' → l ≡ₚ l' → l = l'.
Proof.
  revert l'. induction l as [|x l IH]; intros l' Hl Hl' Hp.
  - by apply Permutation_nil_l in Hp.
  - destruct l' as [|y l']; [by apply Permutation_nil_r in Hp|].
    destruct Hl as [Hx Hl], Hl' as [Hy Hl'].
    assert (x = y) as ->.
    { assert (x ∈ y :: l') as Hxin by (rewrite <- Hp; apply list_elem_of_here).
      assert (y ∈ x :: l) as Hyin by (rewrite Hp; apply list_elem_of_here).
      apply elem_of_cons in Hxin as [->|Hxin]; [done|].
      apply elem_of_cons in Hyin as [->|Hyin]; [done|].
      apply Qcle_antisym.
      - by apply (proj1 (Forall_forall _ _) Hx).
      - by apply (proj1 (Forall_forall _ _) Hy). }
    f_equal. apply IH; [done..|]. by apply Permutation_cons_inv in Hp.
Qed.

Lemma ascending_scale k l : 0 ≤ k → ascending l → ascending (map (Qcmult k) l).
Proof.
  intros Hk. induction l as [|x l IH]; [done|]. intros [Hx Hl].
  split; [|by apply IH]. apply Forall_fmap. eapply Forall_impl; [exact Hx|].
  intros y Hy. simpl. by apply Qcmult_le_mono_nonneg_l.
Qed.

Lemma weighted_scale k i l :
  weighted_from i (map (Qcmult k) l) = k * weighted_from i l.
Proof.
  revert i. induction l as [|x l IH]; intros i; simpl; [ring|]. rewrite IH. ring.
Qed.

Lemma total_scale k l : total (map (Qcmult k) l) = k * total l.
Proof.
  unfold total. induction l as [|x l IH]; simpl; [ring|]. rewrite IH. ring.
Qed.

Lemma gini_formula_scale k l :
  0 < k → l ≠ [] → 0 < total l →
  gini_formula (map (Qcmult k) l) = gini_formula l.
Proof.
  intros Hk Hne HS. unfold gini_formula. cbv zeta.
  rewrite weighted_scale, total_scale, length_map.
  pose proof (Qc_of_nat_pos l Hne) as Hn.
  apply Qclt_not_0 in Hk, HS, Hn. revert Hn.
  generalize (Qc_of_Z (Z.of_nat (length l) + 1)).
  generalize (Qc_of_Z (Z.of_nat (length l))). intros n n1 Hn.
  generalize dependent (total l). intros S HS.
  generalize (weighted_from 1 l). intros W.
  generalize (Qc_of_Z 2). intros two. by field.
Qed.

(** The result for a column of finite values that are not negative and
    not all zero. *)
Lemma gini_of_values qs :
  Forall (Qcle 0) qs → Exists (Qclt 0) qs →
  ∃ sorted, sorted ≡ₚ qs ∧ ascending sorted ∧ 0 < total sorted
            ∧ gini_of (sort_values (map Fin qs)) = Ok (Fin (gini_formula sorted)).
Proof.
  intros Hall Hex. destruct (sort_values_Fin qs) as (sorted & Heq & Hp & Hasc).
  assert (Forall (Qcle 0) sorted) as Hall' by (by rewrite Hp).
  assert (Exists (Qclt 0) sorted) as Hex' by (by rewrite Hp).
  assert (sorted ≠ []) as Hne by (intros ->; by apply Exists_nil in Hex').
  pose proof (total_pos sorted Hall' Hex') as HS.
  exists sorted. split_and!; [done..|]. rewrite Heq. by apply gini_of_Fin.
Qed.


Local Close Scope Qc_scope.

Lemma rescaled_values :
  column_values rescaled_table "value"
  = map Fin (replicate 9 (Qc_of_Z 0) ++ [Qc_of_Z 2000]).
Proof. decide_eq. Qed.

Lemma rescaled_is_doubled :
  replicate 9 (Qc_of_Z 0) ++ [Qc_of_Z 2000]
  ≡ₚ map (Qcmult 2%Qc) (Qc_of_Z 1000 :: replicate 9 (Qc_of_Z 0)).
Proof.
  assert (map (Qcmult 2%Qc) (Qc_of_Z 1000 :: replicate 9 (Qc_of_Z 0))
          = Qc_of_Z 2000 :: replicate 9 (Qc_of_Z 0)) as -> by decide_eq.
  symmetry. apply Permutation_cons_append.
Qed.


(** ** When [bivariate_analysis] returns *)

Lemma bivariate_missing_column ps ss df col1 col2 w t :
  heap w !! df = Some t →
  (col1 ∉ columns t →
   bivariate_analysis ps ss df col1 col2 w = (Raise (KeyError col1), w))
  ∧ (col1 ∈ columns t → col2 ∉ columns t →
     bivariate_analysis ps ss df col1 col2 w = (Raise (KeyError col2), w)).
Proof.
  intros Hdf. split.
  - intros H1. unfold bivariate_analysis, mbind, M_bind.
    rewrite (eval_run _ df w t Hdf). unfold getitem, has_column.
    by rewrite bool_decide_eq_false_2.
  - intros H1 H2. unfold bivariate_analysis, mbind, M_bind.
    rewrite !(eval_run _ df w t Hdf). rewrite (getitem_present t col1 H1). simpl.
    unfold getitem, has_column. by rewrite bool_decide_eq_false_2.
Qed.



(** ** The growth rate where the earlier value is zero *)

Lemma percent_change_zero c :
  percent_change zero (Fin c) = inf_of (sgn c).
Proof.
  unfold percent_change, zero, hundred, of_Z, Num.sub. cbn [neg Num.add Num.div].
  change (sgn (Qc_of_Z 0)) with Eq.
  replace (c + - Qc_of_Z 0)%Qc with c by (rewrite Qc_of_Z_0; ring).
  destruct (sgn c); cbn [inf_of Num.mul]; [done| |]; by rewrite sgn_hundred.
Qed.

Lemma percent_change_same p : p ≠ 0%Qc → percent_change (Fin p) (Fin p) = zero.
Proof.
  intros Hp. unfold percent_change, zero, hundred, of_Z, Num.sub.
  cbn [neg Num.add Num.div].
  destruct (sgn p) eqn:Hs; [by apply sgn_Eq in Hs| |];
    cbn [Num.mul]; f_equal; rewrite Qc_of_Z_0; by field.
Qed.

(** Where the value [lag] rows earlier is 0, the growth is [+inf] for a
    positive value, [-inf] for a negative one and [NaN] for 0: the division
    raises nothing and gives no finite number.  Where the value is the same
    as [lag] rows earlier, and not 0, the growth is 0. *)
Theorem growth_rate_from_zero pad df value_col (lag : nat) w t :
  heap w !! df = Some t → value_col ∈ columns t →
  numeric_column t value_col →
  Forall no_infinity (column_values t value_col) →
  (pad = true → all_present (column_values t value_col)) →
  ∃ l w' t',
    calculate_growth_rate pad df value_col (Z.of_nat lag) w = (Ok l, w')
    ∧ heap w' !! l = Some t'
    ∧ ∀ i r c, rows t !! i = Some r → (lag ≤ i)%nat →
        to_num (at_ r value_col) = Fin c →
        ∃ r', rows t' !! i = Some r'
          ∧ (column_values t value_col !! (i - lag)%nat = Some zero →
             at_ r' (growth_name value_col) = VNum (inf_of (sgn c)))
          ∧ (column_values t value_col !! (i - lag)%nat = Some (Fin c) → c ≠ 0%Qc →
             at_ r' (growth_name value_col) = VNum zero).
Proof.
  intros Hdf Hcol _ Hinf Hpad.
  destruct (growth_rows pad df value_col lag w t Hdf Hcol Hinf Hpad)
    as (l & w' & t' & Hrun & Hl & _ & Hrows).
  exists l, w', t'. split_and!; [done..|].
  intros i r c Hi Hle Hc. eexists. split; [by apply Hrows|].
  rewrite at_insert_eq.
  assert (column_values t value_col !! i = Some (Fin c)) as Hv.
  { unfold column_values. by rewrite list_lookup_fmap, Hi, <- Hc. }
  unfold growth_spec. rewrite (proj2 (Nat.ltb_ge _ _) Hle), Hv. split.
  - intros ->. by rewrite percent_change_zero.
  - intros -> Hne. by rewrite percent_change_same.
Qed.

Lemma zero_start_values :
  column_values zero_start_table "value" = [of_Z 0; of_Z 5; of_Z 5].
Proof. decide_eq. Qed.

Lemma growth_rate_from_zero_witness :
  ∃ l w' t',
    calculate_growth_rate true 0%nat "value" (Z.of_nat 1)
      (Example.session zero_start_table) = (Ok l, w')
    ∧ heap w' !! l = Some t'
    ∧ ∀ i r c, rows zero_start_table !! i = Some r → (1 ≤ i)%nat →
        to_num (at_ r "value") = Fin c →
        ∃ r', rows t' !! i = Some r'
          ∧ (column_values zero_start_table "value" !! (i - 1)%nat = Some zero →
             at_ r' (growth_name "value") = VNum (inf_of (sgn c)))
          ∧ (column_values zero_start_table "value" !! (i - 1)%nat = Some (Fin c) →
             c ≠ 0%Qc →
             at_ r' (growth_name "value") = VNum zero).
Proof.
  apply (growth_rate_from_zero true 0%nat "value" 1
           (Example.session zero_start_table) zero_start_table).
  - reflexivity.
  - apply list_elem_of_here.
  - apply numeric_column_check. vm_compute. reflexivity.
  - rewrite zero_start_values.
    repeat first [apply no_infinity_of_Z | apply Forall_nil_2 | apply Forall_cons_2].
  - intros _. rewrite zero_start_values.
    repeat first [apply Forall_nil_2 | apply Forall_cons_2 | reflexivity].
Defined.

(** On the series 0, 5, 5 with the lag 1 the growth is missing, [+inf], 0. *)
Lemma growth_rate_from_zero_example pad w df :
  heap w !! df = Some zero_start_table →
  ∃ l w' t',
    calculate_growth_rate pad df "value" 1 w = (Ok l, w')
    ∧ heap w' !! l = Some t'
    ∧ map (λ r, at_ r "value_growth") (rows t') = [VNum NaN; VNum PInf; VNum (of_Z 0)].
Proof.
  intros Hdf.
  destruct (growth_run pad df "value" 1 w zero_start_table Hdf) as
    (l & w' & t' & Hrun & Hl & _ & Hset); [apply list_elem_of_here|].
  exists l, w', t'. split_and!; [done..|].
  assert (Ok t' = setitem zero_start_table "value_growth"
            [VNum NaN; VNum PInf; VNum (of_Z 0)]) as [= ->]; [|decide_eq].
  rewrite <- Hset. f_equal. destruct pad; decide_eq.
Qed.

(** * The cleaning, step by step *)

Lemma rowwise_twice c (f : cell → cell) (g : row → cell) t :
  rowwise c (λ r, f (at_ r c)) (rowwise c g t) = rowwise c (λ r, f (g r)) t.
Proof.
  unfold rowwise at 1. 
  assert (has_column (rowwise c g t) c = true) as ->
    by (apply bool_decide_eq_true, elem_of_columns_rowwise; by right).
  unfold rowwise. simpl. f_equal. rewrite map_map. apply map_ext. intros r.
  by rewrite at_insert_eq, insert_insert_eq.
Qed.

Lemma gt_zero_all_Ok s mask :
  Series.gt_zero_all s = Ok mask →
  mask = map (λ v, match Series.gt_zero v with Ok b => b | Raise _ => false end) s.
Proof.
  revert mask. induction s as [|v s IH]; intros mask; simpl.
  - by intros [= <-].
  - destruct (Series.gt_zero v) as [b|]; [|done]. simpl.
    destruct (Series.gt_zero_all s) as [bs|]; [|done]. simpl.
    intros [= <-]. by rewrite (IH bs).
Qed.

Lemma drop_empty_Ok cat t t' :
  (s ← getitem t (total_col cat); mask ← Series.gt_zero_all s;
   Ok (boolean_index t mask)) = Ok t' →
  t' = drop_empty cat t.
Proof.
  destruct (getitem t (total_col cat)) as [s|] eqn:Hg; [|done].
  apply getitem_Ok in Hg as [_ ->]. simpl.
  destruct (Series.gt_zero_all _) as [mask|] eqn:Hm; [|done]. simpl.
  apply gt_zero_all_Ok in Hm as ->. rewrite map_map.
  intros [= <-]. apply (boolean_index_where t (positive (total_col cat))).
Qed.


(** ** A cleaning call from its first step to its last *)

Lemma wp_assign_ok w0 w l t c rhs t' Q :
  owns w0 w l t → (rhs t ≫= setitem t c) = Ok t' →
  (∀ w', owns w0 w' l t' → Q (Ok ()) w') →
  wp (assign l c rhs) w Q.
Proof. intros Ho Hr HQ. apply (wp_assign w0 _ _ t); [done|]. by rewrite Hr. Qed.

Lemma wp_derive_ok w0 w l t f t' Q :
  owns w0 w l t → f t = Ok t' →
  (∀ l' w', owns w0 w' l' t' → Q (Ok l') w') →
  wp (derive l f) w Q.
Proof. intros Ho Hf HQ. apply (wp_derive w0 _ _ t); [done|]. by rewrite Hf. Qed.

Lemma wp_for_ok {A} w0 l (body : A → M ()) (F : A → DataFrame → DataFrame) xs :
  (∀ x w t Q, owns w0 w l t →
     (∀ w', owns w0 w' l (F x t) → Q (Ok ()) w') → wp (body x) w Q) →
  ∀ w t Q, owns w0 w l t →
    (∀ w', owns w0 w' l (foldl (λ acc x, F x acc) t xs) → Q (Ok ()) w') →
    wp (for_ xs body) w Q.
Proof.
  intros Hbody. induction xs as [|x xs IH]; intros w t Q Ho HQ.
  - apply wp_ret. by apply HQ.
  - change (for_ (x :: xs) body) with (body x ≫= λ _, for_ xs body).
    apply wp_bind, (Hbody x w t); [done|]. intros w' Ho'.
    by apply (IH w' (F x t)).
Qed.

Lemma assign_elementwise_Ok t c c0 (f : cell → cell) :
  c0 ∈ columns t →
  ((s ← getitem t c0; Ok (map f s)) ≫= setitem t c)
  = Ok (rowwise c (λ r, f (at_ r c0)) t).
Proof.
  intros Hc. rewrite getitem_present by done. simpl.
  by rewrite map_map, setitem_rowwise.
Qed.

Lemma derive_elementwise_Ok t c0 (p : cell → bool) :
  c0 ∈ columns t →
  (s ← getitem t c0; Ok (boolean_index t (map p s)))
  = Ok (where_ (λ r, p (at_ r c0)) t).
Proof.
  intros Hc. rewrite getitem_present by done. simpl.
  by rewrite map_map, boolean_index_where.
Qed.

Lemma pincode_filter_Ok t :
  "pincode" ∈ columns t →
  (s ← getitem t "pincode";
   Ok (boolean_index t (map (Series.eq_int 6) (map Series.str_len s))))
  = Ok (where_ (λ r, Series.eq_int 6 (Series.str_len (at_ r "pincode"))) t).
Proof.
  intros Hc. rewrite getitem_present by done. simpl.
  rewrite !map_map. f_equal.
  apply (boolean_index_where t (λ r, Series.eq_int 6 (Series.str_len (at_ r "pincode")))).
Qed.

Lemma assign_elementwise2_Ok t c c0 (f g : cell → cell) :
  c0 ∈ columns t →
  ((s ← getitem t c0; Ok (map f (map g s))) ≫= setitem t c)
  = Ok (rowwise c (λ r, f (g (at_ r c0))) t).
Proof.
  intros Hc. rewrite getitem_present by done. simpl.
  rewrite !map_map. apply (setitem_rowwise t c (λ r, f (g (at_ r c0)))).
Qed.

Lemma has_column_true t c : has_column t c = true → c ∈ columns t.
Proof. apply bool_decide_eq_true. Qed.

Lemma to_datetime_is_datetime v : Series.is_datetime (Series.to_datetime v) = true.
Proof. destruct v as [s| | | |]; simpl; try done. by destruct (Date.strptime s). Qed.

Section Outcome.

Variable float_repr : Qc → string.
Variable numeric_of_string : string → num.
Variable cat : category.

Lemma norm_string_ok w0 w l t col Q :
  owns w0 w l t →
  (∀ w', owns w0 w' l (norm_string col t) → Q (Ok ()) w') →
  wp (present ← eval l (λ t, Ok (has_column t col));
      if present : bool then
        assign l col
          (λ t, s ← getitem t col;
                Ok (map Series.str_title (map Series.str_strip s)))
      else mret ()) w Q.
Proof.
  intros Ho HQ. apply wp_bind, (wp_eval _ _ _ t); [by eapply owns_lookup|].
  simpl. unfold norm_string in HQ. destruct (has_column t col) eqn:Hp.
  - eapply (wp_assign_ok w0 _ _ t); [done| |done].
    rewrite getitem_present by (by apply has_column_true). simpl.
    by rewrite !map_map, setitem_rowwise.
  - apply wp_ret. by apply HQ.
Qed.

Lemma check_pincode_ok w0 w l t Q :
  owns w0 w l t →
  (∀ l' w', (l' = l ∨ l' ∉ dom (heap w0)) →
            owns w0 w' l' (check_pincode float_repr t) → Q (Ok l') w') →
  wp (if has_column t "pincode" then
        assign l "pincode"
          (λ t, s ← getitem t "pincode";
                Ok (map (Series.str_zfill 6) (map (Series.astype_str float_repr) s)));;
        derive l
          (λ t, s ← getitem t "pincode";
                Ok (boolean_index t (map (Series.eq_int 6) (map Series.str_len s))))
      else mret l) w Q.
Proof.
  intros Ho HQ. unfold check_pincode in HQ. destruct (has_column t "pincode") eqn:Hp.
  - apply wp_bind. eapply (wp_assign_ok w0 _ _ t); [done| |].
    { rewrite getitem_present by (by apply has_column_true). simpl.
      by rewrite !map_map, setitem_rowwise. }
    intros w' Ho'. eapply (wp_derive_ok w0 _ _ _ _ _ _ Ho').
    { apply pincode_filter_Ok, elem_of_columns_rowwise. left.
      by apply has_column_true. }
    intros l' w'' Ho''. apply HQ; [|done]. right. by destruct Ho'' as (_ & ? & _).
  - apply wp_ret. apply HQ; [by left|done].
Qed.

Lemma norm_count_ok w0 w l t col Q :
  owns w0 w l t →
  (∀ w', owns w0 w' l (norm_count numeric_of_string col t) → Q (Ok ()) w') →
  wp (present ← eval l (λ t, Ok (has_column t col));
      if present : bool then
        assign l col
          (λ t, s ← getitem t col;
                Ok (map (Series.to_numeric numeric_of_string) s));;
        assign l col
          (λ t, s ← getitem t col;
                Ok (map Series.clip_lower0 (map Series.fillna0 s)))
      else mret ()) w Q.
Proof.
  intros Ho HQ. apply wp_bind, (wp_eval _ _ _ t); [by eapply owns_lookup|].
  simpl. unfold norm_count in HQ. destruct (has_column t col) eqn:Hp.
  - apply wp_bind. eapply (wp_assign_ok w0 _ _ t); [done| |].
    { by apply assign_elementwise_Ok, has_column_true. }
    intros w' Ho'. eapply (wp_assign_ok w0 _ _ _ _ _ _ _ Ho').
    { rewrite assign_elementwise2_Ok by (apply elem_of_columns_rowwise; by right).
      rewrite (rowwise_twice col (λ v, Series.clip_lower0 (Series.fillna0 v))).
      reflexivity. }
    done.
  - apply wp_ret. by apply HQ.
Qed.

Lemma add_total_ok w0 w l t Q :
  owns w0 w l t →
  (∀ w', owns w0 w' l (add_total cat t) → Q (Ok ()) w') →
  wp (if forallb (has_column t) (count_cols cat) then
        assign l (total_col cat)
          (λ t, Ok (map (row_sum (count_cols cat)) (rows t)))
      else mret ()) w Q.
Proof.
  intros Ho HQ. unfold add_total in HQ. destruct (forallb _ _).
  - eapply (wp_assign_ok w0 _ _ t); [done| |done]. simpl. apply setitem_rowwise.
  - apply wp_ret. by apply HQ.
Qed.

Lemma add_feature_ok w0 w l t c f Q :
  owns w0 w l t → "date" ∈ columns t →
  forallb Series.is_datetime (map (λ r, at_ r "date") (rows t)) = true →
  (∀ w', owns w0 w' l (add_feature c f t) → Q (Ok ()) w') →
  wp (assign l c (λ t, s ← getitem t "date"; Series.dt f s)) w Q.
Proof.
  intros Ho Hd Hdt HQ. eapply (wp_assign_ok w0 _ _ t); [done| |done].
  rewrite getitem_present by done. simpl. unfold Series.dt. rewrite Hdt. simpl.
  rewrite map_map. apply setitem_rowwise.
Qed.

End Outcome.

Lemma dated_forallb t :
  dated t → forallb Series.is_datetime (map (λ r, at_ r "date") (rows t)) = true.
Proof.
  intros [_ H]. induction H as [|r rs Hr _ IH]; [done|]. simpl. by rewrite Hr, IH.
Qed.

Lemma dated_rowwise c g t : c ≠ "date" → dated t → dated (rowwise c g t).
Proof.
  intros Hne [Hc Hr]. split.
  - apply elem_of_columns_rowwise. by left.
  - simpl. apply Forall_map. eapply Forall_impl; [exact Hr|]. intros r Hd. simpl.
    by rewrite at_insert_ne.
Qed.

Lemma dated_where p t : dated t → dated (where_ p t).
Proof. intros [Hc Hr]. split; [done|]. by apply Forall_where. Qed.

Lemma dated_parse t : dated (parse_dates t).
Proof.
  split.
  - apply elem_of_columns_rowwise. by right.
  - simpl. apply Forall_map, Forall_true. intros r. simpl.
    rewrite at_insert_eq. apply to_datetime_is_datetime.
Qed.

Lemma dated_norm_string col t : col ≠ "date" → dated t → dated (norm_string col t).
Proof.
  intros Hne Hd. unfold norm_string. destruct (has_column t col); [|done].
  by apply dated_rowwise.
Qed.

Lemma dated_check_pincode fr t : dated t → dated (check_pincode fr t).
Proof.
  intros Hd. unfold check_pincode. destruct (has_column t "pincode"); [|done].
  by apply dated_where, dated_rowwise.
Qed.

Lemma dated_norm_count ns col t : col ≠ "date" → dated t → dated (norm_count ns col t).
Proof.
  intros Hne Hd. unfold norm_count. destruct (has_column t col); [|done].
  by apply dated_rowwise.
Qed.

Lemma dated_foldl (F : string → DataFrame → DataFrame) cols t :
  (∀ c t, c ∈ cols → dated t → dated (F c t)) →
  dated t → dated (foldl (λ acc c, F c acc) t cols).
Proof.
  revert t. induction cols as [|c cols IH]; intros t HF Hd; [done|]. simpl.
  apply IH.
  - intros c' t' Hc'. apply HF. by apply list_elem_of_further.
  - apply HF; [apply list_elem_of_here|done].
Qed.

Lemma dropna_Ok t c :
  c ∈ columns t → dropna t c = Ok (where_ (λ r, negb (isnull (at_ r c))) t).
Proof.
  intros Hc. unfold dropna. rewrite getitem_present by done.
  by rewrite map_map, boolean_index_where.
Qed.

Lemma gt_zero_all_Raise s e : Series.gt_zero_all s = Raise e → e = TypeError.
Proof.
  induction s as [|v s IH]; simpl; [done|].
  destruct (Series.gt_zero v) as [b|e'] eqn:Hv; simpl.
  - destruct (Series.gt_zero_all s) as [bs|e'']; simpl; [done|].
    intros [= <-]. by apply IH.
  - intros [= <-]. destruct v; simpl in Hv; congruence.
Qed.

Lemma drop_empty_run cat t mask :
  total_col cat ∈ columns t →
  Series.gt_zero_all (map (λ r, at_ r (total_col cat)) (rows t)) = Ok mask →
  (s ← getitem t (total_col cat); mask ← Series.gt_zero_all s;
   Ok (boolean_index t mask)) = Ok (drop_empty cat t).
Proof.
  intros Hc Hm.
  destruct (s ← getitem t (total_col cat); mask ← Series.gt_zero_all s;
            Ok (boolean_index t mask)) as [t'|e] eqn:Hr.
  - by apply drop_empty_Ok in Hr as ->.
  - rewrite getitem_present in Hr by done. simpl in Hr. by rewrite Hm in Hr.
Qed.

Section Outcome2.

Variable float_repr : Qc → string.
Variable numeric_of_string : string → num.
Variable cat : category.
Hypothesis Hwf : cat_wf cat.

Lemma count_not_date c : c ∈ count_cols cat → c ≠ "date".
Proof.
  intros Hc ->. apply (wf_written cat Hwf "date"); [apply list_elem_of_here|].
  by apply list_elem_of_further.
Qed.

Lemma total_not_written c : c ∈ written → total_col cat ≠ c.
Proof.
  intros Hc <-. apply (wf_written cat Hwf (total_col cat) Hc). apply list_elem_of_here.
Qed.

Lemma dated_with_total t :
  dated (with_total float_repr numeric_of_string cat t).
Proof.
  unfold with_total, add_total.
  assert (dated (foldl (λ acc col, norm_count numeric_of_string col acc)
                   (check_pincode float_repr
                      (foldl (λ acc col, norm_string col acc)
                         (drop_undated (parse_dates t)) ["state"; "district"]))
                   (count_cols cat))) as Hd.
  { apply (dated_foldl (norm_count numeric_of_string)).
    - intros c t' Hc. by apply dated_norm_count, count_not_date.
    - apply dated_check_pincode. apply (dated_foldl norm_string).
      + intros c t' Hc. apply dated_norm_string. intros ->.
        apply elem_of_cons in Hc as [Hc|Hc]; [done|].
        apply elem_of_cons in Hc as [Hc|Hc]; [done|]. by apply elem_of_nil in Hc.
      + apply dated_where, dated_parse. }
  destruct (forallb _ _); [|done]. apply dated_rowwise; [|done].
  apply total_not_written. apply list_elem_of_here.
Qed.

Lemma clean_outcome df w0 t :
  heap w0 !! df = Some t →
  wp (clean float_repr numeric_of_string cat df) w0
     (outcome float_repr numeric_of_string cat df w0 t).
Proof.
  intros Hdf. unfold clean.
  apply wp_bind, (wp_copy w0 _ _ t); [apply stable_refl|done|]. intros l1 w1 Ho1.
  apply wp_bind, (wp_eval _ _ _ t); [by eapply owns_lookup|]. simpl.
  (* the date column *)
  destruct (decide ("date" ∈ columns t)) as [Hdate|Hdate]; cycle 1.
  { apply wp_bind, (wp_assign w0 _ _ t); [done|].
    unfold getitem, has_column. rewrite bool_decide_eq_false_2 by done. simpl.
    split; [by destruct Ho1 as ((_ & ?) & _)|]. by left. }
  apply wp_bind. eapply (wp_assign_ok w0 _ _ t); [done| |].
  { by apply (assign_elementwise_Ok t "date" "date" Series.to_datetime). }
  fold (parse_dates t). intros w2 Ho2.
  apply wp_bind, (wp_eval _ _ _ _ _ (owns_lookup _ _ _ _ Ho2)).
  unfold parse_dates at 1. rewrite getitem_rowwise_eq. simpl.
  rewrite map_map, count_true_map.
  apply wp_bind. eapply (wp_derive_ok w0 _ _ _ _ _ _ Ho2).
  { apply dropna_Ok, dated_parse. }
  fold (drop_undated (parse_dates t)). intros l2 w3 Ho3.
  (* the string columns *)
  apply wp_bind.
  eapply (wp_for_ok w0 l2 _ (λ col, norm_string col));
    [intros x w t' Q' Ho HQ; by apply (norm_string_ok w0 w l2 t')|exact Ho3|].
  intros w4 Ho4.
  (* the pincode *)
  apply wp_bind, (wp_eval _ _ _ _ _ (owns_lookup _ _ _ _ Ho4)). simpl.
  apply wp_bind, (check_pincode_ok float_repr w0 _ _ _ _ Ho4). intros l3 w5 _ Ho5.
  (* the count columns *)
  apply wp_bind.
  eapply (wp_for_ok w0 l3 _ (λ col, norm_count numeric_of_string col));
    [intros x w t' Q' Ho HQ; by apply (norm_count_ok numeric_of_string w0 w l3 t')|exact Ho5|].
  intros w6 Ho6.
  (* the total *)
  apply wp_bind, (wp_eval _ _ _ _ _ (owns_lookup _ _ _ _ Ho6)). simpl.
  apply wp_bind, (add_total_ok cat w0 _ _ _ _ Ho6). intros w7 Ho7.
  fold (with_total float_repr numeric_of_string cat t) in Ho7.
  pose proof (dated_with_total t) as HdT.
  set (T := with_total float_repr numeric_of_string cat t) in *.
  apply wp_bind, (wp_eval _ _ _ _ _ (owns_lookup _ _ _ _ Ho7)).
  destruct (decide (total_col cat ∈ columns T)) as [Htot|Htot]; cycle 1.
  { unfold getitem, has_column. rewrite bool_decide_eq_false_2 by done. simpl.
    split; [by destruct Ho7 as ((_ & ?) & _)|]. right. by left. }
  rewrite getitem_present by done. simpl.
  destruct (Series.gt_zero_all (map (λ r, at_ r (total_col cat)) (rows T)))
    as [mask|e] eqn:Hgz; cycle 1.
  { apply wp_bind, (wp_derive w0 _ _ T); [done|].
    rewrite getitem_present by done. simpl. rewrite Hgz. simpl.
    pose proof (gt_zero_all_Raise _ _ Hgz) as ->.
    split; [by destruct Ho7 as ((_ & ?) & _)|]. right. right. by split_and!. }
  apply wp_bind. eapply (wp_derive_ok w0 _ _ _ _ _ _ Ho7).
  { by apply (drop_empty_run cat T mask). }
  intros l4 w8 Ho8.
  (* the temporal features *)
  assert (dated (drop_empty cat T)) as Hd0 by (by apply dated_where).
  apply wp_bind, (add_feature_ok w0 _ _ _ "year" Date.year _ Ho8);
    [apply Hd0|by apply dated_forallb|]. intros w9 Ho9.
  assert (dated (add_feature "year" Date.year (drop_empty cat T))) as Hd1
    by (by apply dated_rowwise).
  apply wp_bind, (add_feature_ok w0 _ _ _ "month" Date.month _ Ho9);
    [apply Hd1|by apply dated_forallb|]. intros w10 Ho10.
  assert (dated (add_feature "month" Date.month
                   (add_feature "year" Date.year (drop_empty cat T)))) as Hd2
    by (by apply dated_rowwise).
  apply wp_bind, (add_feature_ok w0 _ _ _ "day_of_week" Date.dayofweek _ Ho10);
    [apply Hd2|by apply dated_forallb|]. intros w11 Ho11.
  assert (dated (add_feature "day_of_week" Date.dayofweek
                   (add_feature "month" Date.month
                      (add_feature "year" Date.year (drop_empty cat T))))) as Hd3
    by (by apply dated_rowwise).
  apply wp_bind, (add_feature_ok w0 _ _ _ "week_of_year" Date.isoweek _ Ho11);
    [apply Hd3|by apply dated_forallb|]. intros w12 Ho12.
  (* the report *)
  apply wp_bind, (wp_eval _ _ _ _ _ (owns_lookup _ _ _ _ Ho12)). simpl.
  apply wp_bind, wp_set_report, wp_ret.
  destruct Ho12 as ((Hheap & Hrep) & Hnew & Hl).
  split_and!; [done|done|done|exact Hl|].
  cbn [heap cleaning_report]. rewrite Hrep.
  rewrite map_map, count_true_map. reflexivity.
Qed.

End Outcome2.

(** ** What the cleaning methods guarantee *)

Lemma cleaning_outcome fr ns cat op df w t :
  (cat, op) ∈ cleaning_operations fr ns →
  heap w !! df = Some t →
  outcome fr ns cat df w t (op df w).1 (op df w).2.
Proof.
  unfold cleaning_operations. intros H Hdf.
  apply elem_of_cons in H as [H|H].
  { injection H as Hc Ho. subst cat op.
    exact (clean_outcome fr ns enrolment enrolment_wf df w t Hdf). }
  apply elem_of_cons in H as [H|H].
  { injection H as Hc Ho. subst cat op.
    exact (clean_outcome fr ns demographic demographic_wf df w t Hdf). }
  apply elem_of_cons in H as [H|H].
  { injection H as Hc Ho. subst cat op.
    exact (clean_outcome fr ns biometric biometric_wf df w t Hdf). }
  by apply elem_of_nil in H.
Qed.

Lemma cleaning_operation_wf fr ns cat op :
  (cat, op) ∈ cleaning_operations fr ns → cat_wf cat.
Proof.
  unfold cleaning_operations. intros H.
  repeat (apply elem_of_cons in H as [[= -> _]|H];
          [first [apply enrolment_wf | apply demographic_wf | apply biometric_wf]|]).
  by apply elem_of_nil in H.
Qed.

(** *** The columns of the table *)

Lemma columns_rowwise_present c g t : c ∈ columns t → columns (rowwise c g t) = columns t.
Proof. intros Hc. unfold rowwise, has_column. simpl. by rewrite bool_decide_eq_true_2. Qed.

Lemma columns_norm_string col t : columns (norm_string col t) = columns t.
Proof.
  unfold norm_string. destruct (has_column t col) eqn:Hc; [|done].
  by apply columns_rowwise_present, has_column_true.
Qed.

Lemma columns_check_pincode fr t : columns (check_pincode fr t) = columns t.
Proof.
  unfold check_pincode. destruct (has_column t "pincode") eqn:Hc; [|done].
  simpl. rewrite Hc. done.
Qed.

Lemma columns_norm_count ns col t : columns (norm_count ns col t) = columns t.
Proof.
  unfold norm_count. destruct (has_column t col) eqn:Hc; [|done].
  by apply columns_rowwise_present, has_column_true.
Qed.

Lemma columns_foldl (F : string → DataFrame → DataFrame) cols t :
  (∀ c t, columns (F c t) = columns t) →
  columns (foldl (λ acc c, F c acc) t cols) = columns t.
Proof.
  intros HF. revert t. induction cols as [|c cols IH]; intros t; [done|]. simpl.
  by rewrite IH, HF.
Qed.

Lemma columns_dated t : "date" ∈ columns t → columns (drop_undated (parse_dates t)) = columns t.
Proof.
  intros Hd. unfold drop_undated, parse_dates. simpl.
  unfold has_column. by rewrite bool_decide_eq_true_2.
Qed.

Lemma columns_named fr t :
  "date" ∈ columns t →
  columns (check_pincode fr (foldl (λ acc col, norm_string col acc)
                               (drop_undated (parse_dates t)) ["state"; "district"]))
  = columns t.
Proof.
  intros Hd. rewrite columns_check_pincode.
  rewrite (columns_foldl norm_string) by apply columns_norm_string.
  by apply columns_dated.
Qed.

Lemma columns_counted fr ns cs t :
  "date" ∈ columns t →
  columns (foldl (λ acc col, norm_count ns col acc)
             (check_pincode fr (foldl (λ acc col, norm_string col acc)
                                  (drop_undated (parse_dates t)) ["state"; "district"]))
             cs)
  = columns t.
Proof.
  intros Hd. rewrite (columns_foldl (norm_count ns)) by apply columns_norm_count.
  by apply columns_named.
Qed.

Lemma add_total_cases fr ns cat t :
  "date" ∈ columns t →
  forallb (has_column
             (foldl (λ acc col, norm_count ns col acc)
                (check_pincode fr (foldl (λ acc col, norm_string col acc)
                                     (drop_undated (parse_dates t)) ["state"; "district"]))
                (count_cols cat))) (count_cols cat)
  = forallb (has_column t) (count_cols cat).
Proof. intros Hd. unfold has_column. by rewrite columns_counted. Qed.

Lemma columns_with_total fr ns cat t :
  "date" ∈ columns t →
  columns (with_total fr ns cat t)
  = if forallb (has_column t) (count_cols cat)
    then if has_column t (total_col cat) then columns t
         else columns t ++ [total_col cat]
    else columns t.
Proof.
  intros Hd. unfold with_total, add_total. rewrite add_total_cases by done.
  destruct (forallb _ _); [|by apply columns_counted].
  unfold rowwise. cbn [columns]. unfold has_column at 1. by rewrite columns_counted.
Qed.

Lemma all_columns_present t cs :
  forallb (has_column t) cs = true ↔ ∀ c, c ∈ cs → c ∈ columns t.
Proof.
  rewrite forallb_forall. split.
  - intros H c Hc. by apply has_column_true, H, list_elem_of_In.
  - intros H c Hc. apply bool_decide_eq_true, H. by apply list_elem_of_In.
Qed.

Lemma gt_zero_all_numbers (s : list cell) :
  Forall (λ v, ∃ b, Series.gt_zero v = Ok b) s → ∃ mask, Series.gt_zero_all s = Ok mask.
Proof.
  induction 1 as [|v s [b Hv] _ [mask IH]]; simpl; [by eexists|].
  rewrite Hv, IH. simpl. by eexists.
Qed.

(** A cleaning method returns whenever the raw table has the date column
    and all the count columns of the category, and text in its [state] and
    [district] columns, whatever the other cells hold; the table it returns
    is a new one and has the total column. *)
Theorem cleaning_returns_with_date_and_counts fr ns cat op df w t :
  (cat, op) ∈ cleaning_operations fr ns →
  heap w !! df = Some t →
  "date" ∈ columns t →
  (∀ c, c ∈ count_cols cat → c ∈ columns t) →
  text_columns t →
  ∃ l t', (op df w).1 = Ok l ∧ (l ∉ dom (heap w)) ∧ heap (op df w).2 !! l = Some t'
          ∧ total_col cat ∈ columns t'.
Proof.
  intros Hop Hdf Hdate Hall _.
  pose proof (cleaning_outcome fr ns cat op df w t Hop Hdf) as Hout.
  pose proof (columns_with_total fr ns cat t Hdate) as Hcols.
  apply all_columns_present in Hall. rewrite Hall in Hcols.
  assert (total_col cat ∈ columns (with_total fr ns cat t)) as Htot.
  { rewrite Hcols. destruct (has_column t (total_col cat)) eqn:E.
    - by apply has_column_true.
    - apply elem_of_app. right. apply list_elem_of_here. }
  unfold outcome in Hout. cbv zeta in Hout.
  destruct (op df w).1 as [l|e].
  - destruct Hout as (_ & _ & Hnew & Hl & _). eexists l, _. split_and!; [done|done|exact Hl|].
    unfold cleaned_table, add_feature.
    repeat (apply elem_of_columns_rowwise; left). exact Htot.
  - exfalso.
    destruct Hout as (_ & [[_ ?]|[(_ & _ & Hno)|(_ & _ & _ & Hty)]]); [done|done|].
    assert (∃ mask, Series.gt_zero_all
              (map (λ r, at_ r (total_col cat)) (rows (with_total fr ns cat t)))
              = Ok mask) as [mask Hm]; [|by rewrite Hm in Hty].
    apply gt_zero_all_numbers, Forall_fmap.
    unfold with_total, add_total. rewrite add_total_cases, Hall by done.
    cbn [rows rowwise]. apply Forall_fmap, Forall_true. intros r. simpl.
    rewrite at_insert_eq. unfold row_sum. simpl. by eexists.
Qed.

Lemma cleaning_returns_witness :
  let op := clean_demographic_data Example.integral_repr Example.number_of_digits in
  let w := Example.session raw_demographic in
  ∃ l t', (op 0%nat w).1 = Ok l ∧ (l ∉ dom (heap w)) ∧ heap (op 0%nat w).2 !! l = Some t'
          ∧ total_col demographic ∈ columns t'.
Proof.
  apply (cleaning_returns_with_date_and_counts
           Example.integral_repr Example.number_of_digits demographic
           (clean_demographic_data Example.integral_repr Example.number_of_digits)
           0%nat (Example.session raw_demographic) raw_demographic).
  - right. left.
  - reflexivity.
  - apply (bool_decide_eq_true_1 _). vm_compute. reflexivity.
  - intros c Hc. apply (bool_decide_eq_true_1 _).
    repeat (apply elem_of_cons in Hc as [->|Hc]; [vm_compute; reflexivity|]).
    by apply elem_of_nil in Hc.
  - intros c Hc.
    repeat (apply elem_of_cons in Hc as [->|Hc]; [vm_compute; done|]).
    by apply elem_of_nil in Hc.
Defined.

(** When a count column is missing and the raw table has no total column
    either, a cleaning method raises [KeyError] for the total column, and
    stores no entry in the report (the table has a date column, and text in
    its [state] and [district] columns). *)
Theorem cleaning_needs_the_count_columns fr ns cat op df w t c :
  (cat, op) ∈ cleaning_operations fr ns →
  heap w !! df = Some t →
  "date" ∈ columns t →
  text_columns t →
  c ∈ count_cols cat → c ∉ columns t →
  total_col cat ∉ columns t →
  (op df w).1 = Raise (KeyError (total_col cat))
  ∧ cleaning_report (op df w).2 = cleaning_report w.
Proof.
  intros Hop Hdf Hdate _ Hc Hmiss Htot.
  pose proof (cleaning_outcome fr ns cat op df w t Hop Hdf) as Hout.
  pose proof (columns_with_total fr ns cat t Hdate) as Hcols.
  assert (forallb (has_column t) (count_cols cat) = false) as Hb.
  { destruct (forallb _ _) eqn:E; [|done]. exfalso. apply Hmiss.
    by apply (all_columns_present t (count_cols cat)). }
  rewrite Hb in Hcols. unfold outcome in Hout. cbv zeta in Hout.
  destruct (op df w).1 as [l|e].
  - destruct Hout as (_ & Hin & _). by rewrite Hcols in Hin.
  - destruct Hout as (Hrep & [[_ ?]|[(-> & _)|(_ & _ & Hin & _)]]); [done|done|].
    by rewrite Hcols in Hin.
Qed.

Lemma cleaning_needs_the_count_columns_witness :
  let op := clean_enrolment_data Example.integral_repr Example.number_of_digits in
  let w := Example.session raw_demographic in
  (op 0%nat w).1 = Raise (KeyError "total_enrolments")
  ∧ cleaning_report (op 0%nat w).2 = cleaning_report w.
Proof.
  apply (cleaning_needs_the_count_columns
           Example.integral_repr Example.number_of_digits enrolment
           (clean_enrolment_data Example.integral_repr Example.number_of_digits)
           0%nat (Example.session raw_demographic) raw_demographic "age_0_5").
  - left.
  - reflexivity.
  - apply (bool_decide_eq_true_1 _). vm_compute. reflexivity.
  - intros c Hc.
    repeat (apply elem_of_cons in Hc as [->|Hc]; [vm_compute; done|]).
    by apply elem_of_nil in Hc.
  - left.
  - apply (bool_decide_eq_true_1 _). vm_compute. reflexivity.
  - apply (bool_decide_eq_true_1 _). vm_compute. reflexivity.
Defined.

(** *** The rows of the table returned *)

Lemma cleaned_rows fr ns cat t :
  rows (cleaned_table fr ns cat t)
  = map with_features
      (filter (λ r, positive (total_col cat) r = true) (rows (with_total fr ns cat t))).
Proof.
  unfold cleaned_table, add_feature, drop_empty. cbn [rows rowwise where_].
  rewrite !map_map. apply map_ext. intros r. unfold with_features.
  by rewrite !at_insert_ne by done.
Qed.

Lemma cleaning_run_outcome fr ns cat op df w l w' :
  (cat, op) ∈ cleaning_operations fr ns →
  op df w = (Ok l, w') →
  ∃ t, heap w !! df = Some t ∧ outcome fr ns cat df w t (Ok l) w'.
Proof.
  intros Hop Hrun.
  destruct (cleaning_operation_run fr ns cat op df w l w' Hop Hrun) as (t & _ & Hdf & _).
  exists t. split; [done|].
  pose proof (cleaning_outcome fr ns cat op df w t Hop Hdf) as H.
  by rewrite Hrun in H.
Qed.

Ltac in_list := repeat first [apply list_elem_of_here | apply list_elem_of_further].

Lemma positive_gt_zero c (r : row) :
  positive c r = true → Series.gt_zero (at_ r c) = Ok true.
Proof. unfold positive. destruct (Series.gt_zero (at_ r c)) as [[]|]; done. Qed.

(** Every row of the table a cleaning method returns has a total greater
    than zero: [row[total] > 0] holds, so the total is neither zero, nor
    negative, nor missing. *)
Theorem cleaned_rows_have_a_positive_total fr ns cat op df w l w' :
  (cat, op) ∈ cleaning_operations fr ns →
  op df w = (Ok l, w') →
  ∃ t', heap w' !! l = Some t'
        ∧ total_col cat ∈ columns t'
        ∧ Forall (λ r, Series.gt_zero (at_ r (total_col cat)) = Ok true) (rows t').
Proof.
  intros Hop Hrun.
  destruct (cleaning_run_outcome fr ns cat op df w l w' Hop Hrun)
    as (t & Hdf & _ & Htot & _ & Hl & _).
  eexists. split; [exact Hl|]. split.
  { unfold cleaned_table, add_feature.
    repeat (apply elem_of_columns_rowwise; left). exact Htot. }
  rewrite cleaned_rows. apply Forall_fmap, Forall_forall.
  intros r Hr. apply list_elem_of_filter in Hr as [Hp _]. simpl.
  unfold with_features.
  pose proof (cleaning_operation_wf fr ns cat op Hop) as Hwf.
  rewrite !at_insert_ne.
  - by apply positive_gt_zero.
  - intros E. by apply (total_not_written cat Hwf "year"); [in_list|].
  - intros E. by apply (total_not_written cat Hwf "month"); [in_list|].
  - intros E. by apply (total_not_written cat Hwf "day_of_week"); [in_list|].
  - intros E. by apply (total_not_written cat Hwf "week_of_year"); [in_list|].
Qed.

Lemma cleaned_rows_positive_witness :
  ∃ t', heap (clean_enrolment_data Example.integral_repr Example.number_of_digits
                0%nat (Example.session Example.raw_table)).2 !! 4%nat = Some t'
        ∧ total_col enrolment ∈ columns t'
        ∧ Forall (λ r, Series.gt_zero (at_ r (total_col enrolment)) = Ok true) (rows t').
Proof.
  apply (cleaned_rows_have_a_positive_total
           Example.integral_repr Example.number_of_digits enrolment
           (clean_enrolment_data Example.integral_repr Example.number_of_digits)
           0%nat (Example.session Example.raw_table)).
  - left.
  - apply run_eq. vm_compute. reflexivity.
Defined.

Lemma dayofweek_range d : 0 ≤ Date.dayofweek d ≤ 6.
Proof.
  unfold Date.dayofweek.
  pose proof (Z.mod_pos_bound (Date.days_from_civil d + 3) 7). lia.
Qed.

Lemma weeks_in_year_range y : 52 ≤ Date.weeks_in_year y ≤ 53.
Proof. unfold Date.weeks_in_year. destruct (_ || _); lia. Qed.

Lemma isoweek_range d : 1 ≤ Date.isoweek d ≤ 53.
Proof.
  unfold Date.isoweek. cbv zeta.
  pose proof (weeks_in_year_range (Date.year d - 1)).
  pose proof (weeks_in_year_range (Date.year d)).
  destruct (Z.ltb_spec ((Date.dayofyear d - (Date.dayofweek d + 1) + 10) / 7) 1); [lia|].
  destruct (Z.ltb_spec (Date.weeks_in_year (Date.year d))
              ((Date.dayofyear d - (Date.dayofweek d + 1) + 10) / 7)); lia.
Qed.

(** Every row of the table a cleaning method returns holds a date and the
    four features read from that very date: year, month, day of the week
    (Monday 0 to Sunday 6) and ISO week (1 to 53). *)
Theorem cleaned_rows_have_temporal_features fr ns cat op df w l w' :
  (cat, op) ∈ cleaning_operations fr ns →
  op df w = (Ok l, w') →
  ∃ t', heap w' !! l = Some t'
        ∧ (∀ c, c ∈ ["year"; "month"; "day_of_week"; "week_of_year"] → c ∈ columns t')
        ∧ Forall has_features (rows t').
Proof.
  intros Hop Hrun.
  destruct (cleaning_run_outcome fr ns cat op df w l w' Hop Hrun)
    as (t & Hdf & _ & Htot & _ & Hl & _).
  destruct (cleaning_operation_run fr ns cat op df w l w' Hop Hrun)
    as (t0 & t' & _ & Hl' & Hok).
  rewrite Hl in Hl'. injection Hl' as <-.
  eexists. split; [exact Hl|]. split.
  { intros c Hc. unfold cleaned_table, add_feature.
    repeat (apply elem_of_cons in Hc as [->|Hc];
            [repeat first [ by (apply elem_of_columns_rowwise; right)
                          | apply elem_of_columns_rowwise; left ]|]).
    by apply elem_of_nil in Hc. }
  rewrite cleaned_rows, !Forall_fmap in *. eapply Forall_impl; [exact Hok|].
  intros r ([d Hd] & _). simpl in *. unfold with_features in *.
  rewrite !lookup_insert_ne in Hd by done.
  assert (at_ r "date" = VDate d) as -> by (unfold at_; by rewrite Hd).
  exists d. simpl.
  split; [by rewrite !lookup_insert_ne by done|].
  split; [by rewrite !lookup_insert_ne, lookup_insert_eq by done|].
  split; [by rewrite !lookup_insert_ne, lookup_insert_eq by done|].
  split; [by rewrite !lookup_insert_ne, lookup_insert_eq by done|].
  split; [by rewrite lookup_insert_eq|].
  split; [apply dayofweek_range|apply isoweek_range].
Qed.

Lemma cleaned_rows_features_witness :
  ∃ t', heap (clean_enrolment_data Example.integral_repr Example.number_of_digits
                0%nat (Example.session Example.raw_table)).2 !! 4%nat = Some t'
        ∧ (∀ c, c ∈ ["year"; "month"; "day_of_week"; "week_of_year"] → c ∈ columns t')
        ∧ Forall has_features (rows t').
Proof.
  apply (cleaned_rows_have_temporal_features
           Example.integral_repr Example.number_of_digits enrolment
           (clean_enrolment_data Example.integral_repr Example.number_of_digits)
           0%nat (Example.session Example.raw_table)).
  - left.
  - apply run_eq. vm_compute. reflexivity.
Defined.

(** *** Where the rows of the table returned come from *)

Lemma traces_refl (R : row → row → Prop) t : (∀ r, R r r) → traces R t t.
Proof.
  intros HR. exists (rows t). split; [done|].
  induction (rows t); constructor; auto.
Qed.

Lemma traces_rowwise (R R' : row → row → Prop) c g t0 t :
  (∀ r0 r, R r0 r → R' r0 (<[c := g r]> r)) →
  traces R t0 t → traces R' t0 (rowwise c g t).
Proof.
  intros HR (kept & Hs & Hk). exists kept. split; [done|].
  cbn [rows rowwise]. apply Forall2_fmap_r. eapply Forall2_impl; [exact Hk|].
  intros r0 r Hr. by apply HR.
Qed.

Lemma Forall2_filter_r {A B} (R : A → B → Prop) (P : B → Prop)
    `{∀ x, Decision (P x)} (k : list A) (l : list B) :
  Forall2 R k l → ∃ k', sublist k' k ∧ Forall2 R k' (filter P l).
Proof.
  induction 1 as [|a b k l Hab _ (k' & Hs & Hk)].
  - exists []. split; [done|constructor].
  - destruct (decide (P b)).
    + exists (a :: k'). split; [by apply sublist_skip|].
      rewrite filter_cons_True by done. by constructor.
    + exists k'. split; [by apply sublist_cons|].
      by rewrite filter_cons_False by done.
Qed.

Lemma traces_where (R : row → row → Prop) p t0 t :
  traces R t0 t → traces R t0 (where_ p t).
Proof.
  intros (kept & Hs & Hk).
  destruct (Forall2_filter_r R (λ r, p r = true) kept (rows t) Hk) as (k' & Hs' & Hk').
  exists k'. split; [by etrans|done].
Qed.

Lemma cleaned_so_far_insert cat cols done (r0 r : row) c v :
  c ∈ touched cat → c ∉ done → c ∉ ["state"; "district"] →
  cleaned_so_far cat cols done r0 r →
  cleaned_so_far cat cols done r0 (<[c := v]> r).
Proof.
  intros Ht Hd Hs (H1 & H2 & H3). split_and!.
  - intros c' Hc'. rewrite lookup_insert_ne; [by apply H1|]. by intros ->.
  - intros c' Hc' Hin. rewrite at_insert_ne; [by apply H2|]. by intros ->.
  - intros c' Hc' Hn. rewrite lookup_insert_ne; [by apply H3|]. by intros ->.
Qed.

Lemma cleaned_so_far_norm cat cols done (r0 r : row) c v :
  c ∈ ["state"; "district"] → c ∉ done →
  (c ∈ cols → v = Series.str_title (Series.str_strip (at_ r c))) →
  cleaned_so_far cat cols done r0 r →
  cleaned_so_far cat cols (c :: done) r0 (<[c := v]> r).
Proof.
  intros Hs Hd Hv (H1 & H2 & H3). split_and!.
  - intros c' Hc'. rewrite lookup_insert_ne; [by apply H1|]. intros ->.
    apply Hc'. unfold touched. apply elem_of_app. by left.
  - intros c' Hc' Hin. apply elem_of_cons in Hc' as [->|Hc'].
    + rewrite at_insert_eq, Hv by done. unfold at_. by rewrite H3.
    + rewrite at_insert_ne; [by apply H2|]. by intros ->.
  - intros c' Hc' Hn. rewrite lookup_insert_ne; [apply H3; [done|]|].
    + intros ?. apply Hn. by apply list_elem_of_further.
    + intros ->. apply Hn. apply list_elem_of_here.
Qed.

Lemma cleaned_so_far_skip cat cols done (r0 r : row) c :
  c ∉ cols →
  cleaned_so_far cat cols done r0 r → cleaned_so_far cat cols (c :: done) r0 r.
Proof.
  intros Hc (H1 & H2 & H3). split_and!; [done| |].
  - intros c' Hc' Hin. apply elem_of_cons in Hc' as [->|Hc']; [done|by apply H2].
  - intros c' Hc' Hn. apply H3; [done|]. intros ?. apply Hn. by apply list_elem_of_further.
Qed.

Lemma traces_norm_string cat done col t0 t :
  col ∈ ["state"; "district"] → col ∉ done →
  traces (cleaned_so_far cat (columns t) done) t0 t →
  traces (cleaned_so_far cat (columns t) (col :: done)) t0 (norm_string col t).
Proof.
  intros Hs Hd Ht. unfold norm_string. destruct (has_column t col) eqn:Hc.
  - eapply traces_rowwise; [|exact Ht]. intros r0 r Hr.
    by apply cleaned_so_far_norm.
  - destruct Ht as (kept & Hk & HF). exists kept. split; [done|].
    eapply Forall2_impl; [exact HF|]. intros r0 r Hr.
    apply cleaned_so_far_skip; [|done].
    unfold has_column in Hc. by apply bool_decide_eq_false in Hc.
Qed.

Section Traces.

Variable float_repr : Qc → string.
Variable numeric_of_string : string → num.
Variable cat : category.
Hypothesis Hnames : ∀ c, c ∈ ["state"; "district"] → c ∉ total_col cat :: count_cols cat.

Local Abbreviation both := ["district"; "state"] (only parsing).

Lemma written_touched c : c ∈ written → c ∈ touched cat.
Proof. intros Hc. unfold touched. rewrite !elem_of_app. right. by left. Qed.

Lemma counted_touched c : c ∈ total_col cat :: count_cols cat → c ∈ touched cat.
Proof. intros Hc. unfold touched. rewrite !elem_of_app. right. by right. Qed.

Lemma written_not_string c : c ∈ written → c ∉ ["state"; "district"].
Proof.
  intros Hc Hs. unfold written in Hc.
  repeat (apply elem_of_cons in Hc as [->|Hc];
          [repeat (apply elem_of_cons in Hs as [Hs|Hs]; [discriminate Hs|]);
           by apply elem_of_nil in Hs|]).
  by apply elem_of_nil in Hc.
Qed.

Lemma counted_not_string c : c ∈ total_col cat :: count_cols cat → c ∉ ["state"; "district"].
Proof. intros Hc Hs. by apply (Hnames c Hs). Qed.

Lemma not_string_not_both c : c ∉ ["state"; "district"] → c ∉ both.
Proof.
  intros Hc Hb. apply Hc.
  apply elem_of_cons in Hb as [->|Hb]; [in_list|].
  apply elem_of_cons in Hb as [->|Hb]; [in_list|]. by apply elem_of_nil in Hb.
Qed.

Lemma traces_written cols c g t0 t :
  c ∈ written →
  traces (cleaned_so_far cat cols both) t0 t →
  traces (cleaned_so_far cat cols both) t0 (rowwise c g t).
Proof.
  intros Hc. apply traces_rowwise. intros r0 r.
  apply cleaned_so_far_insert;
    [by apply written_touched|by apply not_string_not_both, written_not_string
    |by apply written_not_string].
Qed.

Lemma traces_counted cols c g t0 t :
  c ∈ total_col cat :: count_cols cat →
  traces (cleaned_so_far cat cols both) t0 t →
  traces (cleaned_so_far cat cols both) t0 (rowwise c g t).
Proof.
  intros Hc. apply traces_rowwise. intros r0 r.
  apply cleaned_so_far_insert;
    [by apply counted_touched|by apply not_string_not_both, counted_not_string
    |by apply counted_not_string].
Qed.

Lemma traces_norm_counts cols cs t0 t :
  (∀ c, c ∈ cs → c ∈ count_cols cat) →
  traces (cleaned_so_far cat cols both) t0 t →
  traces (cleaned_so_far cat cols both) t0
    (foldl (λ acc col, norm_count numeric_of_string col acc) t cs).
Proof.
  revert t. induction cs as [|c cs IH]; intros t Hcs Ht; [done|]. simpl.
  apply IH; [intros c' Hc'; by apply Hcs, list_elem_of_further|].
  unfold norm_count. destruct (has_column t c); [|done].
  apply traces_counted; [|done]. apply list_elem_of_further, Hcs, list_elem_of_here.
Qed.

Lemma cleaned_table_traces t :
  "date" ∈ columns t →
  traces (cleaned_so_far cat (columns t) both) t
    (cleaned_table float_repr numeric_of_string cat t).
Proof.
  intros Hdate.
  assert (traces (cleaned_so_far cat (columns t) []) t (drop_undated (parse_dates t)))
    as H0.
  { apply traces_where. eapply traces_rowwise; [|apply (traces_refl eq); done].
    intros r0 r <-. split_and!.
    - intros c Hc. rewrite lookup_insert_ne; [done|]. intros <-. apply Hc.
      apply written_touched. in_list.
    - intros c Hc. by apply elem_of_nil in Hc.
    - intros c Hc _. rewrite lookup_insert_ne; [done|]. intros <-.
      by apply (written_not_string "date"); [in_list|]. }
  rewrite <- (columns_dated t Hdate) in H0 at 1.
  apply (traces_norm_string cat [] "state") in H0;
    [|in_list|by intros ?%elem_of_nil].
  rewrite <- (columns_norm_string "state") in H0 at 1.
  apply (traces_norm_string cat ["state"] "district") in H0;
    [|in_list|by intros [=]%list_elem_of_singleton].
  rewrite !columns_norm_string, columns_dated in H0 by done.
  unfold cleaned_table, add_feature.
  do 4 (apply traces_written; [in_list|]).
  apply traces_where. unfold with_total, add_total.
  destruct (forallb _ _); [apply traces_counted; [apply list_elem_of_here|]|];
    (apply traces_norm_counts; [done|]);
    unfold check_pincode; (destruct (has_column _ "pincode");
      [apply traces_where, traces_written; [in_list|]|]); exact H0.
Qed.

End Traces.

Lemma cleaning_operation_names fr ns cat op :
  (cat, op) ∈ cleaning_operations fr ns →
  ∀ c, c ∈ ["state"; "district"] → c ∉ total_col cat :: count_cols cat.
Proof.
  unfold cleaning_operations. intros H c Hc.
  repeat (apply elem_of_cons in H as [[= -> _]|H];
          [repeat (apply elem_of_cons in Hc as [->|Hc];
                   [apply (bool_decide_eq_true_1 _); vm_compute; reflexivity|]);
           by apply elem_of_nil in Hc|]).
  by apply elem_of_nil in H.
Qed.



(** *** The counters of the report *)

Lemma filter_map_comm {A B} (f : A → B) (P : B → Prop) `{∀ x, Decision (P x)}
    (l : list A) :
  filter P (map f l) = map f (filter (λ a, P (f a)) l).
Proof.
  induction l as [|a l IH]; [done|]. simpl.
  destruct (decide (P (f a))).
  - rewrite !filter_cons_True by done. simpl. by rewrite IH.
  - by rewrite !filter_cons_False by done.
Qed.

Lemma length_filter_split {A} (p : A → bool) (l : list A) :
  (length (filter (λ a, p a = true) l) + length (filter (λ a, p a = false) l)
   = length l)%nat.
Proof.
  induction l as [|a l IH]; [done|]. destruct (p a) eqn:E.
  - rewrite filter_cons_True, filter_cons_False by (by rewrite E). simpl. lia.
  - rewrite filter_cons_False, filter_cons_True by (by rewrite E). simpl. lia.
Qed.

Lemma length_filter_disjoint {A} (P Q : A → Prop)
    `{∀ x, Decision (P x)} `{∀ x, Decision (Q x)} (l : list A) :
  (∀ a, P a → Q a → False) →
  (length (filter P l) + length (filter Q l) ≤ length l)%nat.
Proof.
  intros HPQ. induction l as [|a l IH]; [done|].
  destruct (decide (P a)), (decide (Q a)).
  - by destruct (HPQ a).
  - rewrite filter_cons_True, filter_cons_False by done. simpl. lia.
  - rewrite filter_cons_False, filter_cons_True by done. simpl. lia.
  - rewrite !filter_cons_False by done. simpl. lia.
Qed.

Lemma length_filter_Forall2 {A B} (R : A → B → Prop) (P : A → Prop) (Q : B → Prop)
    `{∀ x, Decision (P x)} `{∀ x, Decision (Q x)} (k : list A) (l : list B) :
  (∀ a b, R a b → (P a ↔ Q b)) →
  Forall2 R k l → length (filter P k) = length (filter Q l).
Proof.
  intros HR. induction 1 as [|a b k l Hab _ IH]; [done|].
  destruct (decide (P a)) as [Ha|Ha].
  - rewrite !filter_cons_True by (done || by apply (HR a b)). simpl. by rewrite IH.
  - rewrite !filter_cons_False; [done| |done]. intros Hb. by apply Ha, (HR a b).
Qed.

Lemma length_filter_and {A} (P Q : A → Prop)
    `{∀ x, Decision (P x)} `{∀ x, Decision (Q x)} (l : list A) :
  length (filter Q (filter P l)) = length (filter (λ a, P a ∧ Q a) l).
Proof.
  induction l as [|a l IH]; [done|].
  destruct (decide (P a)), (decide (Q a)).
  - rewrite (filter_cons_True P), (filter_cons_True Q), (filter_cons_True (λ a, P a ∧ Q a))
      by done. simpl. by rewrite IH.
  - rewrite (filter_cons_True P), (filter_cons_False Q),
      (filter_cons_False (λ a, P a ∧ Q a)) by tauto. done.
  - rewrite (filter_cons_False P), (filter_cons_False (λ a, P a ∧ Q a)) by tauto. done.
  - rewrite (filter_cons_False P), (filter_cons_False (λ a, P a ∧ Q a)) by tauto. done.
Qed.

(** The rows that have a date. *)
Lemma dated_rows t :
  rows (drop_undated (parse_dates t))
  = map (λ r, <["date" := Series.to_datetime (at_ r "date")]> r)
      (filter (λ r, isnull (Series.to_datetime (at_ r "date")) = false) (rows t)).
Proof.
  unfold drop_undated, parse_dates. cbn [rows rowwise where_].
  rewrite filter_map_comm. f_equal. apply list_filter_iff. intros r.
  rewrite at_insert_eq. by destruct (isnull _).
Qed.

Lemma len_dated t :
  len t = invalid_date_rows t + len (drop_undated (parse_dates t)).
Proof.
  unfold len, invalid_date_rows. rewrite dated_rows, length_map.
  pose proof (length_filter_split (λ r, isnull (Series.to_datetime (at_ r "date")))
                (rows t)). lia.
Qed.

Lemma length_rowwise c g t : length (rows (rowwise c g t)) = length (rows t).
Proof. cbn [rows rowwise]. by rewrite length_map. Qed.

Lemma length_norm_string col t : length (rows (norm_string col t)) = length (rows t).
Proof. unfold norm_string. destruct (has_column t col); [apply length_rowwise|done]. Qed.

Lemma length_norm_count ns col t : length (rows (norm_count ns col t)) = length (rows t).
Proof. unfold norm_count. destruct (has_column t col); [apply length_rowwise|done]. Qed.

Lemma length_foldl (F : string → DataFrame → DataFrame) cols t :
  (∀ c t, length (rows (F c t)) = length (rows t)) →
  length (rows (foldl (λ acc c, F c acc) t cols)) = length (rows t).
Proof.
  intros HF. revert t. induction cols as [|c cols IH]; intros t; [done|]. simpl.
  by rewrite IH, HF.
Qed.

Lemma length_add_total cat t : length (rows (add_total cat t)) = length (rows t).
Proof. unfold add_total. destruct (forallb _ _); [apply length_rowwise|done]. Qed.

(** The pincode of a row is not written before it is checked. *)
Lemma pincode_before_check t :
  Forall2 (λ r0 r, at_ r "pincode" = at_ r0 "pincode")
    (filter (λ r, isnull (Series.to_datetime (at_ r "date")) = false) (rows t))
    (rows (foldl (λ acc col, norm_string col acc)
             (drop_undated (parse_dates t)) ["state"; "district"])).
Proof.
  assert (∀ col k t1, col ≠ "pincode" →
            Forall2 (λ r0 r : row, at_ r "pincode" = at_ r0 "pincode") k (rows t1) →
            Forall2 (λ r0 r : row, at_ r "pincode" = at_ r0 "pincode") k
              (rows (norm_string col t1))) as Hstep.
  { intros col k t1 Hcol Hk. unfold norm_string. destruct (has_column t1 col); [|done].
    cbn [rows rowwise]. apply Forall2_fmap_r. eapply Forall2_impl; [exact Hk|].
    intros r0 r Hr. simpl. by rewrite at_insert_ne. }
  simpl. apply Hstep; [done|]. apply Hstep; [done|].
  rewrite dated_rows. apply Forall2_fmap_r, Forall_Forall2_diag, Forall_true.
  intros r. simpl. by rewrite at_insert_ne.
Qed.

Lemma len_check_pincode fr t :
  "date" ∈ columns t →
  len (drop_undated (parse_dates t))
  = bad_pincode_rows fr t
    + len (check_pincode fr (foldl (λ acc col, norm_string col acc)
                               (drop_undated (parse_dates t)) ["state"; "district"])).
Proof.
  intros Hdate. unfold len, bad_pincode_rows, check_pincode.
  set (B := foldl _ _ _).
  assert (length (rows B) = length (rows (drop_undated (parse_dates t)))) as HB.
  { unfold B. apply (length_foldl norm_string), length_norm_string. }
  assert (has_column B "pincode" = has_column t "pincode") as ->.
  { unfold has_column, B.
    rewrite (columns_foldl norm_string) by apply columns_norm_string.
    by rewrite columns_dated. }
  destruct (has_column t "pincode"); [|lia].
  cbn [rows rowwise where_]. rewrite filter_map_comm, length_map.
  pose proof (length_filter_split
                (λ r, Series.eq_int 6 (Series.str_len
                        (at_ (<["pincode" := Series.str_zfill 6
                                  (Series.astype_str fr (at_ r "pincode"))]> r) "pincode")))
                (rows B)) as Hsplit.
  assert (length (filter (λ r, isnull (Series.to_datetime (at_ r "date")) = false
                                ∧ Series.eq_int 6
                                    (Series.str_len
                                       (Series.str_zfill 6
                                          (Series.astype_str fr (at_ r "pincode"))))
                                  = false) (rows t))
          = length (filter (λ r, Series.eq_int 6 (Series.str_len
                        (at_ (<["pincode" := Series.str_zfill 6
                                  (Series.astype_str fr (at_ r "pincode"))]> r) "pincode"))
                      = false) (rows B))) as ->; [|lia].
  rewrite <- (length_filter_and
                (λ r, isnull (Series.to_datetime (at_ r "date")) = false)).
  apply (length_filter_Forall2 (λ r0 r : row, at_ r "pincode" = at_ r0 "pincode"));
    [|apply pincode_before_check].
  intros a b Hab. simpl. by rewrite at_insert_eq, Hab.
Qed.

Lemma len_with_total fr ns cat t :
  len (with_total fr ns cat t)
  = len (check_pincode fr (foldl (λ acc col, norm_string col acc)
                             (drop_undated (parse_dates t)) ["state"; "district"])).
Proof.
  unfold len, with_total. f_equal. rewrite length_add_total.
  apply (length_foldl (norm_count ns)), length_norm_count.
Qed.

Lemma zero_not_positive c (r : row) :
  positive c r = true → Series.eq_int 0 (at_ r c) = true → False.
Proof.
  unfold positive. destruct (at_ r c) as [s|n|x|d|]; simpl; try done.
  - intros Hp%bool_decide_eq_true He%bool_decide_eq_true. lia.
  - destruct x as [q| | |]; simpl; try done.
    intros Hp%bool_decide_eq_true He%bool_decide_eq_true. subst q.
    exact (Qclt_not_le _ _ Hp (Qcle_refl _)).
Qed.

Lemma len_cleaned fr ns cat t :
  len (cleaned_table fr ns cat t) + zero_total_rows fr ns cat t
  ≤ len (with_total fr ns cat t).
Proof.
  unfold len, zero_total_rows. rewrite cleaned_rows, length_map.
  pose proof (length_filter_disjoint
                (λ r, positive (total_col cat) r = true)
                (λ r, Series.eq_int 0 (at_ r (total_col cat)) = true)
                (rows (with_total fr ns cat t))
                (zero_not_positive (total_col cat))). lia.
Qed.

Lemma nonneg_add x y : nonneg x → nonneg y → nonneg (Num.add x y).
Proof.
  unfold nonneg. destruct x as [p| | |], y as [q| | |]; simpl; try (intros [] []; done).
  intros [_ Hp] [_ Hq]. split; [done|].
  apply bool_decide_eq_false in Hp, Hq. apply bool_decide_eq_false.
  apply Qcle_not_lt. apply Qcnot_lt_le in Hp, Hq.
  rewrite Qc_of_Z_0 in *. replace 0%Qc with (0 + 0)%Qc by ring.
  by apply Qcplus_le_compat.
Qed.

Lemma nonneg_sum l : Forall nonneg l → nonneg (Num.sum l).
Proof.
  unfold Num.sum. assert (nonneg zero) as H0 by (by split).
  revert H0. generalize zero. induction l as [|x l IH]; intros acc Hacc Hl; [done|].
  simpl. apply IH; [|by eapply Forall_inv_tail].
  apply nonneg_add; [done|by eapply Forall_inv].
Qed.

Lemma nonneg_positive_or_zero x :
  nonneg x → Num.gtb x zero = negb (Num.eqb x zero).
Proof.
  unfold nonneg. destruct x as [q| | |]; simpl; try (intros []; done).
  intros [_ Hq]. apply bool_decide_eq_false, Qcnot_lt_le in Hq.
  destruct (decide (q = Qc_of_Z 0)) as [->|Hne].
  - rewrite (bool_decide_eq_true_2 (Qc_of_Z 0 = Qc_of_Z 0)) by done.
    apply bool_decide_eq_false. apply Qcle_not_lt, Qcle_refl.
  - rewrite (bool_decide_eq_false_2 (q = Qc_of_Z 0)) by done.
    apply bool_decide_eq_true. destruct (Qclt_le_dec (Qc_of_Z 0) q) as [|Hle]; [done|].
    destruct Hne. by apply Qcle_antisym.
Qed.

Lemma counted_norm_count ns col t :
  has_column t col = true → Forall (counted col) (rows (norm_count ns col t)).
Proof.
  intros Hc. unfold norm_count. rewrite Hc. cbn [rows rowwise].
  apply Forall_fmap, Forall_true. intros r. simpl. unfold counted.
  rewrite at_insert_eq. destruct (to_numeric_num ns (at_ r col)) as [x ->].
  eexists. split; [reflexivity|]. apply nonneg_clip.
Qed.

Lemma counted_kept ns cs c t :
  c ∉ cs → Forall (counted c) (rows t) →
  Forall (counted c) (rows (foldl (λ acc col, norm_count ns col acc) t cs)).
Proof.
  revert t. induction cs as [|c0 cs IH]; intros t Hc Ht; [done|]. simpl.
  apply IH; [by intros ?; apply Hc, list_elem_of_further|].
  unfold norm_count. destruct (has_column t c0); [|done].
  cbn [rows rowwise]. apply Forall_fmap. eapply Forall_impl; [exact Ht|].
  intros r Hr. simpl. unfold counted. rewrite at_insert_ne; [done|].
  intros ->. apply Hc, list_elem_of_here.
Qed.

Lemma counted_all ns cs t :
  NoDup cs → (∀ c, c ∈ cs → c ∈ columns t) →
  Forall (λ r, ∀ c, c ∈ cs → counted c r)
         (rows (foldl (λ acc col, norm_count ns col acc) t cs)).
Proof.
  revert t. induction cs as [|c0 cs IH]; intros t Hnd Hcs.
  { apply Forall_true. intros r c Hc. by apply elem_of_nil in Hc. }
  apply NoDup_cons in Hnd as [Hc0 Hnd]. simpl.
  assert (Forall (counted c0)
            (rows (foldl (λ acc col, norm_count ns col acc) (norm_count ns c0 t) cs)))
    as H0.
  { apply counted_kept; [done|]. apply counted_norm_count.
    apply bool_decide_eq_true, Hcs, list_elem_of_here. }
  assert (Forall (λ r, ∀ c, c ∈ cs → counted c r)
            (rows (foldl (λ acc col, norm_count ns col acc) (norm_count ns c0 t) cs)))
    as H1.
  { apply IH; [done|]. intros c Hc. rewrite columns_norm_count.
    by apply Hcs, list_elem_of_further. }
  rewrite Forall_forall in H0, H1. apply Forall_forall. intros r Hr c Hc.
  apply elem_of_cons in Hc as [->|Hc]; [by apply H0|by apply H1].
Qed.

Lemma total_positive_or_zero fr ns cat t :
  cat_wf cat → "date" ∈ columns t → (∀ c, c ∈ count_cols cat → c ∈ columns t) →
  Forall (λ r, positive (total_col cat) r
               = negb (Series.eq_int 0 (at_ r (total_col cat))))
         (rows (with_total fr ns cat t)).
Proof.
  intros Hwf Hdate Hall. unfold with_total, add_total.
  rewrite add_total_cases by done.
  rewrite (proj2 (all_columns_present t (count_cols cat)) Hall).
  cbn [rows rowwise]. apply Forall_fmap.
  eapply Forall_impl.
  { apply counted_all; [apply (wf_counts cat Hwf)|].
    intros c Hc. rewrite columns_named by done. by apply Hall. }
  intros r Hr. simpl. unfold positive. rewrite at_insert_eq.
  unfold row_sum. simpl. apply nonneg_positive_or_zero.
  assert (Forall nonneg (map (λ c, to_num (at_ r c)) (count_cols cat))) as Hn.
  { apply Forall_fmap, Forall_forall. intros c Hc. simpl.
    destruct (Hr c Hc) as (x & -> & Hx). done. }
  rewrite nansum_present; [by apply nonneg_sum|].
  eapply Forall_impl; [exact Hn|]. by intros x [? _].
Qed.

Lemma length_filter_Forall {A} (P Q : A → Prop)
    `{∀ x, Decision (P x)} `{∀ x, Decision (Q x)} (l : list A) :
  Forall (λ a, P a ↔ Q a) l → length (filter P l) = length (filter Q l).
Proof.
  induction 1 as [|a l Ha _ IH]; [done|].
  destruct (decide (P a)) as [Hp|Hp].
  - rewrite !filter_cons_True by tauto. simpl. by rewrite IH.
  - rewrite !filter_cons_False by tauto. done.
Qed.

Lemma len_cleaned_counted fr ns cat t :
  cat_wf cat → "date" ∈ columns t → (∀ c, c ∈ count_cols cat → c ∈ columns t) →
  len (cleaned_table fr ns cat t) + zero_total_rows fr ns cat t
  = len (with_total fr ns cat t).
Proof.
  intros Hwf Hdate Hall. unfold len, zero_total_rows. rewrite cleaned_rows, length_map.
  pose proof (length_filter_split (positive (total_col cat))
                (rows (with_total fr ns cat t))) as Hs.
  rewrite (length_filter_Forall
             (λ r, Series.eq_int 0 (at_ r (total_col cat)) = true)
             (λ r, positive (total_col cat) r = false)); [lia|].
  eapply Forall_impl; [exact (total_positive_or_zero fr ns cat t Hwf Hdate Hall)|].
  intros r Hr. simpl in *. rewrite Hr.
  by destruct (Series.eq_int 0 (at_ r (total_col cat))).
Qed.

Lemma zero_key_cases fr ns cat op :
  (cat, op) ∈ cleaning_operations fr ns →
  zero_key cat = "zero_enrolments" ∨ zero_key cat = "zero_updates".
Proof.
  unfold cleaning_operations. intros Hop.
  repeat (apply elem_of_cons in Hop as [[= -> _]|Hop]; [simpl; auto|]).
  by apply elem_of_nil in Hop.
Qed.

Lemma report_entry_lookup cat i f inv z :
  zero_key cat = "zero_enrolments" ∨ zero_key cat = "zero_updates" →
  report_entry cat i f inv z !! "initial_rows" = Some i
  ∧ report_entry cat i f inv z !! "final_rows" = Some f
  ∧ report_entry cat i f inv z !! "rows_removed" = Some (i - f)
  ∧ report_entry cat i f inv z !! "invalid_dates" = Some inv
  ∧ report_entry cat i f inv z !! zero_key cat = Some z.
Proof.
  intros Hz. unfold report_entry. split_and!.
  - by rewrite lookup_insert_eq.
  - rewrite lookup_insert_ne by done. by rewrite lookup_insert_eq.
  - rewrite !lookup_insert_ne by done. by rewrite lookup_insert_eq.
  - rewrite !lookup_insert_ne by done. by rewrite lookup_insert_eq.
  - destruct Hz as [-> | ->]; rewrite !lookup_insert_ne by done;
      by rewrite lookup_insert_eq.
Qed.

(** The counters of the entry that a cleaning method stores never count a
    row twice: [invalid_dates] and the zero counter together are at most
    [rows_removed]; either is at least 0, and [final_rows] lies between 0
    and [initial_rows]. *)
Theorem removed_rows_bound_the_counters fr ns cat op df w l w' :
  (cat, op) ∈ cleaning_operations fr ns →
  op df w = (Ok l, w') →
  ∃ entry i f rm inv z,
    cleaning_report w' !! report_key cat = Some entry
    ∧ entry !! "initial_rows" = Some i
    ∧ entry !! "final_rows" = Some f
    ∧ entry !! "rows_removed" = Some rm
    ∧ entry !! "invalid_dates" = Some inv
    ∧ entry !! zero_key cat = Some z
    ∧ 0 ≤ f ≤ i ∧ 0 ≤ inv ∧ 0 ≤ z ∧ inv + z ≤ rm.
Proof.
  intros Hop Hrun.
  destruct (cleaning_run_outcome fr ns cat op df w l w' Hop Hrun)
    as (t & Hdf & Hdate & _ & _ & _ & Hrep).
  destruct (report_entry_lookup cat (len t) (len (cleaned_table fr ns cat t))
              (invalid_date_rows t) (zero_total_rows fr ns cat t)
              (zero_key_cases fr ns cat op Hop)) as (H1 & H2 & H3 & H4 & H5).
  eexists _, _, _, _, _, _. rewrite Hrep, lookup_insert_eq.
  split; [reflexivity|]. split_and!; [exact H1|exact H2|exact H3|exact H4|exact H5|..].
  all: pose proof (len_dated t); pose proof (len_check_pincode fr t Hdate);
    pose proof (len_with_total fr ns cat t); pose proof (len_cleaned fr ns cat t);
    unfold len, invalid_date_rows, zero_total_rows, bad_pincode_rows in *;
    destruct (has_column t "pincode"); lia.
Qed.

Lemma removed_rows_bound_witness :
  ∃ entry i f rm inv z,
    cleaning_report
      (clean_enrolment_data Example.integral_repr Example.number_of_digits
         0%nat (Example.session Example.raw_table)).2 !! report_key enrolment
    = Some entry
    ∧ entry !! "initial_rows" = Some i
    ∧ entry !! "final_rows" = Some f
    ∧ entry !! "rows_removed" = Some rm
    ∧ entry !! "invalid_dates" = Some inv
    ∧ entry !! zero_key enrolment = Some z
    ∧ 0 ≤ f ≤ i ∧ 0 ≤ inv ∧ 0 ≤ z ∧ inv + z ≤ rm.
Proof.
  apply (removed_rows_bound_the_counters
           Example.integral_repr Example.number_of_digits enrolment
           (clean_enrolment_data Example.integral_repr Example.number_of_digits)
           0%nat (Example.session Example.raw_table) 4%nat).
  - left.
  - apply run_eq. vm_compute. reflexivity.
Defined.

(** When the raw table has all the count columns of the category, every
    row that a cleaning method removes is accounted for: [rows_removed] is
    [invalid_dates], plus the rows with a date whose padded pincode has not
    six characters, plus the zero counter. *)
Theorem removed_rows_are_accounted_for fr ns cat op df w t l w' :
  (cat, op) ∈ cleaning_operations fr ns →
  heap w !! df = Some t →
  (∀ c, c ∈ count_cols cat → c ∈ columns t) →
  op df w = (Ok l, w') →
  ∃ entry z,
    cleaning_report w' !! report_key cat = Some entry
    ∧ entry !! "invalid_dates" = Some (invalid_date_rows t)
    ∧ entry !! zero_key cat = Some z
    ∧ entry !! "rows_removed"
      = Some (invalid_date_rows t + bad_pincode_rows fr t + z).
Proof.
  intros Hop Hdf Hall Hrun.
  destruct (cleaning_run_outcome fr ns cat op df w l w' Hop Hrun)
    as (t0 & Hdf0 & Hdate & _ & _ & _ & Hrep).
  rewrite Hdf in Hdf0. injection Hdf0 as <-.
  destruct (report_entry_lookup cat (len t) (len (cleaned_table fr ns cat t))
              (invalid_date_rows t) (zero_total_rows fr ns cat t)
              (zero_key_cases fr ns cat op Hop)) as (_ & _ & H3 & H4 & H5).
  eexists _, _. rewrite Hrep, lookup_insert_eq.
  split; [reflexivity|]. split_and!; [exact H4|exact H5|].
  rewrite H3. f_equal.
  pose proof (len_dated t). pose proof (len_check_pincode fr t Hdate).
  pose proof (len_with_total fr ns cat t).
  pose proof (len_cleaned_counted fr ns cat t (cleaning_operation_wf _ _ _ _ Hop)
                Hdate Hall).
  lia.
Qed.

Lemma removed_rows_accounted_witness :
  ∃ entry z,
    cleaning_report
      (clean_demographic_data Example.integral_repr Example.number_of_digits
         0%nat (Example.session raw_demographic)).2 !! report_key demographic
    = Some entry
    ∧ entry !! "invalid_dates" = Some (invalid_date_rows raw_demographic)
    ∧ entry !! zero_key demographic = Some z
    ∧ entry !! "rows_removed"
      = Some (invalid_date_rows raw_demographic
              + bad_pincode_rows Example.integral_repr raw_demographic + z).
Proof.
  apply (removed_rows_are_accounted_for
           Example.integral_repr Example.number_of_digits demographic
           (clean_demographic_data Example.integral_repr Example.number_of_digits)
           0%nat (Example.session raw_demographic) raw_demographic 4%nat).
  - right. left.
  - reflexivity.
  - intros c Hc. apply (bool_decide_eq_true_1 _).
    repeat (apply elem_of_cons in Hc as [->|Hc]; [vm_compute; reflexivity|]).
    by apply elem_of_nil in Hc.
  - apply run_eq. vm_compute. reflexivity.
Defined.

(** ** [detect_outliers] *)

Lemma detect_outliers_run sqrt df column method threshold w t :
  heap w !! df = Some t →
  detect_outliers sqrt df column method threshold w
  = (if bool_decide (method = "iqr") then
       if bool_decide (column ∈ columns t)
       then Ok (iqr_flags threshold (column_values t column))
       else Raise (KeyError column)
     else if bool_decide (method = "zscore") then
       if bool_decide (column ∈ columns t)
       then Ok (zscore_flags sqrt threshold (column_values t column))
       else Raise (KeyError column)
     else Raise ValueError, w).
Proof.
  intros Hdf. unfold detect_outliers, getitem, has_column, iqr_flags, zscore_flags,
    column_values.
  repeat case_bool_decide; try done; rewrite (eval_run _ df w t Hdf);
    repeat case_bool_decide; try done; simpl; by rewrite !map_map.
Qed.

Lemma iqr_flag_missing lo hi : Num.ltb NaN lo || Num.gtb NaN hi = false.
Proof. unfold Num.gtb. by destruct lo, hi. Qed.

Lemma zscore_flag_missing m s threshold :
  Num.gtb (fabs (Num.div (Num.sub NaN m) s)) threshold = false.
Proof. unfold Num.gtb. by destruct m, s, threshold. Qed.

Lemma not_a_method method :
  method ≠ "iqr" → method ≠ "zscore" → method ∉ outlier_methods.
Proof.
  intros H1 H2 H. unfold outlier_methods in H.
  apply elem_of_cons in H as [->|H]; [done|].
  apply elem_of_cons in H as [->|H]; [done|]. by apply elem_of_nil in H.
Qed.

(** [detect_outliers] on a numeric column: the method is checked before the
    column is looked up, the call changes nothing, the result has one flag
    for every row, and a row whose value is missing is never flagged. *)
Theorem detect_outliers_outcome sqrt df column method threshold w t :
  heap w !! df = Some t →
  numeric_column t column →
  (detect_outliers sqrt df column method threshold w).2 = w
  ∧ match (detect_outliers sqrt df column method threshold w).1 with
    | Ok flags =>
        method ∈ outlier_methods ∧ column ∈ columns t
        ∧ length flags = length (rows t)
        ∧ ∀ i, column_values t column !! i = Some NaN → flags !! i = Some false
    | Raise e =>
        (e = ValueError ∧ method ∉ outlier_methods)
        ∨ (e = KeyError column ∧ method ∈ outlier_methods ∧ column ∉ columns t)
    end.
Proof.
  intros Hdf _. rewrite (detect_outliers_run sqrt df column method threshold w t Hdf).
  split; [done|]. cbn [fst]. unfold outlier_methods.
  repeat case_bool_decide; subst.
  - split_and!; [in_list|done| |].
    + unfold iqr_flags, column_values. by rewrite !length_map.
    + intros i Hi. unfold iqr_flags. rewrite list_lookup_fmap, Hi.
      cbn [fmap option_fmap option_map]. by rewrite iqr_flag_missing.
  - right. split_and!; [done|in_list|done].
  - split_and!; [in_list|done| |].
    + unfold zscore_flags, column_values. by rewrite !length_map.
    + intros i Hi. unfold zscore_flags. rewrite list_lookup_fmap, Hi.
      cbn [fmap option_fmap option_map]. by rewrite zscore_flag_missing.
  - right. split_and!; [done|in_list|done].
  - left. split; [done|]. by apply not_a_method.
Qed.

Lemma measures_numeric : numeric_column measures_table "value".
Proof. apply numeric_column_check. vm_compute. reflexivity. Qed.

Lemma detect_outliers_outcome_witness :
  let r := detect_outliers small_sqrt 0%nat "value" "zscore" (of_Z 3)
             (Example.session measures_table) in
  r.2 = Example.session measures_table
  ∧ match r.1 with
    | Ok flags =>
        "zscore" ∈ outlier_methods ∧ "value" ∈ columns measures_table
        ∧ length flags = length (rows measures_table)
        ∧ ∀ i, column_values measures_table "value" !! i = Some NaN
               → flags !! i = Some false
    | Raise e =>
        (e = ValueError ∧ "zscore" ∉ outlier_methods)
        ∨ (e = KeyError "value" ∧ "zscore" ∈ outlier_methods
           ∧ "value" ∉ columns measures_table)
    end.
Proof.
  apply (detect_outliers_outcome small_sqrt 0%nat "value" "zscore" (of_Z 3)
           (Example.session measures_table) measures_table).
  - reflexivity.
  - apply measures_numeric.
Defined.

Local Open Scope Qc_scope.

(** *** Floors and places *)

Lemma Qc_floor_le (x : Qc) : Qc_of_Z (Qfloor x) ≤ x.
Proof. to_Q. apply Qfloor_le. Qed.

Lemma Qc_lt_floor (x : Qc) : x < Qc_of_Z (Qfloor x) + 1.
Proof.
  to_Q. pose proof (Qlt_floor x) as H.
  rewrite inject_Z_plus in H. exact H.
Qed.

Lemma Qc_floor_mono (x y : Qc) : x ≤ y → (Qfloor x ≤ Qfloor y)%Z.
Proof. intros H. by apply Qfloor_resp_le. Qed.

Lemma Qc_floor_of_Z (z : Z) : Qfloor (Qc_of_Z z) = z.
Proof.
  transitivity (Qfloor (inject_Z z)); [|apply Qfloor_Z].
  apply Qfloor_comp. unfold Qc_of_Z. cbn [this Q2Qc]. first [apply Qred_correct|reflexivity].
Qed.

Lemma Qc_of_Z_le a b : (a ≤ b)%Z → Qc_of_Z a ≤ Qc_of_Z b.
Proof. intros H. to_Q. by rewrite <- Zle_Qle. Qed.

Lemma ascending_nth s (i j : nat) d :
  ascending s → (i ≤ j)%nat → (j < length s)%nat → nth i s d ≤ nth j s d.
Proof.
  revert i j. induction s as [|x s IH]; intros i j Hasc Hij Hj; simpl in Hj; [lia|].
  destruct Hasc as [Hx Hs].
  destruct i as [|i], j as [|j]; simpl.
  - apply Qcle_refl.
  - rewrite Forall_forall in Hx. apply Hx. apply list_elem_of_In, nth_In. lia.
  - lia.
  - apply IH; [done|lia|lia].
Qed.

Lemma Qc_mult_range (N q : Qc) : 0 ≤ N → 0 ≤ q → q ≤ 1 → 0 ≤ N * q ∧ N * q ≤ N.
Proof. intros. split; to_Q; nra. Qed.

Lemma Qc_mult_mono (N q q' : Qc) : 0 ≤ N → q ≤ q' → N * q ≤ N * q'.
Proof. intros. to_Q. nra. Qed.

(** The place of the quantile [q] among [n] values. *)
Lemma place_range (n : nat) (q index : Qc) :
  index = Qc_of_Z (Z.of_nat n - 1) * q →
  (0 < n)%nat → 0 ≤ q → q ≤ 1 →
  (0 ≤ Qfloor index ≤ Z.of_nat n - 1)%Z.
Proof.
  intros -> Hn H0 H1.
  assert (0 ≤ Qc_of_Z (Z.of_nat n - 1)) as HN.
  { rewrite <- Qc_of_Z_0. apply Qc_of_Z_le. lia. }
  destruct (Qc_mult_range _ q HN H0 H1) as [Ha Hb]. split.
  - rewrite <- (Qc_floor_of_Z 0). apply Qc_floor_mono. by rewrite Qc_of_Z_0.
  - rewrite <- (Qc_floor_of_Z (Z.of_nat n - 1)) at 2. by apply Qc_floor_mono.
Qed.

(** *** The quantile of finite values *)

Lemma nth_map_Fin (i : nat) (s : list Qc) x0 :
  (i < length s)%nat → nth i (map Fin s) x0 = Fin (nth i s 0).
Proof.
  intros Hi. rewrite (nth_indep _ x0 (Fin 0)) by (by rewrite length_map).
  apply (map_nth Fin).
Qed.

Lemma quantile_sorted (q : Qc) (x : list num) (s : list Qc) :
  sort_values (filter (λ v, isnan v = false) x) = map Fin s →
  s ≠ [] → 0 ≤ q → q ≤ 1 →
  quantile q x = Fin (interpolate s q).
Proof.
  intros Hs Hne H0 H1. unfold quantile. rewrite Hs.
  destruct s as [|a s]; [done|]. cbn [map]. cbv zeta.
  change (Fin a :: map Fin s) with (map Fin (a :: s)). rewrite length_map.
  pose proof (place_range (length (a :: s)) q _ eq_refl ltac:(simpl; lia) H0 H1) as Hp.
  unfold interpolate.
  set (index := Qc_of_Z (Z.of_nat (length (a :: s)) - 1) * q) in *.
  rewrite !nth_map_Fin by lia. reflexivity.
Qed.

Lemma present_sorted (x : list num) :
  Forall finite_or_missing x →
  ∃ qs s, filter (λ v, isnan v = false) x = map Fin qs
          ∧ sort_values (map Fin qs) = map Fin s
          ∧ s ≡ₚ qs ∧ ascending s.
Proof.
  intros Hx.
  assert (∃ qs, filter (λ v, isnan v = false) x = map Fin qs) as [qs Hqs].
  { induction Hx as [|v x Hv _ [qs IH]]; [by exists []|].
    destruct v as [p| | |].
    - exists (p :: qs). rewrite filter_cons_True by done. simpl. by rewrite IH.
    - by destruct Hv.
    - by destruct Hv.
    - exists qs. by rewrite filter_cons_False by done. }
  destruct (sort_values_Fin qs) as (s & Hs & Hp & Ha). by exists qs, s.
Qed.

Lemma interpolate_between (s : list Qc) (q : Qc) :
  ascending s → s ≠ [] → 0 ≤ q → q ≤ 1 →
  let index := Qc_of_Z (Z.of_nat (length s) - 1) * q in
  let i := Z.to_nat (Qfloor index) in
  let j := (S i `min` (length s - 1))%nat in
  nth i s 0 ≤ interpolate s q ∧ interpolate s q ≤ nth j s 0.
Proof.
  intros Ha Hne H0 H1 index i j.
  assert (0 < length s)%nat as Hn by (destruct s; [done|simpl; lia]).
  pose proof (place_range (length s) q index eq_refl Hn H0 H1) as Hp.
  pose proof (Qc_floor_le index) as Hf1. pose proof (Qc_lt_floor index) as Hf2.
  assert (nth i s 0 ≤ nth j s 0) as Hab.
  { apply ascending_nth; [done|unfold j; lia|unfold j; lia]. }
  unfold interpolate. fold index. fold i. fold j.
  set (a := nth i s 0) in *. set (b := nth j s 0) in *.
  set (f := Qc_of_Z (Qfloor index)) in *.
  split; to_Q; nra.
Qed.

Lemma interpolate_mono (s : list Qc) (q q' : Qc) :
  ascending s → s ≠ [] → 0 ≤ q → q ≤ q' → q' ≤ 1 →
  interpolate s q ≤ interpolate s q'.
Proof.
  intros Ha Hne H0 Hqq H1.
  assert (0 < length s)%nat as Hn by (destruct s; [done|simpl; lia]).
  assert (q ≤ 1) as H1' by (by etrans).
  assert (0 ≤ q') as H0' by (by etrans).
  pose proof (interpolate_between s q Ha Hne H0 H1') as [_ Hup].
  pose proof (interpolate_between s q' Ha Hne H0' H1) as [Hlo _].
  cbv zeta in *.
  set (index := Qc_of_Z (Z.of_nat (length s) - 1) * q) in *.
  set (index' := Qc_of_Z (Z.of_nat (length s) - 1) * q') in *.
  pose proof (place_range (length s) q index eq_refl Hn H0 H1') as Hp.
  pose proof (place_range (length s) q' index' eq_refl Hn H0' H1) as Hp'.
  assert (index ≤ index') as Hii.
  { apply Qc_mult_mono; [|done]. rewrite <- Qc_of_Z_0. apply Qc_of_Z_le. lia. }
  pose proof (Qc_floor_mono _ _ Hii) as Hfl.
  destruct (decide (Qfloor index = Qfloor index')) as [Heq|Hne'].
  - unfold interpolate. fold index. fold index'. rewrite <- Heq.
    set (i := Z.to_nat (Qfloor index)).
    set (j := (S i `min` (length s - 1))%nat).
    assert (nth i s 0 ≤ nth j s 0) as Hab.
    { apply ascending_nth; [done|unfold j; lia|unfold j, i; lia]. }
    set (a := nth i s 0) in *. set (b := nth j s 0) in *.
    set (f := Qc_of_Z (Qfloor index)) in *.
    to_Q. nra.
  - etrans; [exact Hup|]. etrans; [|exact Hlo].
    apply ascending_nth; [done|lia|lia].
Qed.

Lemma quantile_missing (q : Qc) (x : list num) :
  filter (λ v, isnan v = false) x = [] → quantile q x = NaN.
Proof. intros H. unfold quantile. by rewrite H. Qed.

Lemma quarter_range : 0 ≤ Q2Qc (1 # 4) ∧ Q2Qc (1 # 4) ≤ Q2Qc (3 # 4) ∧ Q2Qc (3 # 4) ≤ 1.
Proof. split_and!; by vm_compute. Qed.

(** The quartiles of a column of finite values. *)
Lemma quartiles (x : list num) :
  Forall finite_or_missing x →
  Exists (λ v, isnan v = false) x →
  ∃ s a1 a3,
    filter (λ v, isnan v = false) x ≡ₚ map Fin s ∧ ascending s ∧ s ≠ []
    ∧ quantile (Q2Qc (1 # 4)) x = Fin a1 ∧ quantile (Q2Qc (3 # 4)) x = Fin a3
    ∧ a1 ≤ a3
    ∧ a1 = interpolate s (Q2Qc (1 # 4)) ∧ a3 = interpolate s (Q2Qc (3 # 4)).
Proof.
  intros Hx Hex. destruct (present_sorted x Hx) as (qs & s & Hqs & Hs & Hp & Ha).
  destruct quarter_range as (H0 & H13 & H1).
  assert (s ≠ []) as Hne.
  { intros ->. apply Permutation_nil_l in Hp. subst qs.
    apply Exists_exists in Hex as (v & Hv & Hnan).
    assert (v ∈ filter (λ v, isnan v = false) x) as Hin by (by apply list_elem_of_filter).
    rewrite Hqs in Hin. by apply elem_of_nil in Hin. }
  exists s, (interpolate s (Q2Qc (1 # 4))), (interpolate s (Q2Qc (3 # 4))).
  rewrite Hqs in *. split_and!; [by rewrite Hp|done|done| | | |done|done].
  - apply quantile_sorted; [by rewrite Hqs|done|done|by etrans].
  - apply quantile_sorted; [by rewrite Hqs|done|by etrans|done].
  - by apply interpolate_mono.
Qed.

Lemma all_missing (x : list num) :
  ¬ Exists (λ v, isnan v = false) x → filter (λ v, isnan v = false) x = [].
Proof.
  intros H. induction x as [|v x IH]; [done|].
  rewrite filter_cons_False; [apply IH|]; intros ?; apply H; by constructor.
Qed.

Lemma iqr_flag_inside (a1 a3 p θ : Qc) :
  0 ≤ θ → a1 ≤ a3 → a1 ≤ p → p ≤ a3 →
  Num.ltb (Fin p) (Num.sub (Fin a1) (Num.mul (Fin θ) (Num.sub (Fin a3) (Fin a1))))
  || Num.gtb (Fin p) (Num.add (Fin a3) (Num.mul (Fin θ) (Num.sub (Fin a3) (Fin a1))))
  = false.
Proof.
  intros Hθ H13 H1 H3. unfold Num.gtb. simpl.
  rewrite !bool_decide_eq_false_2; [done| |]; apply Qcle_not_lt; to_Q; nra.
Qed.

(** With a threshold that is not negative, the fences of the [iqr] method
    enclose the quartiles: the first quartile is at most the third, and no
    row whose value lies between them is flagged. *)
Theorem iqr_spares_the_values_between_the_quartiles sqrt df column θ w t :
  heap w !! df = Some t →
  column ∈ columns t →
  numeric_column t column →
  Forall finite_or_missing (column_values t column) →
  0 ≤ θ →
  ∃ flags,
    (detect_outliers sqrt df column "iqr" (Fin θ) w).1 = Ok flags
    ∧ (Exists (λ v, isnan v = false) (column_values t column) →
       Num.leb (quantile (Q2Qc (1 # 4)) (column_values t column))
               (quantile (Q2Qc (3 # 4)) (column_values t column)) = true)
    ∧ ∀ i v,
        column_values t column !! i = Some v →
        Num.leb (quantile (Q2Qc (1 # 4)) (column_values t column)) v = true →
        Num.leb v (quantile (Q2Qc (3 # 4)) (column_values t column)) = true →
        flags !! i = Some false.
Proof.
  intros Hdf Hc _ Hx Hθ.
  rewrite (detect_outliers_run sqrt df column "iqr" (Fin θ) w t Hdf).
  rewrite bool_decide_eq_true_2 by done. rewrite (bool_decide_eq_true_2 _ Hc).
  eexists. split; [reflexivity|]. unfold iqr_flags.
  set (x := column_values t column) in *.
  destruct (decide (Exists (λ v, isnan v = false) x)) as [Hex|Hex].
  - destruct (quartiles x Hx Hex) as (s & a1 & a3 & _ & _ & _ & -> & -> & H13 & _).
    split; [intros _; by apply leb_Fin|].
    intros i v Hi H1 H3. rewrite list_lookup_fmap, Hi.
    cbn [fmap option_fmap option_map]. f_equal.
    destruct v as [p| | |]; try done.
    apply leb_Fin in H1, H3. by apply iqr_flag_inside.
  - rewrite !(quantile_missing _ x (all_missing x Hex)).
    split; [done|]. intros i v _ H1. by destruct v.
Qed.

Lemma measures_finite : Forall finite_or_missing (column_values measures_table "value").
Proof. repeat constructor; by (left + right). Qed.

Lemma iqr_spares_witness :
  ∃ flags,
    (detect_outliers small_sqrt 0%nat "value" "iqr" (Fin 1)
       (Example.session measures_table)).1 = Ok flags
    ∧ (Exists (λ v, isnan v = false) (column_values measures_table "value") →
       Num.leb (quantile (Q2Qc (1 # 4)) (column_values measures_table "value"))
               (quantile (Q2Qc (3 # 4)) (column_values measures_table "value")) = true)
    ∧ ∀ i v,
        column_values measures_table "value" !! i = Some v →
        Num.leb (quantile (Q2Qc (1 # 4)) (column_values measures_table "value")) v = true →
        Num.leb v (quantile (Q2Qc (3 # 4)) (column_values measures_table "value")) = true →
        flags !! i = Some false.
Proof.
  apply (iqr_spares_the_values_between_the_quartiles small_sqrt 0%nat "value" 1
           (Example.session measures_table) measures_table).
  - reflexivity.
  - apply (bool_decide_eq_true_1 _). vm_compute. reflexivity.
  - apply measures_numeric.
  - apply measures_finite.
  - by vm_compute.
Defined.

(** The quartiles of the example: 2 and 4. *)
Lemma measures_quartiles :
  quantile (Q2Qc (1 # 4)) (column_values measures_table "value") = Fin (Qc_of_Z 2)
  ∧ quantile (Q2Qc (3 # 4)) (column_values measures_table "value") = Fin (Qc_of_Z 4).
Proof. split; apply (bool_decide_eq_true_1 _); vm_compute; reflexivity. Qed.

(** *** Sums of squares *)

Lemma total_app l1 l2 : total (l1 ++ l2) = total l1 + total l2.
Proof.
  unfold total. induction l1 as [|a l1 IH]; simpl; [ring|]. rewrite IH. ring.
Qed.

Lemma total_cons a l : total (a :: l) = a + total l.
Proof. done. Qed.

Lemma total_squares_nonneg l : 0 ≤ total (map (λ d, d * d) l).
Proof.
  induction l as [|a l IH]; [apply Qcle_refl|]. cbn [map]. rewrite total_cons.
  to_Q. nra.
Qed.

Lemma Q_square_nonneg (x : Q) : (0 <= x * x)%Q.
Proof. nra. Qed.

(** The square of a sum is at most the number of terms times the sum of
    the squares. *)
Lemma square_of_total l :
  total l * total l ≤ Qc_of_Z (Z.of_nat (length l)) * total (map (λ d, d * d) l).
Proof.
  induction l as [|a l IH].
  - simpl. unfold total. simpl. to_Q. lra.
  - cbn [map length]. rewrite !total_cons, Qc_of_nat_S.
    pose proof (total_squares_nonneg l) as HQ.
    pose proof (Qc_of_nat_nonneg (length l)) as Hk.
    set (k := Qc_of_Z (Z.of_nat (length l))) in *.
    set (s := total l) in *. set (Q := total (map (λ d, d * d) l)) in *.
    destruct (Qclt_le_dec 0 k) as [Hpos|Hle].
    + assert (0 ≤ k * ((k + 1) * (a * a + Q) - (a + s) * (a + s))) as H.
      { replace (k * ((k + 1) * (a * a + Q) - (a + s) * (a + s)))
          with ((k * a - s) * (k * a - s) + (k + 1) * (k * Q - s * s)) by ring.
        clearbody k s Q. to_Q.
        assert (0 <= (k + 1) * (k * Q - s * s))%Q as H1
          by (apply Qmult_le_0_compat; lra).
        pose proof (Q_square_nonneg (k * a - s)) as H2.
        lra. }
      clearbody k s Q. to_Q. nra.
    + assert (k = 0) as Hk0 by (by apply Qcle_antisym).
      assert (s * s ≤ 0) as Hs by (rewrite Hk0 in IH; revert IH; to_Q; intros; lra).
      rewrite Hk0. clearbody s Q. to_Q. nra.
Qed.

Lemma total_deviations m l :
  total (map (λ y, y - m) l) = total l - Qc_of_Z (Z.of_nat (length l)) * m.
Proof.
  induction l as [|a l IH].
  - change (Z.of_nat (length [])) with 0%Z. rewrite Qc_of_Z_0. unfold total. simpl. ring.
  - cbn [map length]. rewrite !total_cons, IH, Qc_of_nat_S. ring.
Qed.

(** No value is further from the mean than the others allow: for [n]
    values with the mean [m], [n (q - m)² ≤ (n - 1) Σ (y - m)²]. *)
Lemma deviation_bound qs q :
  q ∈ qs →
  let n := Qc_of_Z (Z.of_nat (length qs)) in
  let m := total qs / n in
  n * ((q - m) * (q - m)) ≤ (n - 1) * total (map (λ y, (y - m) * (y - m)) qs).
Proof.
  intros Hq n m.
  assert (0 < n) as Hn.
  { apply Qc_of_nat_pos. intros ->. by apply elem_of_nil in Hq. }
  assert (n * m = total qs) as Hm.
  { unfold m. field. by apply Qclt_not_0. }
  apply list_elem_of_split in Hq as (l1 & l2 & Hqs).
  pose proof (square_of_total (map (λ y, y - m) (l1 ++ l2))) as Hcs.
  rewrite total_deviations, length_map, map_map in Hcs.
  assert (Qc_of_Z (Z.of_nat (length (l1 ++ l2))) = n - 1) as Hlen.
  { unfold n. rewrite Hqs, !length_app. cbn [length].
    rewrite Nat.add_succ_r, Qc_of_nat_S. ring. }
  rewrite Hlen in Hcs.
  assert (total (l1 ++ l2) = total qs - q) as Hrest.
  { rewrite Hqs, !total_app, total_cons. ring. }
  assert (total (map (λ y, (y - m) * (y - m)) (l1 ++ l2))
          = total (map (λ y, (y - m) * (y - m)) qs) - (q - m) * (q - m)) as Hsq.
  { rewrite Hqs, !map_app, !total_app. cbn [map]. rewrite total_cons. ring. }
  rewrite Hrest, Hsq, <- Hm in Hcs.
  set (S := total (map (λ y, (y - m) * (y - m)) qs)) in *.
  clearbody S n m. clear Hqs Hlen Hrest Hsq Hm.
  replace ((n * m - q - (n - 1) * m) * (n * m - q - (n - 1) * m))
    with ((q - m) * (q - m)) in Hcs by ring.
  set (d2 := (q - m) * (q - m)) in *. clearbody d2.
  to_Q. nra.
Qed.

(** *** The mean and the deviation of finite values *)

Lemma filter_present_Fin qs :
  filter (λ v, isnan v = false) (map Fin qs) = map Fin qs.
Proof.
  induction qs as [|q qs IH]; [done|]. cbn [map].
  rewrite filter_cons_True by done. by rewrite IH.
Qed.

Lemma mean_Fin (x : list num) qs :
  filter (λ v, isnan v = false) x = map Fin qs → qs ≠ [] →
  mean x = Fin (total qs / Qc_of_Z (Z.of_nat (length qs))).
Proof.
  intros Hx Hne. unfold mean. rewrite Hx, sum_Fin, length_map. unfold of_Z. simpl.
  by rewrite (sgn_pos _ (Qc_of_nat_pos qs Hne)).
Qed.

Lemma std_Fin sqrt (x : list num) qs :
  filter (λ v, isnan v = false) x = map Fin qs → (2 ≤ length qs)%nat →
  let m := total qs / Qc_of_Z (Z.of_nat (length qs)) in
  std sqrt x
  = sqrt (Fin (total (map (λ y, (y - m) * (y - m)) qs)
               / Qc_of_Z (Z.of_nat (length qs) - 1))).
Proof.
  intros Hx Hlen m. unfold std. rewrite Hx.
  assert (qs ≠ []) as Hne by (intros ->; simpl in Hlen; lia).
  rewrite (mean_Fin (map Fin qs) qs (filter_present_Fin qs) Hne). fold m.
  rewrite map_map.
  rewrite (map_ext _ (λ y, Fin ((y - m) * (y - m))) ) by (intros; reflexivity).
  rewrite <- (map_map (λ y, (y - m) * (y - m)) Fin), sum_Fin, length_map.
  f_equal. unfold of_Z. simpl.
  rewrite sgn_pos; [done|].
  rewrite <- Qc_of_Z_0. to_Q. rewrite <- Zlt_Qlt. lia.
Qed.


Lemma zscore_flag_zero s (θ : Qc) :
  0 ≤ θ → Num.gtb (fabs (Num.div (Fin 0) s)) (Fin θ) = false.
Proof.
  intros Hθ. unfold Num.gtb.
  assert (bool_decide (θ < 0) = false) as H0.
  { by apply bool_decide_eq_false, Qcle_not_lt. }
  destruct s as [σ| | |]; simpl; try done.
  - destruct (sgn σ) eqn:E; simpl; [done| |];
      unfold Qcdiv; by rewrite Qcmult_0_l.
  - unfold zero, of_Z. rewrite Qc_of_Z_0. simpl. exact H0.
  - unfold zero, of_Z. rewrite Qc_of_Z_0. simpl. exact H0.
Qed.

Lemma zscore_flag_small (d σ θ : Qc) :
  0 < σ → 0 ≤ θ → d * d ≤ θ * θ * (σ * σ) →
  Num.gtb (fabs (Num.div (Fin d) (Fin σ))) (Fin θ) = false.
Proof.
  intros Hσ Hθ Hd. unfold Num.gtb. simpl. rewrite (sgn_pos σ Hσ). simpl.
  assert (d / σ * σ = d) as Hr by (field; by apply Qclt_not_0).
  set (r := d / σ) in *. clearbody r. subst d.
  apply bool_decide_eq_false, Qcle_not_lt.
  assert (r * r ≤ θ * θ) as Hrr.
  { destruct (Qclt_le_dec (θ * θ) (r * r)) as [Hlt|]; [|done]. exfalso.
    revert Hσ Hd Hlt. to_Q. intros. 
    assert (0 < σ * σ)%Q by nra.
    assert (θ * θ * (σ * σ) < r * r * (σ * σ))%Q by (apply Qmult_lt_compat_r; lra).
    nra. }
  case_bool_decide as Hneg; revert Hθ Hrr Hneg; to_Q; intros; nra.
Qed.

Lemma square_zero (d : Qc) : d * d ≤ 0 → d = 0.
Proof.
  intros H. apply Qc_is_canon. revert H. to_Q. intros H.
  apply Qle_antisym; apply Qnot_lt_le; intros Hd;
    pose proof (Q_square_nonneg d); nra.
Qed.

Lemma Qc_eq_le (a b : Qc) : a = b → a ≤ b ∧ b ≤ a.
Proof. intros ->. split; apply Qcle_refl. Qed.

Lemma value_cases (x : list num) qs v :
  Forall finite_or_missing x →
  filter (λ v, isnan v = false) x = map Fin qs →
  v ∈ x → v = NaN ∨ ∃ q, v = Fin q ∧ q ∈ qs.
Proof.
  intros Hx Hqs Hv. rewrite Forall_forall in Hx.
  destruct (Hx v Hv) as [Hnan|Hfin]; [left; by destruct v|right].
  destruct v as [q| | |]; try done. exists q. split; [done|].
  assert (Fin q ∈ filter (λ v, isnan v = false) x) as Hin
    by (by apply list_elem_of_filter).
  rewrite Hqs in Hin. apply list_elem_of_fmap in Hin as (q' & [= ->] & Hq'). done.
Qed.

Lemma flags_all_false {A} (f : A → bool) (l : list A) :
  (∀ v, v ∈ l → f v = false) → map f l = replicate (length l) false.
Proof.
  induction l as [|a l IH]; intros H; [done|]. simpl.
  rewrite H by apply list_elem_of_here. f_equal. apply IH.
  intros v Hv. by apply H, list_elem_of_further.
Qed.

Lemma length_column_values t c : length (column_values t c) = length (rows t).
Proof. unfold column_values. by rewrite length_map. Qed.

Lemma single_value_arith (n d2 S : Qc) :
  0 < n → n - 1 = 0 → n * d2 ≤ (n - 1) * S → d2 ≤ 0.
Proof.
  intros Hn H1 Hd. rewrite H1 in Hd. revert Hn Hd. to_Q. intros. nra.
Qed.

Lemma variance_nonneg (n S v : Qc) :
  0 < n - 1 → 0 ≤ S → v * (n - 1) = S → 0 ≤ v.
Proof.
  intros Hn HS [Hv1 Hv2]%Qc_eq_le. revert Hn HS Hv1 Hv2. to_Q. intros.
  destruct (Qlt_le_dec v 0) as [Hneg|]; [|done]. exfalso.
  assert (v * (n - 1) < 0 * (n - 1))%Q by (apply Qmult_lt_compat_r; lra).
  lra.
Qed.

Lemma zero_deviation_arith (n d2 S v κ : Qc) :
  0 < n → 0 < n - 1 → 0 ≤ S → n * d2 ≤ (n - 1) * S → v * (n - 1) = S →
  0 < κ → κ * v ≤ 0 → d2 ≤ 0.
Proof.
  intros Hn Hn1 HS Hd Hv Hκ Hκv.
  pose proof (variance_nonneg n S v Hn1 HS Hv) as Hv0.
  apply Qc_eq_le in Hv as [Hv1 Hv2].
  revert Hn Hn1 HS Hd Hv1 Hv2 Hκ Hκv Hv0. to_Q. intros.
  assert (v <= 0)%Q by nra. nra.
Qed.

Lemma zscore_bound_arith (n d2 S v σ2 θ2 κ : Qc) :
  0 < n → 0 < n - 1 → 0 ≤ S → n * d2 ≤ (n - 1) * S → v * (n - 1) = S →
  0 < κ → κ * v ≤ σ2 → 0 ≤ θ2 →
  (n - 1) * (n - 1) ≤ κ * θ2 * n →
  d2 ≤ θ2 * σ2.
Proof.
  intros Hn Hn1 HS Hd Hv Hκ Hσ Hθ Hsmall.
  pose proof (variance_nonneg n S v Hn1 HS Hv) as Hv0.
  apply Qc_eq_le in Hv as [Hv1 Hv2].
  revert Hn Hn1 HS Hd Hv1 Hv2 Hκ Hσ Hθ Hsmall Hv0. to_Q. intros.
  assert ((n - 1) * (n - 1) * v <= κ * θ2 * n * v)%Q as Hb
    by (apply Qmult_le_compat_r; lra).
  assert (θ2 * n * (κ * v) <= θ2 * n * σ2)%Q as Hc.
  { rewrite !(Qmult_comm (θ2 * n)). apply Qmult_le_compat_r; [lra|].
    apply Qmult_le_0_compat; lra. }
  assert (n * d2 <= n * (θ2 * σ2))%Q as Hnd by nra.
  nra.
Qed.

Lemma square_nonneg (θ : Qc) : 0 ≤ θ * θ.
Proof. to_Q. apply Q_square_nonneg. Qed.

Lemma count_of_values (qs : list Qc) :
  qs ≠ [] →
  Qc_of_Z (Z.of_nat (length qs) - 1) = Qc_of_Z (Z.of_nat (length qs)) - 1.
Proof.
  intros Hne. destruct qs as [|a qs]; [done|]. cbn [length].
  rewrite Qc_of_nat_S. replace (Z.of_nat (Datatypes.S (length qs)) - 1)%Z
    with (Z.of_nat (length qs)) by lia. ring.
Qed.

Lemma one_or_more (qs : list Qc) :
  qs ≠ [] →
  (length qs = 1%nat ∧ Qc_of_Z (Z.of_nat (length qs)) - 1 = 0)
  ∨ ((2 ≤ length qs)%nat ∧ 0 < Qc_of_Z (Z.of_nat (length qs)) - 1).
Proof.
  intros Hne. destruct qs as [|a [|b qs]]; [done|left|right].
  - split; [done|]. cbn [length]. change (Z.of_nat 1) with 1%Z.
    rewrite Qc_of_Z_1. ring.
  - split; [simpl; lia|]. cbn [length]. rewrite !Qc_of_nat_S.
    pose proof (Qc_of_nat_nonneg (length qs)) as H.
    revert H. generalize (Qc_of_Z (Z.of_nat (length qs))). intros k H. to_Q. lra.
Qed.

(** The z-score of a value among the values [qs] with the deviation [s]. *)
Lemma zscore_flag_of_value sqrt (θ κ : Qc) qs q :
  q ∈ qs →
  0 < κ →
  (∀ v σ, sqrt (Fin v) = Fin σ → 0 ≤ σ ∧ κ * v ≤ σ * σ) →
  0 ≤ θ →
  (Qc_of_Z (Z.of_nat (length qs) - 1) * Qc_of_Z (Z.of_nat (length qs) - 1)
   ≤ κ * (θ * θ) * Qc_of_Z (Z.of_nat (length qs))) →
  let m := total qs / Qc_of_Z (Z.of_nat (length qs)) in
  let v := total (map (λ y, (y - m) * (y - m)) qs)
           / (Qc_of_Z (Z.of_nat (length qs)) - 1) in
  (length qs = 1%nat →
   ∀ s, Num.gtb (fabs (Num.div (Fin (q - m)) s)) (Fin θ) = false)
  ∧ ((2 ≤ length qs)%nat →
     Num.gtb (fabs (Num.div (Fin (q - m)) (sqrt (Fin v)))) (Fin θ) = false).
Proof.
  intros Hq Hκ Hsqrt Hθ Hn m v.
  assert (qs ≠ []) as Hne by (intros ->; by apply elem_of_nil in Hq).
  pose proof (deviation_bound qs q Hq) as Hdev. cbv zeta in Hdev. fold m in Hdev.
  rewrite (count_of_values qs Hne) in Hn.
  assert (0 < Qc_of_Z (Z.of_nat (length qs))) as Hpos by (by apply Qc_of_nat_pos).
  assert (0 ≤ total (map (λ y, (y - m) * (y - m)) qs)) as HS.
  { rewrite <- (map_map (λ y, y - m) (λ d, d * d)). apply total_squares_nonneg. }
  destruct (one_or_more qs Hne) as [[H1 Hone]|[H2 Hmore]].
  - split; [intros _ s|intros ?; lia].
    assert (q - m = 0) as ->; [|by apply zscore_flag_zero].
    apply square_zero. by eapply single_value_arith.
  - split; [intros ?; lia|intros _].
    assert (v * (Qc_of_Z (Z.of_nat (length qs)) - 1)
            = total (map (λ y, (y - m) * (y - m)) qs)) as Hv
      by (unfold v; field; by apply Qclt_not_0).
    destruct (sqrt (Fin v)) as [σ| | |] eqn:Hs.
    + destruct (Hsqrt v σ Hs) as [Hσ Hσσ].
      destruct (Qclt_le_dec 0 σ) as [Hσpos|Hσle].
      * apply zscore_flag_small; [done|done|].
        eapply zscore_bound_arith; [exact Hpos|exact Hmore|exact HS|exact Hdev
                                   |exact Hv|exact Hκ|exact Hσσ|apply square_nonneg|exact Hn].
      * assert (σ = 0) as -> by (by apply Qcle_antisym).
        assert (q - m = 0) as ->; [|by apply zscore_flag_zero].
        apply square_zero. rewrite Qcmult_0_l in Hσσ.
        eapply zero_deviation_arith; [exact Hpos|exact Hmore|exact HS|exact Hdev
                                     |exact Hv|exact Hκ|exact Hσσ].
    + unfold Num.gtb. simpl. unfold zero, of_Z. rewrite Qc_of_Z_0. simpl.
      by apply bool_decide_eq_false, Qcle_not_lt.
    + unfold Num.gtb. simpl. unfold zero, of_Z. rewrite Qc_of_Z_0. simpl.
      by apply bool_decide_eq_false, Qcle_not_lt.
    + done.
Qed.

(** The z-score method cannot flag a value of a small sample: among [n]
    values no z-score exceeds [(n - 1) / √n].  So with a threshold [θ ≥ 0]
    such that [(n - 1)² ≤ κ θ² n] no row is flagged, where [n] is the number
    of values present and [κ] the accuracy of the square root ([κ = 1] when
    it is exact or rounds up).  For the default threshold 3 these are the
    columns with at most ten values. *)
Theorem zscore_flags_nothing_in_a_small_sample sqrt df column θ κ w t :
  heap w !! df = Some t →
  column ∈ columns t →
  numeric_column t column →
  Forall finite_or_missing (column_values t column) →
  0 < κ →
  (∀ v σ, sqrt (Fin v) = Fin σ → 0 ≤ σ ∧ κ * v ≤ σ * σ) →
  0 ≤ θ →
  (Qc_of_Z (count_present (column_values t column) - 1)
   * Qc_of_Z (count_present (column_values t column) - 1)
   ≤ κ * (θ * θ) * Qc_of_Z (count_present (column_values t column))) →
  (detect_outliers sqrt df column "zscore" (Fin θ) w).1
  = Ok (replicate (length (rows t)) false).
Proof.
  intros Hdf Hc _ Hx Hκ Hsqrt Hθ Hn.
  rewrite (detect_outliers_run sqrt df column "zscore" (Fin θ) w t Hdf).
  rewrite bool_decide_eq_false_2 by done. rewrite bool_decide_eq_true_2 by done.
  rewrite (bool_decide_eq_true_2 _ Hc). cbn [fst]. f_equal.
  rewrite <- (length_column_values t column). unfold zscore_flags.
  set (x := column_values t column) in *.
  apply flags_all_false. intros v Hv.
  destruct (present_sorted x Hx) as (qs & _ & Hqs & _).
  destruct (value_cases x qs v Hx Hqs Hv) as [->|(q & -> & Hq)];
    [apply zscore_flag_missing|].
  assert (qs ≠ []) as Hne by (intros ->; by apply elem_of_nil in Hq).
  unfold count_present in Hn. rewrite Hqs, length_map in Hn.
  rewrite (mean_Fin x qs Hqs Hne).
  destruct (zscore_flag_of_value sqrt θ κ qs q Hq Hκ Hsqrt Hθ Hn) as [H1 H2].
  destruct (one_or_more qs Hne) as [[Hone _]|[Hmore _]].
  - (* one value: it is the mean *)
    apply (H1 Hone).
  - rewrite (std_Fin sqrt x qs Hqs Hmore). cbv zeta.
    rewrite (count_of_values qs Hne). by apply H2.
Qed.

Lemma small_sqrt_exact v σ : small_sqrt (Fin v) = Fin σ → 0 ≤ σ ∧ 1 * v ≤ σ * σ.
Proof.
  unfold small_sqrt. repeat case_bool_decide; intros [= <-]; subst v;
    (split; by vm_compute).
Qed.

Lemma zscore_small_sample_witness :
  (detect_outliers small_sqrt 0%nat "value" "zscore" (Fin (Qc_of_Z 3))
     (Example.session measures_table)).1
  = Ok (replicate (length (rows measures_table)) false).
Proof.
  apply (zscore_flags_nothing_in_a_small_sample small_sqrt 0%nat "value" (Qc_of_Z 3) 1
           (Example.session measures_table) measures_table).
  - reflexivity.
  - apply (bool_decide_eq_true_1 _). vm_compute. reflexivity.
  - apply measures_numeric.
  - apply measures_finite.
  - by vm_compute.
  - apply small_sqrt_exact.
  - by vm_compute.
  - by vm_compute.
Defined.

(** The z-scores of the example are 1, 0 and 1. *)
Lemma measures_zscores :
  map (λ v, fabs (Num.div (Num.sub v (mean (column_values measures_table "value")))
                          (std small_sqrt (column_values measures_table "value"))))
      (column_values measures_table "value")
  = [Fin (Qc_of_Z 1); Fin (Qc_of_Z 0); NaN; Fin (Qc_of_Z 1)].
Proof. apply (bool_decide_eq_true_1 _). vm_compute. reflexivity. Qed.

Lemma interpolate_constant (s : list Qc) (q c : Qc) :
  Forall (eq c) s → s ≠ [] → 0 ≤ q → q ≤ 1 → interpolate s q = c.
Proof.
  intros Hs Hne H0 H1.
  assert (ascending s) as Ha.
  { induction Hs as [|a s <- Hs IH]; [done|]. split.
    - eapply Forall_impl; [exact Hs|]. intros ? <-. apply Qcle_refl.
    - destruct s; [done|]. by apply IH. }
  assert (0 < length s)%nat as Hn by (destruct s; [done|simpl; lia]).
  pose proof (interpolate_between s q Ha Hne H0 H1) as [Hlo Hup]. cbv zeta in *.
  pose proof (place_range (length s) q _ eq_refl Hn H0 H1) as Hp.
  assert (∀ i, (i < length s)%nat → nth i s 0 = c) as Hnth.
  { intros i Hi. rewrite Forall_forall in Hs. symmetry. apply Hs.
    by apply list_elem_of_In, nth_In. }
  rewrite Hnth in Hlo, Hup by lia. by apply Qcle_antisym.
Qed.


Lemma level_numeric : numeric_column level_table "value".
Proof. apply numeric_column_check. vm_compute. reflexivity. Qed.


Local Close Scope Qc_scope.

(** ** [univariate_analysis] *)

Lemma univariate_run sqrt sk ku df column w t :
  heap w !! df = Some t → column ∈ columns t →
  univariate_analysis sqrt sk ku df column w
  = (let x := column_values t column in
     Ok (mk_univariate (count_present x) (mean x) (median x) (std sqrt x)
           (minimum x) (maximum x)
           (quantile (Q2Qc (1 # 4)) x) (quantile (Q2Qc (3 # 4)) x)
           (sk x) (ku x)), w).
Proof.
  intros Hdf Hc. unfold univariate_analysis. rewrite (eval_run _ df w t Hdf).
  rewrite getitem_present by done. unfold column_values. simpl. by rewrite !map_map.
Qed.

Local Open Scope Qc_scope.

Lemma floor_unique (x : Qc) (z : Z) :
  Qc_of_Z z ≤ x → x < Qc_of_Z z + 1 → Qfloor x = z.
Proof.
  intros H1 H2. apply Z.le_antisymm.
  - assert (Qfloor x < z + 1)%Z; [|lia].
    pose proof (Qc_floor_le x) as Hf. revert Hf H2. to_Q. intros Hf H2.
    rewrite Zlt_Qlt, inject_Z_plus. change (inject_Z 1) with 1%Q. lra.
  - rewrite <- (Qc_floor_of_Z z). by apply Qc_floor_mono.
Qed.

Lemma Qc_of_Z_opp1 : Qc_of_Z (-1) = - (1).
Proof. by apply Qc_is_canon. Qed.

Lemma half_twice : Q2Qc (1 # 2) + Q2Qc (1 # 2) = 1.
Proof. by apply Qc_is_canon. Qed.

Lemma half_is : Q2Qc (1 # 2) = 1 / 2.
Proof. by apply Qc_is_canon. Qed.

Lemma half_range :
  0 ≤ Q2Qc (1 # 4) ∧ Q2Qc (1 # 4) ≤ Q2Qc (1 # 2) ∧ Q2Qc (1 # 2) ≤ Q2Qc (3 # 4)
  ∧ Q2Qc (3 # 4) ≤ 1.
Proof. split_and!; by vm_compute. Qed.

(** The median is the quantile [1/2]. *)
Lemma median_sorted (x : list num) (s : list Qc) :
  sort_values (filter (λ v, isnan v = false) x) = map Fin s →
  s ≠ [] →
  median x = Fin (interpolate s (Q2Qc (1 # 2))).
Proof.
  intros Hs Hne. unfold median. rewrite Hs.
  destruct s as [|a s]; [done|]. cbn [map]. cbv zeta.
  change (Fin a :: map Fin s) with (map Fin (a :: s)). rewrite length_map.
  set (l := a :: s) in *. set (n := length l).
  assert (0 < n)%nat as Hn by (unfold n, l; simpl; lia).
  unfold interpolate. fold n.
  set (index := Qc_of_Z (Z.of_nat n - 1) * Q2Qc (1 # 2)).
  pose proof half_twice as Hh.
  destruct (Nat.even n) eqn:He.
  - apply Nat.even_spec in He as [k Hk].
    assert (n / 2 = k)%nat as Hdiv by (rewrite Hk, Nat.mul_comm; by apply Nat.div_mul).
    assert (index = Qc_of_Z (Z.of_nat k - 1) + Q2Qc (1 # 2)) as Hi.
    { unfold index. replace (Z.of_nat n - 1)%Z with (Z.of_nat k + (Z.of_nat k + -1))%Z by lia.
      replace (Z.of_nat k - 1)%Z with (Z.of_nat k + -1)%Z by lia.
      rewrite !Qc_of_Z_add, Qc_of_Z_opp1.
      generalize (Qc_of_Z (Z.of_nat k)). intros K.
      apply Qc_is_canon. to_Q. lra. }
    assert (Qfloor index = Z.of_nat k - 1)%Z as Hfl.
    { apply floor_unique; rewrite Hi; to_Q; lra. }
    rewrite Hfl, Hdiv.
    replace (Z.to_nat (Z.of_nat k - 1)) with (k - 1)%nat by lia.
    replace (Datatypes.S (k - 1) `min` (n - 1))%nat with k by lia.
    rewrite !nth_map_Fin by (fold n; lia).
    assert (index - Qc_of_Z (Z.of_nat k - 1) = Q2Qc (1 # 2)) as -> by (rewrite Hi; ring).
    generalize (nth (k - 1) l 0) (nth k l 0). intros A B.
    unfold of_Z. simpl. f_equal.
    rewrite Qc_of_Z_2, half_is. field. by vm_compute.
  - assert (Nat.odd n = true) as Ho by (by rewrite <- Nat.negb_even, He).
    apply Nat.odd_spec in Ho as [k Hk].
    assert (n / 2 = k)%nat as Hdiv.
    { rewrite Hk. rewrite Nat.add_comm, Nat.mul_comm, Nat.div_add by done. done. }
    assert (index = Qc_of_Z (Z.of_nat k)) as Hi.
    { unfold index. replace (Z.of_nat n - 1)%Z with (Z.of_nat k + Z.of_nat k)%Z by lia.
      rewrite !Qc_of_Z_add. generalize (Qc_of_Z (Z.of_nat k)). intros K.
      apply Qc_is_canon. to_Q. lra. }
    rewrite Hi, Qc_floor_of_Z, Hdiv, Nat2Z.id.
    rewrite !nth_map_Fin by (fold n; lia). f_equal. ring.
Qed.

(** *** The smallest and the greatest value *)

Lemma minimum_Fin (a : Qc) (r : list Qc) :
  ∃ m, foldl (λ m v, if Num.ltb v m then v else m) (Fin a) (map Fin r) = Fin m
       ∧ m ∈ a :: r ∧ Forall (Qcle m) (a :: r).
Proof.
  revert a. induction r as [|b r IH]; intros a.
  - exists a. split_and!; [done|in_list|]. constructor; [apply Qcle_refl|constructor].
  - cbn [map foldl]. change (Num.ltb (Fin b) (Fin a)) with (bool_decide (b < a)).
    case_bool_decide as Hlt.
    + destruct (IH b) as (m & -> & Hin & Hall). exists m. split_and!; [done| |].
      * by apply list_elem_of_further.
      * apply Forall_cons in Hall as [Hb Hr]. constructor; [|by constructor].
        etrans; [exact Hb|]. by apply Qclt_le_weak.
    + destruct (IH a) as (m & -> & Hin & Hall). exists m. split_and!; [done| |].
      * apply elem_of_cons in Hin as [->|Hin]; [in_list|by do 2 apply list_elem_of_further].
      * apply Forall_cons in Hall as [Ha Hr]. constructor; [done|]. constructor; [|done].
        etrans; [exact Ha|]. by apply Qcnot_lt_le.
Qed.

Lemma maximum_Fin (a : Qc) (r : list Qc) :
  ∃ m, foldl (λ m v, if Num.gtb v m then v else m) (Fin a) (map Fin r) = Fin m
       ∧ m ∈ a :: r ∧ Forall (λ q, q ≤ m) (a :: r).
Proof.
  revert a. induction r as [|b r IH]; intros a.
  - exists a. split_and!; [done|in_list|]. constructor; [apply Qcle_refl|constructor].
  - cbn [map foldl]. change (Num.gtb (Fin b) (Fin a)) with (bool_decide (a < b)).
    case_bool_decide as Hlt.
    + destruct (IH b) as (m & -> & Hin & Hall). exists m. split_and!; [done| |].
      * by apply list_elem_of_further.
      * apply Forall_cons in Hall as [Hb Hr]. constructor; [|by constructor].
        etrans; [|exact Hb]. by apply Qclt_le_weak.
    + destruct (IH a) as (m & -> & Hin & Hall). exists m. split_and!; [done| |].
      * apply elem_of_cons in Hin as [->|Hin]; [in_list|by do 2 apply list_elem_of_further].
      * apply Forall_cons in Hall as [Ha Hr]. constructor; [done|]. constructor; [|done].
        etrans; [|exact Ha]. by apply Qcnot_lt_le.
Qed.

Lemma extrema_of_values (x : list num) (qs : list Qc) :
  filter (λ v, isnan v = false) x = map Fin qs → qs ≠ [] →
  ∃ lo hi, minimum x = Fin lo ∧ maximum x = Fin hi
           ∧ lo ∈ qs ∧ hi ∈ qs
           ∧ Forall (λ q, lo ≤ q ∧ q ≤ hi) qs.
Proof.
  intros Hx Hne. unfold minimum, maximum, extremum. rewrite Hx.
  destruct qs as [|a r]; [done|]. cbn [map].
  destruct (minimum_Fin a r) as (lo & -> & Hlo & Hlos).
  destruct (maximum_Fin a r) as (hi & -> & Hhi & His).
  exists lo, hi. split_and!; [done..|].
  rewrite Forall_forall in Hlos, His. apply Forall_forall. intros q Hq.
  split; [by apply Hlos|by apply His].
Qed.

Lemma total_upper x vs :
  Forall (λ q, q ≤ x) vs → total vs ≤ Qc_of_Z (Z.of_nat (length vs)) * x.
Proof.
  induction 1 as [|y vs Hy _ IH]; simpl length.
  - change (Z.of_nat 0) with 0%Z. rewrite Qc_of_Z_0, Qcmult_0_l. apply Qcle_refl.
  - rewrite Qc_of_nat_S, total_cons.
    generalize dependent (Qc_of_Z (Z.of_nat (length vs))). intros m IH.
    generalize dependent (total vs). intros S IH.
    to_Q. lra.
Qed.

Lemma mean_between (qs : list Qc) (lo hi : Qc) :
  qs ≠ [] → Forall (λ q, lo ≤ q ∧ q ≤ hi) qs →
  lo ≤ total qs / Qc_of_Z (Z.of_nat (length qs))
  ∧ total qs / Qc_of_Z (Z.of_nat (length qs)) ≤ hi.
Proof.
  intros Hne Hall.
  pose proof (Qc_of_nat_pos qs Hne) as Hn.
  assert (Qc_of_Z (Z.of_nat (length qs)) * lo ≤ total qs) as H1.
  { apply total_lower. eapply Forall_impl; [exact Hall|]. by intros q [? _]. }
  assert (total qs ≤ Qc_of_Z (Z.of_nat (length qs)) * hi) as H2.
  { apply total_upper. eapply Forall_impl; [exact Hall|]. by intros q [_ ?]. }
  set (n := Qc_of_Z (Z.of_nat (length qs))) in *. set (m := total qs / n).
  assert (m * n = total qs) as [Hm1 Hm2]%Qc_eq_le by (unfold m; field; by apply Qclt_not_0).
  clearbody m n. generalize dependent (total qs). intros T H1 H2 Hm1 Hm2.
  split; revert Hn H1 H2 Hm1 Hm2; to_Q; intros; nra.
Qed.



(** The statistics of the example: 3 values, mean 3, median 3, deviation 2,
    from 1 to 5, quartiles 2 and 4. *)
Lemma univariate_example :
  (univariate_analysis small_sqrt (λ _, NaN) (λ _, NaN) 0%nat "value"
     (Example.session measures_table)).1
  = Ok (mk_univariate 3 (of_Z 3) (of_Z 3) (of_Z 2) (of_Z 1) (of_Z 5) (of_Z 2) (of_Z 4)
          NaN NaN).
Proof. apply (bool_decide_eq_true_1 _). vm_compute. reflexivity. Qed.

Local Close Scope Qc_scope.

(** [univariate_analysis] on a numeric column: it raises [KeyError] when
    the table has no such column and returns otherwise, without a change to
    any table; [count] is the number of values present, and for a column
    without a value the mean, the median, the minimum, the maximum and the
    quartiles are all missing. *)
Theorem univariate_analysis_outcome sqrt sk ku df column w t :
  heap w !! df = Some t →
  numeric_column t column →
  (univariate_analysis sqrt sk ku df column w).2 = w
  ∧ match (univariate_analysis sqrt sk ku df column w).1 with
    | Ok r =>
        column ∈ columns t
        ∧ u_count r = count_present (column_values t column)
        ∧ 0 ≤ u_count r ≤ len t
        ∧ (u_count r = 0 →
           u_mean r = NaN ∧ u_median r = NaN ∧ u_min r = NaN ∧ u_max r = NaN
           ∧ u_q25 r = NaN ∧ u_q75 r = NaN)
    | Raise e => e = KeyError column ∧ column ∉ columns t
    end.
Proof.
  intros Hdf _. destruct (decide (column ∈ columns t)) as [Hc|Hc].
  - rewrite (univariate_run sqrt sk ku df column w t Hdf Hc). cbv zeta.
    split; [done|]. cbn [fst u_count u_mean u_median u_min u_max u_q25 u_q75].
    set (x := column_values t column).
    split_and!; [done|done|unfold count_present; lia| |].
    { unfold count_present, len.
      pose proof (length_filter (λ v, isnan v = false) x) as H.
      unfold x in H at 2. rewrite length_column_values in H. lia. }
    intros H0.
    assert (filter (λ v, isnan v = false) x = []) as Hnil.
    { unfold count_present in H0. destruct (filter _ x); [done|simpl in H0; lia]. }
    unfold mean, median, minimum, maximum, extremum, quantile. rewrite Hnil.
    split_and!; try done.
  - unfold univariate_analysis. rewrite (eval_run _ df w t Hdf).
    unfold getitem, has_column. rewrite (bool_decide_eq_false_2 _ Hc). done.
Qed.

Lemma blank_numeric : numeric_column blank_table "value".
Proof. apply numeric_column_check. vm_compute. reflexivity. Qed.

Lemma univariate_outcome_witness :
  let run := univariate_analysis small_sqrt (λ _, NaN) (λ _, NaN) 0%nat "value"
               (Example.session blank_table) in
  run.2 = Example.session blank_table
  ∧ match run.1 with
    | Ok r =>
        "value" ∈ columns blank_table
        ∧ u_count r = count_present (column_values blank_table "value")
        ∧ 0 ≤ u_count r ≤ len blank_table
        ∧ (u_count r = 0 →
           u_mean r = NaN ∧ u_median r = NaN ∧ u_min r = NaN ∧ u_max r = NaN
           ∧ u_q25 r = NaN ∧ u_q75 r = NaN)
    | Raise e => e = KeyError "value" ∧ "value" ∉ columns blank_table
    end.
Proof.
  apply (univariate_analysis_outcome small_sqrt (λ _, NaN) (λ _, NaN) 0%nat "value"
           (Example.session blank_table) blank_table).
  - reflexivity.
  - apply blank_numeric.
Defined.
